(** * graphgames: evolutionary game dynamics on graphs

    A shallow embedding of the simulation core of the repository
    (rng.js, graph.js, evo.js, and of the page script the population
    reset, the stepping loop and the fixation driver) together with the
    properties stated about it.

    Conventions of the embedding.
    - JavaScript integers (node indices, seeds, 32-bit generator states) are
      [Z]; the 32-bit coercions ([>>> 0], and the signed one of [^] and
      [<<]) are written out.
    - JavaScript doubles come in two readings.  The generators, the page
      script and the first reading of evo.js idealise them as exact
      rationals [Q] ([NaN] kept where arithmetic on [undefined] produces
      it); the statements made there are about ranges, counts and
      invariants, and the draws the concrete runs depend on are also
      evaluated in binary64.  The statements about
      a value the machine computes (a payoff, the node a draw selects, the
      seed of a trial) are made on the second reading, [Binary64], where
      every operation is the one of the kernel's primitive binary64 floats.
    - An array read outside the array yields [undefined] ([None]); reading a
      property of [undefined] throws a [TypeError].
    - The display-only [pos] field of a graph is left out; the generator
      draws that fill it are kept, since they advance the shared generator. *)

From Stdlib Require Import ZArith QArith Qround Lia Lqa Bool.
From Stdlib Require Import Uint63 Floats.
From stdpp Require Import base list.

Local Open Scope Z_scope.

(** ** Errors and the error monad of the throwing functions *)

Inductive error : Set :=
| InvalidParameter   (* [throw new Error(...)] of a generator *)
| TypeError          (* property access on [undefined] *)
| RangeError.        (* a typed array of negative length *)

Inductive result (A : Type) : Type :=
| Ok (a : A)
| Err (e : error).
Arguments Ok {A} a.
Arguments Err {A} e.

Definition rbind {A B} (r : result A) (k : A -> result B) : result B :=
  match r with
  | Ok a => k a
  | Err e => Err e
  end.

Notation "'do' x <- r ; k" := (rbind r (fun x => k))
  (at level 10, x name, r at level 100, k at level 200).

(** A [for] loop whose body may throw, over the values of a list. *)
Fixpoint foldM {A S} (body : A -> S -> result S) (l : list A) (s : S) : result S :=
  match l with
  | [] => Ok s
  | a :: l' => do s' <- body a s; foldM body l' s'
  end.

(** [for (let i = lo; i < hi; i++) body]. *)
Definition for_range {S} (lo hi : Z) (body : Z -> S -> result S) (s : S) : result S :=
  foldM body (seqZ lo (hi - lo)) s.

(** ** JavaScript numbers, the rational reading

    A double is a rational or [NaN]; the operations propagate [NaN] and
    every comparison with [NaN] is false. *)

Inductive num : Type :=
| Fin (q : Q)
| NaN.

Definition Qltb (a b : Q) : bool := negb (Qle_bool b a).

Definition nlift2 (f : Q -> Q -> Q) (a b : num) : num :=
  match a, b with
  | Fin x, Fin y => Fin (f x y)
  | _, _ => NaN
  end.

Definition nadd : num -> num -> num := nlift2 Qplus.
Definition nsub : num -> num -> num := nlift2 Qminus.
Definition nmul : num -> num -> num := nlift2 Qmult.
(** [a / b]; the code divides by [0xFFFFFFFF], by [2] and by
    [1 + Math.exp(..)] only, never by zero. *)
Definition ndiv : num -> num -> num := nlift2 Qdiv.
Definition nneg (a : num) : num :=
  match a with Fin x => Fin (- x) | NaN => NaN end.
(** [Math.max(a, b)] *)
Definition nmax : num -> num -> num :=
  nlift2 (fun x y => if Qle_bool x y then y else x).

(** [a < b], [a <= b], [a > b] *)
Definition nlt (a b : num) : bool :=
  match a, b with Fin x, Fin y => Qltb x y | _, _ => false end.
Definition nle (a b : num) : bool :=
  match a, b with Fin x, Fin y => Qle_bool x y | _, _ => false end.
Definition ngt (a b : num) : bool := nlt b a.

(** Equality of numbers up to the representation of a rational. *)
Definition num_eq (a b : num) : Prop :=
  match a, b with
  | Fin x, Fin y => (x == y)%Q
  | NaN, NaN => True
  | _, _ => False
  end.

(** ** Binary64 numbers

    The doubles of the machine, for the statements about computed values:
    conversions between them and the integers, written with the
    specification [SpecFloat] of the format. *)

Module F64.

(** The double of an integer: the nearest binary64 value, ties to even,
    an infinity beyond the range of the format. *)
Definition of_Z (z : Z) : float :=
  SF2Prim (binary_normalize prec emax z 0 false).

(** [Math.floor(x)] read as an array index: the greatest integer not above
    [x], or [None] when [x] is [NaN] or an infinity, which index nothing. *)
Definition Math_floor (x : float) : option Z :=
  match Prim2SF x with
  | S754_zero _ => Some 0
  | S754_finite s m e => Some (Z.shiftl (if s then Z.neg m else Z.pos m) e)
  | S754_infinity _ | S754_nan => None
  end.

(** [x >>> 0], ToUint32 of a double: [NaN], the zeros and the infinities
    give 0, any other value is truncated and reduced modulo 2^32. *)
Definition toUint32 (x : float) : Z :=
  match Prim2SF x with
  | S754_finite s m e =>
      let t := Z.shiftl (Z.pos m) e in
      (if s then - t else t) mod 2 ^ 32
  | S754_zero _ | S754_infinity _ | S754_nan => 0
  end.

(** [Math.max(a, b)]: [NaN] if either is, and [+0] above [-0]. *)
Definition Math_max (a b : float) : float :=
  if is_nan a || is_nan b then nan
  else if PrimFloat.ltb a b then b
  else if PrimFloat.ltb b a then a
  else if get_sign a then b else a.

(** The representation of an integer as a double, for the integers below
    2^53 in magnitude, which need no rounding: the mantissa is the integer
    shifted up to 53 binary digits, the exponent undoes the shift.
    ([shl m k] is [m] doubled [k] times, [dig p] the number of binary digits
    of [p].) *)
Definition shl (m : positive) (k : Z) : positive :=
  match k with
  | Zpos k => Pos.iter xO m k
  | _ => m
  end.

Definition dig (p : positive) : Z := Zpos (digits2_pos p).

Definition mant (p : positive) : positive := shl p (53 - dig p).

Definition canon (z : Z) : spec_float :=
  match z with
  | Z0 => S754_zero false
  | Zpos p => S754_finite false (mant p) (dig p - 53)
  | Zneg p => S754_finite true (mant p) (dig p - 53)
  end.

End F64.

(** ** rng.js: xorshift32 *)

Module RNG.

(** [x >>> 0]: ToUint32. *)
Definition u32 (x : Z) : Z := x mod 2 ^ 32.

(** ToInt32, the coercion applied to the operands and result of [^] and [<<]. *)
Definition int32 (x : Z) : Z := (x + 2 ^ 31) mod 2 ^ 32 - 2 ^ 31.

(** [a << n] *)
Definition shl (a n : Z) : Z := int32 (Z.shiftl (int32 a) n).

(** [a >>> n] *)
Definition ushr (a n : Z) : Z := Z.shiftr (u32 a) n.

(** [a ^ b] *)
Definition xor (a b : Z) : Z := Z.lxor (int32 a) (int32 b).

(** [constructor(seed = 1) { this.state = (seed >>> 0) || 1; }] *)
Definition constructor (seed : Z) : Z :=
  let s := u32 seed in if s =? 0 then 1 else s.

(** [nextU32()]: the value returned and the new state (the same number). *)
Definition nextU32 (state : Z) : Z * Z :=
  let x := state in
  let x := u32 (xor x (shl x 13)) in
  let x := u32 (xor x (ushr x 17)) in
  let x := u32 (xor x (shl x 5)) in
  let state' := u32 x in
  (state', state').

(** [random() { return this.nextU32() / 0xFFFFFFFF; }] *)
Definition random (state : Z) : Q * Z :=
  let '(x, state') := nextU32 state in
  (inject_Z x / inject_Z 4294967295, state')%Q.

(** [int(maxExclusive) { return Math.floor(this.random() * maxExclusive); }]
    All callers pass an integer (a node count or an array length). *)
Definition int (maxExclusive : Z) (state : Z) : Z * Z :=
  let '(r, state') := random state in
  (Qfloor (r * inject_Z maxExclusive), state').

(** The state after [n] draws. *)
Fixpoint advance (n : nat) (state : Z) : Z :=
  match n with
  | O => state
  | S n' => snd (nextU32 (advance n' state))
  end.

(** [random()] and [random() * maxExclusive] in binary64 arithmetic, for
    evaluating single draws as the machine does. *)
Definition random64 (state : Z) : float :=
  PrimFloat.div (PrimFloat.of_uint63 (Uint63.of_Z (fst (nextU32 state))))
                (PrimFloat.of_uint63 4294967295%uint63).

Definition scaled64 (maxExclusive : Z) (state : Z) : float :=
  PrimFloat.mul (random64 state) (PrimFloat.of_uint63 (Uint63.of_Z maxExclusive)).

(** The constructor on a seed that is a double: [seed >>> 0] is ToUint32
    of the double. *)
Definition constructor64 (seed : float) : Z :=
  let s := F64.toUint32 seed in if s =? 0 then 1 else s.

(** The [n]-th output (from 0) of the stream started in [state]. *)
Definition output (state : Z) (n : nat) : Z :=
  fst (nextU32 (advance n state)).

(** One round [x ^= x << k; x >>>= 0] and one round [x ^= x >>> k; x >>>= 0]
    of [nextU32], named for the proofs. *)
Definition roundL (k x : Z) : Z := u32 (xor x (shl x k)).
Definition roundR (k x : Z) : Z := u32 (xor x (ushr x k)).

(** The states a generator can be in: the constructor never yields zero. *)
Definition valid (state : Z) : Prop := 1 <= state < 2 ^ 32.

End RNG.

(** ** graph.js: adjacency lists and the four generators *)

(** [a[i]] on a JavaScript array: [undefined] outside [0, length). *)
Definition js_get {A} (a : list A) (i : Z) : option A :=
  if i <? 0 then None else a !! Z.to_nat i.

(** [arr.includes(v)] on an array of numbers. *)
Definition includes (arr : list Z) (v : Z) : bool := bool_decide (v ∈ arr).

Record Graph : Type := mkGraph { N : Z; adj : list (list Z) }.

Module Graph.

(** [constructor(N)]: [Array.from({ length: N }, () => [])]; a negative
    length yields the empty array. *)
Definition constructor (n : Z) : Graph :=
  {| N := n; adj := replicate (Z.to_nat n) [] |}.

(** [adj[u].push(v)], run once [adj[u]] is known to be the array [au]. *)
Definition push (a : list (list Z)) (u : Z) (au : list Z) (v : Z) : list (list Z) :=
  <[Z.to_nat u := au ++ [v]]> a.

(** [addEdge(u, v)].  [this.adj[u].includes] throws when [adj[u]] is
    [undefined]; so does [this.adj[v].includes], after [v] was pushed. *)
Definition addEdge (g : Graph) (u v : Z) : result Graph :=
  if u =? v then Ok g
  else
    match js_get (adj g) u with
    | None => Err TypeError
    | Some au =>
        let adj1 := if includes au v then adj g else push (adj g) u au v in
        match js_get adj1 v with
        | None => Err TypeError
        | Some av =>
            let adj2 := if includes av u then adj1 else push adj1 v av u in
            Ok {| N := N g; adj := adj2 |}
        end
    end.

(** [degree(i) { return this.adj[i].length; }] *)
Definition degree (g : Graph) (i : Z) : result Z :=
  match js_get (adj g) i with
  | None => Err TypeError
  | Some ai => Ok (Z.of_nat (length ai))
  end.

(** [edgeCount()]: the sum of the degrees over [0 <= i < N], halved. *)
Definition edgeCount (g : Graph) : result Q :=
  do sum <- for_range 0 (N g)
              (fun i sum => do d <- degree g i; Ok (sum + d)) 0;
  Ok (inject_Z sum / 2)%Q.

End Graph.

(** The JavaScript remainder [a % b] truncates towards zero. *)
Definition js_rem (a b : Z) : Z := Z.rem a b.

(** [makeRing(N, k)].  The generator argument is not used by the code. *)
Definition makeRing (n k : Z) : result Graph :=
  if negb (js_rem k 2 =? 0) then Err InvalidParameter
  else
    for_range 0 n (fun i g =>
      for_range 1 (k / 2 + 1) (fun d g =>
        let j := js_rem (i + d) n in
        let h := js_rem (i - d + n) n in
        do g <- Graph.addEdge g i j;
        Graph.addEdge g i h) g)
      (Graph.constructor n).

(** [Math.round(Math.sqrt(N))] for an integer [N]: [NaN] ([None]) below
    zero; otherwise the integer nearest to the square root, which is the
    floor [s] of the root when [N <= s*s + s] and [s + 1] above that
    (the root of an integer is never half-way between two integers; the
    double agrees with it for every node count an array can have). *)
Definition round_sqrt (n : Z) : option Z :=
  if n <? 0 then None
  else
    let s := Z.sqrt n in
    Some (if n - s * s <=? s then s else s + 1).

(** [const idx = (x, y) => ((y + M) % M) * L + ((x + L) % L)] *)
Definition idx (L M x y : Z) : Z := js_rem (y + M) M * L + js_rem (x + L) L.

(** [makeLattice(N)].  [NN !== N] holds when [L] is [NaN]. *)
Definition makeLattice (n : Z) : result Graph :=
  let g := Graph.constructor n in
  match round_sqrt n with
  | None => Err InvalidParameter
  | Some L =>
      let M := L in
      let NN := L * M in
      if negb (NN =? n) then Err InvalidParameter
      else
        for_range 0 M (fun y g =>
          for_range 0 L (fun x g =>
            let i := idx L M x y in
            do g <- Graph.addEdge g i (idx L M (x + 1) y);
            do g <- Graph.addEdge g i (idx L M (x - 1) y);
            do g <- Graph.addEdge g i (idx L M x (y + 1));
            Graph.addEdge g i (idx L M x (y - 1))) g) g
  end.

(** The edge loop of [makeErdosRenyi]: one draw per pair [i < j]. *)
Definition erdosRenyiEdges (n : Z) (p : num) (g : Graph) (rng : Z) : result (Graph * Z) :=
  for_range 0 n (fun i st =>
    for_range (i + 1) n (fun j '(g, rng) =>
      let '(r, rng) := RNG.random rng in
      if nlt (Fin r) p
      then do g <- Graph.addEdge g i j; Ok (g, rng)
      else Ok (g, rng)) st) (g, rng).

(** The position loops of the random generators: two draws per node. *)
Definition randomPositions (n : Z) (rng : Z) : Z :=
  fold_left (fun rng _ => snd (RNG.random (snd (RNG.random rng)))) (seqZ 0 n) rng.

(** [makeErdosRenyi(N, p, rng)]: the graph and the state the shared
    generator is left in. *)
Definition makeErdosRenyi (n : Z) (p : num) (rng : Z) : result (Graph * Z) :=
  do st <- erdosRenyiEdges n p (Graph.constructor n) rng;
  Ok (fst st, randomPositions n (snd st)).

(** [targets.add(t)] on a [Set], kept in insertion order; [None] is the
    value [undefined]. *)
Definition set_add (t : option Z) (targets : list (option Z)) : list (option Z) :=
  if bool_decide (t ∈ targets) then targets else targets ++ [t].

(** [while (targets.size < m) { const t = pool[rng.int(pool.length)]; targets.add(t); }]
    The loop ends when the generator has produced [m] distinct pool
    entries; [fuel] bounds the number of draws, [None] is fuel exhausted. *)
Fixpoint sampleTargets (fuel : nat) (m : Z) (pool : list Z)
    (targets : list (option Z)) (rng : Z) : option (list (option Z) * Z) :=
  if Z.of_nat (length targets) <? m then
    match fuel with
    | O => None
    | S fuel' =>
        let '(k, rng) := RNG.int (Z.of_nat (length pool)) rng in
        let t := js_get pool k in
        sampleTargets fuel' m pool (set_add t targets) rng
    end
  else Some (targets, rng).

(** [g.addEdge(v, u)] for a member [u] of [targets]; with [u] undefined,
    [u === v] is false and either [this.adj[v].includes] or, after the
    push, [this.adj[undefined].includes] throws. *)
Definition addEdgeTo (v : Z) (u : option Z) (g : Graph) : result Graph :=
  match u with
  | Some u => Graph.addEdge g v u
  | None => Err TypeError
  end.

(** The members of [targets] that are numbers. *)
Definition numbers (targets : list (option Z)) : list Z :=
  omap id targets.

(** One attachment round of [makeBA], for the new node [v]. *)
Definition attach (fuel : nat) (m v : Z) (st : Graph * list Z * Z)
    : option (result (Graph * list Z * Z)) :=
  let '(g, pool, rng) := st in
  match sampleTargets fuel m pool [] rng with
  | None => None
  | Some (targets, rng) =>
      Some (do g <- foldM (addEdgeTo v) targets g;
            do dv <- Graph.degree g v;
            let pool := pool ++ replicate (Z.to_nat dv) v in
            let pool := pool ++ numbers targets in
            Ok (g, pool, rng))
  end.

(** The attachment loop [for (let v = m0; v < N; v++)], over the list of
    new nodes. *)
Fixpoint attachAll (fuel : nat) (m : Z) (vs : list Z) (st : Graph * list Z * Z)
    : option (result (Graph * list Z * Z)) :=
  match vs with
  | [] => Some (Ok st)
  | v :: vs' =>
      match attach fuel m v st with
      | None => None
      | Some (Err e) => Some (Err e)
      | Some (Ok st') => attachAll fuel m vs' st'
      end
  end.

(** [makeBA(N, m0, m, rng)]; [fuel] bounds each sampling loop. *)
Definition makeBA (fuel : nat) (n m0 m : Z) (rng : Z) : option (result (Graph * Z)) :=
  if m0 <? 2 then Some (Err InvalidParameter)
  else if (m <? 1) || (m0 <=? m) then Some (Err InvalidParameter)
  else
    let clique :=
      for_range 0 m0 (fun i g =>
        for_range (i + 1) m0 (fun j g => Graph.addEdge g i j) g)
        (Graph.constructor n) in
    match clique with
    | Err e => Some (Err e)
    | Ok g =>
        let pool :=
          foldM (fun i pool =>
                   do d <- Graph.degree g i;
                   Ok (pool ++ replicate (Z.to_nat d) i))
                (seqZ 0 m0) [] in
        match pool with
        | Err e => Some (Err e)
        | Ok pool =>
            match attachAll fuel m (seqZ m0 (n - m0)) (g, pool, rng) with
            | None => None
            | Some (Err e) => Some (Err e)
            | Some (Ok (g, _, rng)) => Some (Ok (g, randomPositions n rng))
            end
        end
    end.

(** The graph types of the page and the dispatch of [buildGraph] on them. *)
Inductive topology : Type :=
| ring (k : Z)
| lattice
| erdos (p : num)
| ba (m0 m : Z).

Definition generate (fuel : nat) (type : topology) (n : Z) (rng : Z)
    : option (result (Graph * Z)) :=
  match type with
  | ring k => Some (do g <- makeRing n k; Ok (g, rng))
  | lattice => Some (do g <- makeLattice n; Ok (g, rng))
  | erdos p => Some (makeErdosRenyi n p rng)
  | ba m0 m => makeBA fuel n m0 m rng
  end.

(** [buildGraph()]: [rng = new RNG(seed)], then the generator (the layout
    relaxation and the population reset that follow are left out). *)
Definition buildGraph (fuel : nat) (type : topology) (n seed : Z)
    : option (result (Graph * Z)) :=
  generate fuel type n (RNG.constructor seed).

(** ** evo.js: payoffs and the three update rules *)

Module Matrix.
Record t : Type := mk { R : num; S : num; T : num; P : num }.
End Matrix.
Abbreviation Matrix := Matrix.t.

(** [donationToMatrix(b, c)] *)
Definition donationToMatrix (b c : num) : Matrix :=
  {| Matrix.R := nsub b c; Matrix.S := nneg c; Matrix.T := b; Matrix.P := Fin 0 |}.

(** A strategy array is a [Uint8Array]: its elements are integers, a read
    outside it (or at the key [undefined], here [None]) is [undefined], a
    write outside it changes no element, and a stored value is coerced
    ([undefined] and [NaN] to 0, an integer modulo 256).  The array is
    taken without expando properties, as [new Uint8Array(N)] makes it. *)
Definition strat_get (strat : list Z) (i : option Z) : option Z :=
  match i with
  | Some i => js_get strat i
  | None => None
  end.

Definition toUint8 (v : option Z) : Z :=
  match v with
  | Some s => s mod 256
  | None => 0
  end.

Definition strat_set (strat : list Z) (i : option Z) (v : option Z) : list Z :=
  match i with
  | Some i =>
      if (0 <=? i) && (i <? Z.of_nat (length strat))
      then <[Z.to_nat i := toUint8 v]> strat
      else strat
  | None => strat
  end.

(** [s === 1] and [s === 0] on a value read from the array. *)
Definition is1 (s : option Z) : bool :=
  match s with Some 1 => true | _ => false end.
Definition is0 (s : option Z) : bool :=
  match s with Some 0 => true | _ => false end.

(** The inner loop of [computePayoffs]: the sum for a node of strategy [si]
    with neighbor list [nei]. *)
Definition payoffOf (strat : list Z) (M : Matrix) (si : option Z) (nei : list Z) : num :=
  fold_left (fun sum j =>
    let sj := js_get strat j in
    if is1 si && is1 sj then nadd sum (Matrix.R M)
    else if is1 si && is0 sj then nadd sum (Matrix.S M)
    else if is0 si && is1 sj then nadd sum (Matrix.T M)
    else nadd sum (Matrix.P M)) nei (Fin 0).

(** [computePayoffs(g, strat, M)]; [nei.length] throws when [g.adj[i]] is
    [undefined]. *)
Definition computePayoffs (g : Graph) (strat : list Z) (M : Matrix) : result (list num) :=
  for_range 0 (N g) (fun i pay =>
    let si := js_get strat i in
    match js_get (adj g) i with
    | None => Err TypeError
    | Some nei => Ok (pay ++ [payoffOf strat M si nei])
    end) [].

(** [pay[j]] used in arithmetic: [undefined] becomes [NaN]. *)
Definition pay_get (pay : list num) (j : option Z) : num :=
  match j with
  | Some j => match js_get pay j with Some p => p | None => NaN end
  | None => NaN
  end.

(** The second loop of [pickWeightedIndex], from index [i] with the
    remaining weights. *)
Fixpoint scanWeights (weights : list num) (i : Z) (r : num) : option Z :=
  match weights with
  | [] => None
  | w :: ws =>
      let r := nsub r w in
      if nle r (Fin 0) then Some i else scanWeights ws (i + 1) r
  end.

(** [pickWeightedIndex(weights, rng)]: the index and the generator state. *)
Definition pickWeightedIndex (weights : list num) (rng : Z) : Z * Z :=
  let total := fold_left nadd weights (Fin 0) in
  if nle total (Fin 0) then RNG.int (Z.of_nat (length weights)) rng
  else
    let '(r0, rng) := RNG.random rng in
    let r := nmul (Fin r0) total in
    match scanWeights weights 0 r with
    | Some i => (i, rng)
    | None => (Z.of_nat (length weights) - 1, rng)
    end.

(** [Math.max(0, (1 - w) + w * p)] *)
Definition fitness (w p : num) : num :=
  nmax (Fin 0) (nadd (nsub (Fin 1) w) (nmul w p)).

(** [1 - childStrat] *)
Definition flip (s : option Z) : option Z :=
  match s with
  | Some s => Some (1 - s)
  | None => None
  end.

(** [if (mu > 0 && rng.random() < mu) childStrat = 1 - childStrat;]
    The draw is made only when [mu > 0]. *)
Definition mutate (mu : num) (childStrat : option Z) (rng : Z) : option Z * Z :=
  if ngt mu (Fin 0) then
    let '(r, rng) := RNG.random rng in
    if nlt (Fin r) mu then (flip childStrat, rng) else (childStrat, rng)
  else (childStrat, rng).

(** How a call ended, and what it left behind: the strategy array, the
    generator state, and the keys of the array it assigned to. *)
Inductive completion : Set :=
| Returned (value : Z)
| Thrown (e : error).

Record outcome : Type := mkOutcome {
  strat_after : list Z;
  rng_after : Z;
  assigned : list (option Z);
  how : completion
}.

Definition returned (strat : list Z) (rng : Z) (keys : list (option Z)) : outcome :=
  {| strat_after := strat; rng_after := rng; assigned := keys; how := Returned 1 |}.

Definition threw (e : error) (strat : list Z) (rng : Z) : outcome :=
  {| strat_after := strat; rng_after := rng; assigned := []; how := Thrown e |}.

(** [stepDB(g, strat, M, w, mu, rng)] *)
Definition stepDB (g : Graph) (strat : list Z) (M : Matrix) (w mu : num) (rng : Z)
    : outcome :=
  match computePayoffs g strat M with
  | Err e => threw e strat rng
  | Ok pay =>
      let '(dead, rng) := RNG.int (N g) rng in
      match js_get (adj g) dead with
      | None => threw TypeError strat rng
      | Some neigh =>
          if Z.of_nat (length neigh) =? 0 then returned strat rng []
          else
            let fit := map (fun j => fitness w (pay_get pay (Some j))) neigh in
            let '(winnerIdx, rng) := pickWeightedIndex fit rng in
            let parent := js_get neigh winnerIdx in
            let childStrat := strat_get strat parent in
            let '(childStrat, rng) := mutate mu childStrat rng in
            returned (strat_set strat (Some dead) childStrat) rng [Some dead]
      end
  end.

(** [stepBD(g, strat, M, w, mu, rng)] *)
Definition stepBD (g : Graph) (strat : list Z) (M : Matrix) (w mu : num) (rng : Z)
    : outcome :=
  match computePayoffs g strat M with
  | Err e => threw e strat rng
  | Ok pay =>
      let fitAll := map (fun i => fitness w (pay_get pay (Some i))) (seqZ 0 (N g)) in
      let '(parent, rng) := pickWeightedIndex fitAll rng in
      match js_get (adj g) parent with
      | None => threw TypeError strat rng
      | Some neigh =>
          if Z.of_nat (length neigh) =? 0 then returned strat rng []
          else
            let '(k, rng) := RNG.int (Z.of_nat (length neigh)) rng in
            let dead := js_get neigh k in
            let childStrat := strat_get strat (Some parent) in
            let '(childStrat, rng) := mutate mu childStrat rng in
            returned (strat_set strat dead childStrat) rng [dead]
      end
  end.

Section Fermi.

(** [Math.exp], which the rationals do not have: a parameter of the
    imitation rule. *)
Variable Math_exp : num -> num.

(** [1 / (1 + Math.exp(-beta * (pj - pi)))] *)
Definition fermi (beta pi pj : num) : num :=
  ndiv (Fin 1) (nadd (Fin 1) (Math_exp (nmul (nneg beta) (nsub pj pi)))).

(** [stepImitationFermi(g, strat, M, beta, mu, rng)] *)
Definition stepImitationFermi (g : Graph) (strat : list Z) (M : Matrix)
    (beta mu : num) (rng : Z) : outcome :=
  match computePayoffs g strat M with
  | Err e => threw e strat rng
  | Ok pay =>
      let '(i, rng) := RNG.int (N g) rng in
      match js_get (adj g) i with
      | None => threw TypeError strat rng
      | Some neigh =>
          if Z.of_nat (length neigh) =? 0 then returned strat rng []
          else
            let '(k, rng) := RNG.int (Z.of_nat (length neigh)) rng in
            let j := js_get neigh k in
            let pi := pay_get pay (Some i) in
            let pj := pay_get pay j in
            let pAdopt := fermi beta pi pj in
            let '(r, rng) := RNG.random rng in
            if nlt (Fin r) pAdopt then
              let s := strat_get strat j in
              let '(s, rng) := mutate mu s rng in
              returned (strat_set strat (Some i) s) rng [Some i]
            else returned strat rng []
      end
  end.

End Fermi.

(** [countCooperators(strat)] *)
Definition countCooperators (strat : list Z) : Z :=
  fold_left (fun c s => c + (if s =? 1 then 1 else 0)) strat 0.

(** [isFixated(strat)]: every entry from index 1 on equals [strat[0]]. *)
Definition isFixated (strat : list Z) : bool :=
  let first := js_get strat 0 in
  forallb (fun i => bool_decide (js_get strat i = first))
          (seqZ 1 (Z.of_nat (length strat) - 1)).

(** The seed of trial [tr] in [runFixation]: [baseSeed + 1000 + tr], the
    two additions made on doubles, from left to right. *)
Definition trialSeed (baseSeed tr : Z) : float :=
  (F64.of_Z baseSeed + 1000 + F64.of_Z tr)%float.

(** The generator of trial [tr]: [new RNG(baseSeed + 1000 + tr)]. *)
Definition trialRng (baseSeed tr : Z) : Z :=
  RNG.constructor64 (trialSeed baseSeed tr).


(** ** The fixation experiment of the page script *)

(** The update rule selected on the page: ["DB"], ["BD"], anything else. *)
Inductive rule : Set := DB | BD | IM.

Inductive trial_outcome : Set := AllCooperate | AllDefect | Timeout.

Section Fixation.
Variable Math_exp : num -> num.
Variables (g : Graph) (M : Matrix) (which : rule) (intensity : num).

(** One tick of a trial; [mu] is 0 in the experiment. *)
Definition tick (s : list Z) (rng : Z) : outcome :=
  match which with
  | DB => stepDB g s M intensity (Fin 0) rng
  | BD => stepBD g s M intensity (Fin 0) rng
  | IM => stepImitationFermi Math_exp g s M intensity (Fin 0) rng
  end.

(** [while (steps < maxSteps && !isFixated(s)) { ...; steps++; }], with
    [left] the steps left; a rule that throws ends the experiment. *)
Fixpoint runSteps (left : nat) (s : list Z) (rng : Z) : result (list Z) :=
  match left with
  | O => Ok s
  | S left' =>
      if isFixated s then Ok s
      else
        let o := tick s rng in
        match how o with
        | Thrown e => Err e
        | Returned _ => runSteps left' (strat_after o) (rng_after o)
        end
  end.

(** The body of the trial loop for trial [tr]. *)
Definition runTrial (baseSeed maxSteps tr : Z) : result trial_outcome :=
  let trRng := trialRng baseSeed tr in
  let c_in_d := js_rem tr 2 =? 0 in
  let fill := if c_in_d then 0 else 1 in
  let s := replicate (Z.to_nat (N g)) fill in
  let '(i, trRng) := RNG.int (N g) trRng in
  let s := strat_set s (Some i) (Some (1 - fill)) in
  do s <- runSteps (Z.to_nat maxSteps) s trRng;
  Ok (if negb (isFixated s) then Timeout
      else if is1 (js_get s 0) then AllCooperate else AllDefect).

(** [runFixation()]: the counters [fixC], [fixD] and [timeout]. *)
Definition runFixation (trials maxSteps baseSeed : Z) : result (Z * Z * Z) :=
  for_range 0 trials (fun tr '(fixC, fixD, timeout) =>
    do o <- runTrial baseSeed maxSteps tr;
    Ok (match o with
        | AllCooperate => (fixC + 1, fixD, timeout)
        | AllDefect => (fixC, fixD + 1, timeout)
        | Timeout => (fixC, fixD, timeout + 1)
        end)) (0, 0, 0).

End Fixation.

(** ** Predicates the properties are stated with *)

(** [j] is listed in [adj[i]]. *)
Definition neighbor (g : Graph) (i j : Z) : Prop :=
  exists ai, js_get (adj g) i = Some ai /\ j ∈ ai.

Definition symmetric (g : Graph) : Prop :=
  forall i j, neighbor g i j <-> neighbor g j i.

Definition no_self_loops (g : Graph) : Prop :=
  forall i, ~ neighbor g i i.

Definition no_duplicates (g : Graph) : Prop :=
  forall i ai, js_get (adj g) i = Some ai -> NoDup ai.

Definition simple_graph (g : Graph) : Prop :=
  symmetric g /\ no_self_loops g /\ no_duplicates g.

(** A graph as the constructor shapes it: [N] lists, one per node. *)
Definition shaped (n : Z) (g : Graph) : Prop :=
  N g = n /\ length (adj g) = Z.to_nat n.

(** [if (!l.includes(x)) l.push(x)] *)
Definition add_new (l : list Z) (x : Z) : list Z :=
  if includes l x then l else l ++ [x].

(** [addEdge] on a pair, and on a list of pairs in order. *)
Definition addE (e : Z * Z) (g : Graph) : result Graph :=
  Graph.addEdge g (fst e) (snd e).

Definition addEdges (es : list (Z * Z)) (g : Graph) : result Graph :=
  foldM addE es g.

(** The graph holds exactly the pairs of [es], in both directions and
    without the loops, each once. *)
Definition holds_edges (n : Z) (es : list (Z * Z)) (g : Graph) : Prop :=
  shaped n g /\ no_duplicates g /\
  forall i j, neighbor g i j <-> i <> j /\ ((i, j) ∈ es \/ (j, i) ∈ es).

Definition perfect_square (n : Z) : Prop := exists L, 0 <= L /\ n = L * L.

(** The pairs [makeRing] and [makeLattice] pass to [addEdge], in order. *)
Definition ringEdges (n k : Z) : list (Z * Z) :=
  seqZ 0 (n - 0) ≫= (fun i =>
  seqZ 1 (k / 2 + 1 - 1) ≫= (fun d =>
  [(i, js_rem (i + d) n); (i, js_rem (i - d + n) n)])).

Definition latticeEdges (L : Z) : list (Z * Z) :=
  seqZ 0 (L - 0) ≫= (fun y =>
  seqZ 0 (L - 0) ≫= (fun x =>
  let i := idx L L x y in
  [(i, idx L L (x + 1) y); (i, idx L L (x - 1) y);
   (i, idx L L x (y + 1)); (i, idx L L x (y - 1))])).

(** The neighbors of node [i] in the ring and in the lattice of side [L],
    as the generators compute them. *)
Definition ringNeighbors (n k i : Z) : list Z :=
  seqZ 1 (k / 2) ≫= (fun d => [js_rem (i + d) n; js_rem (i - d + n) n]).

Definition latticeNeighbors (L i : Z) : list Z :=
  let x := i mod L in
  let y := i / L in
  [idx L L (x + 1) y; idx L L (x - 1) y; idx L L x (y + 1); idx L L x (y - 1)].

(** Periodic wrap-around of a coordinate one step outside [0, L). *)
Definition wrap (L a : Z) : Z :=
  if a <? 0 then a + L else if a <? L then a else a - L.

(** A graph the update rules are run on: shaped, with every listed
    neighbor a node. *)
Definition well_formed (g : Graph) : Prop :=
  shaped (N g) g /\
  forall i ai j, js_get (adj g) i = Some ai -> j ∈ ai -> 0 <= j < N g.

(** A strategy array for [g]: one entry per node, each 0 or 1. *)
Definition strategies_for (g : Graph) (strat : list Z) : Prop :=
  Z.of_nat (length strat) = N g /\ forall s, s ∈ strat -> s = 0 \/ s = 1.

(** At most one key was assigned, and every element at another index is
    as before the call. *)
Definition frame (strat : list Z) (o : outcome) : Prop :=
  (length (assigned o) <= 1)%nat /\
  length (strat_after o) = length strat /\
  forall k, Some k ∉ assigned o -> js_get (strat_after o) k = js_get strat k.

(** The call was a no-op: it returned, assigning nothing. *)
Definition no_op (strat : list Z) (o : outcome) : Prop :=
  strat_after o = strat /\ assigned o = [] /\ how o = Returned 1.

(** The node [stepDB] and [stepImitationFermi] select first, in the
    rational reading. *)
Definition selectedDB (g : Graph) (rng : Z) : Z := fst (RNG.int (N g) rng).

(** Two nodes joined by an edge: the graph [makeRing(2, 2)] returns. *)
Definition pairGraph : Graph := {| N := 2; adj := [[1]; [0]] |}.

(** Two isolated nodes: the graph [makeErdosRenyi(2, 0)] returns. *)
Definition isolatedPair : Graph := {| N := 2; adj := [[]; []] |}.

(** The number of draws of the edge loop of [makeErdosRenyi] over the
    rows [l]: row [i] has the candidates [i < j < n]. *)
Definition candidates (n : Z) (l : list Z) : nat :=
  foldr (fun i acc => (Z.to_nat (n - (i + 1)) + acc)%nat) 0%nat l.

(** The call returned, and every key it assigned is a node of the graph. *)
Definition in_bounds (g : Graph) (o : outcome) : Prop :=
  how o = Returned 1 /\
  forall key, key ∈ assigned o -> exists d, key = Some d /\ 0 <= d < N g.

(** The candidate pairs of [makeErdosRenyi], in the order of the loop. *)
Definition candidatePairs (n : Z) : list (Z * Z) :=
  seqZ 0 (n - 0) ≫= (fun i => seqZ (i + 1) (n - (i + 1)) ≫= (fun j => [(i, j)])).

(** All nodes but [i]. *)
Definition others (n i : Z) : list Z := seqZ 0 i ++ seqZ (i + 1) (n - (i + 1)).

(** ** The remaining functions of the same modules *)

(** [choice(arr) { return arr[this.int(arr.length)]; }] of rng.js: the
    element read and the new state. *)
Definition choice {A} (arr : list A) (state : Z) : option A * Z :=
  let '(k, state') := RNG.int (Z.of_nat (length arr)) state in
  (js_get arr k, state').

(** [avgDegree()] of graph.js: the sum of the degrees over [0 <= i < N],
    divided by [N]; with [N = 0] the quotient [0 / 0] is [NaN]. *)
Definition avgDegree (g : Graph) : result num :=
  do sum <- for_range 0 (N g)
              (fun i sum => do d <- Graph.degree g i; Ok (sum + d)) 0;
  Ok (if N g =? 0 then NaN else Fin (inject_Z sum / inject_Z (N g))).

(** The clique loop and the pool loop that open [makeBA], by themselves. *)
Definition seedClique (n m0 : Z) : result Graph :=
  for_range 0 m0 (fun i g =>
    for_range (i + 1) m0 (fun j g => Graph.addEdge g i j) g)
    (Graph.constructor n).

Definition seedPool (g : Graph) (m0 : Z) : result (list Z) :=
  foldM (fun i pool =>
           do d <- Graph.degree g i;
           Ok (pool ++ replicate (Z.to_nat d) i))
        (seqZ 0 m0) [].

(** [resetPopulation()] of the page script:
    [strat = new Uint8Array(g.N)], which throws a [RangeError] ([None]) for
    a negative length, then one draw per node.  The result is the new
    array and the state of the shared generator. *)
Definition resetPopulation (g : Graph) (initC : num) (rng : Z) : option (list Z * Z) :=
  if N g <? 0 then None
  else
    Some (fold_left (fun '(strat, rng) i =>
                       let '(r, rng) := RNG.random rng in
                       (strat_set strat (Some i)
                          (Some (if nlt (Fin r) initC then 1 else 0)), rng))
                    (seqZ 0 (N g)) (replicate (Z.to_nat (N g)) 0, rng)).

Section StepMany.
Variable Math_exp : num -> num.
Variables (g : Graph) (M : Matrix) (which : rule) (intensity mu : num).

(** The dispatch on the update rule in [stepMany]. *)
Definition update (s : list Z) (rng : Z) : outcome :=
  match which with
  | DB => stepDB g s M intensity mu rng
  | BD => stepBD g s M intensity mu rng
  | IM => stepImitationFermi Math_exp g s M intensity mu rng
  end.

(** [for (let s = 0; s < steps; s++) { <rule>; t += 1; }]: the array, the
    generator and the tick counter; a rule that throws ends the loop. *)
Fixpoint stepLoop (steps : nat) (s : list Z) (rng t : Z) : result (list Z * Z * Z) :=
  match steps with
  | O => Ok (s, rng, t)
  | S steps' =>
      let o := update s rng in
      match how o with
      | Thrown e => Err e
      | Returned _ => stepLoop steps' (strat_after o) (rng_after o) (t + 1)
      end
  end.

(** [stepMany(steps)]: the loop, then
    [frac = countCooperators(strat) / strat.length] ([NaN] for the empty
    array).  The chart series and the redraw are left out. *)
Definition stepMany (steps : Z) (s : list Z) (rng t : Z)
    : result (list Z * Z * Z * num) :=
  do st <- stepLoop (Z.to_nat steps) s rng t;
  let '(s, rng, t) := st in
  let c := countCooperators s in
  let len := Z.of_nat (length s) in
  Ok (s, rng, t, if len =? 0 then NaN else Fin (inject_Z c / inject_Z len)).

End StepMany.

(** ** Further predicates *)

(** Every entry is 0 or 1. *)
Definition binary (strat : list Z) : Prop := forall s, s ∈ strat -> s = 0 \/ s = 1.

(** The edges of a graph, each once: the pairs [i < j] with [j] listed in
    [adj[i]] (the pairs the page draws a line for). *)
Definition edges (g : Graph) : list (Z * Z) :=
  mjoin (imap (fun i ai => (fun j => (Z.of_nat i, j)) <$> filter (fun j => Z.of_nat i < j) ai)
              (adj g)).

(** The sum of the lengths of the adjacency lists. *)
Definition degreeSum (a : list (list Z)) : nat := sum_list (length <$> a).

(** The number of entries of row [i] that are above [i], summed over the rows. *)
Definition upperSum (a : list (list Z)) : nat :=
  sum_list (imap (fun i ai => length (filter (fun j => Z.of_nat i < j) ai)) a).

(** The number of times [i] occurs in [pool]. *)
Definition occurrences (i : Z) (pool : list Z) : nat :=
  length (filter (fun x => x = i) pool).

(** The invariant of [addEdge]: the graph is simple and every edge is
    counted twice in the degree sum. *)
Definition counted (g : Graph) : Prop :=
  simple_graph g /\ degreeSum (adj g) = (2 * upperSum (adj g))%nat.

(** The state of [makeBA] before the round of the new node [v]: the nodes
    from [v] on are untouched, every older node has [m] neighbors or more
    and occurs in the pool once per neighbor, and the degree sum counts
    the clique and [m] edges for each node attached so far. *)
Definition ba_state (n m0 m v : Z) (g : Graph) (pool : list Z) : Prop :=
  shaped n g /\ simple_graph g /\
  (forall i, v <= i < n -> js_get (adj g) i = Some []) /\
  (forall i, 0 <= i < v ->
     exists ai, js_get (adj g) i = Some ai /\ m <= Z.of_nat (length ai)) /\
  (forall i, occurrences i pool = length (default [] (js_get (adj g) i))) /\
  (forall t, t ∈ pool -> 0 <= t < v) /\
  Z.of_nat (degreeSum (adj g)) = m0 * (m0 - 1) + 2 * m * (v - m0).

(** A sampled target: [undefined], or a member of the pool. *)
Definition from_pool (pool : list Z) (t : option Z) : Prop :=
  t = None \/ exists x, t = Some x /\ x ∈ pool.

(** A value a rule may write: [undefined], an entry of the array, or an
    entry flipped by a mutation. *)
Definition copied (strat : list Z) (v : option Z) : Prop :=
  v = None \/ exists s, s ∈ strat /\ (v = Some s \/ v = Some (1 - s)).

(** What a call of a rule may do to the array: the length is kept, an
    array of zeros and ones stays one, and the number of cooperators moves
    by one at most. *)
Definition one_flip (strat : list Z) (o : outcome) : Prop :=
  length (strat_after o) = length strat /\
  (binary strat -> binary (strat_after o)) /\
  -1 <= countCooperators (strat_after o) - countCooperators strat <= 1.

(** The array and the generator a trial of [runFixation] starts from:
    the resident strategy everywhere, then one mutant at a drawn index. *)
Definition trialStart (g : Graph) (baseSeed tr : Z) : list Z * Z :=
  let trRng := trialRng baseSeed tr in
  let fill := if js_rem tr 2 =? 0 then 0 else 1 in
  let s := replicate (Z.to_nat (N g)) fill in
  let '(i, trRng) := RNG.int (N g) trRng in
  (strat_set s (Some i) (Some (1 - fill)), trRng).

(** The strategy [resetPopulation] gives node [k] in the rational reading:
    the draw number [k] of the stream, divided by [0xFFFFFFFF], compared
    with [initC]. *)
Definition initialStrategy (initC : num) (rng : Z) (k : nat) : Z :=
  if nlt (Fin (inject_Z (RNG.output rng k) / inject_Z 4294967295)) initC then 1 else 0.

(** The generator went from [rng] to [rng'] by [most] draws or fewer. *)
Definition advanced (rng rng' : Z) (most : nat) : Prop :=
  exists k, (k <= most)%nat /\ rng' = RNG.advance k rng.

(** Draw number [k] of the stream from [rng], divided by [0xFFFFFFFF], is
    below [p]: the test of the edge loop of [makeErdosRenyi]. *)
Definition accepted (p : num) (rng : Z) (k : nat) : bool :=
  nlt (Fin (inject_Z (RNG.output rng k) / inject_Z 4294967295)) p.

(** The position in the stream of the draw for the pair [i < j]: the
    draws of the rows before [i], then those of row [i] before [j]. *)
Definition pairIndex (n i j : Z) : nat :=
  (candidates n (seqZ 0 i) + Z.to_nat (j - i - 1))%nat.

(** The pairs of row [i] over the candidates [l], and of the rows [rows],
    that the draws accept, in the order of the loop. *)
Fixpoint rowSel (p : num) (i : Z) (l : list Z) (rng : Z) : list (Z * Z) :=
  match l with
  | [] => []
  | j :: l' =>
      (if accepted p rng 0 then [(i, j)] else [])
      ++ rowSel p i l' (snd (RNG.nextU32 rng))
  end.

Fixpoint allSel (p : num) (n : Z) (rows : list Z) (rng : Z) : list (Z * Z) :=
  match rows with
  | [] => []
  | i :: rows' =>
      rowSel p i (seqZ (i + 1) (n - (i + 1))) rng
      ++ allSel p n rows' (RNG.advance (Z.to_nat (n - (i + 1))) rng)
  end.
(** ** evo.js in binary64

    The payoffs, the weighted pick and the three update rules with every
    number a double and every operation the machine's: the sums are
    accumulated from the left as the loops do, a draw is the rounded
    quotient [nextU32() / 0xFFFFFFFF], and [int] floors the rounded
    product.  An index that is a double is an integer or, for [NaN] and
    the infinities, [None]. *)

Module Binary64.

Module Matrix.
Record t : Type := mk { R : float; S : float; T : float; P : float }.
End Matrix.

(** [donationToMatrix(b, c)] *)
Definition donationToMatrix (b c : float) : Matrix.t :=
  {| Matrix.R := (b - c)%float; Matrix.S := (- c)%float;
     Matrix.T := b; Matrix.P := 0%float |}.

(** [a[i]] for an index computed as a double. *)
Definition at_index {A} (a : list A) (i : option Z) : option A :=
  match i with
  | Some i => js_get a i
  | None => None
  end.

(** [random() { return this.nextU32() / 0xFFFFFFFF; }] *)
Definition random (state : Z) : float * Z :=
  let '(x, state') := RNG.nextU32 state in
  ((F64.of_Z x / F64.of_Z 4294967295)%float, state').

(** [int(maxExclusive) { return Math.floor(this.random() * maxExclusive); }] *)
Definition int (maxExclusive : Z) (state : Z) : option Z * Z :=
  let '(r, state') := random state in
  (F64.Math_floor (r * F64.of_Z maxExclusive)%float, state').

(** The inner loop of [computePayoffs]: [sum] starts at 0 and takes one
    addition per neighbor, in the order of the list. *)
Definition payoffOf (strat : list Z) (M : Matrix.t) (si : option Z) (nei : list Z)
    : float :=
  fold_left (fun sum j =>
    let sj := js_get strat j in
    if is1 si && is1 sj then (sum + Matrix.R M)%float
    else if is1 si && is0 sj then (sum + Matrix.S M)%float
    else if is0 si && is1 sj then (sum + Matrix.T M)%float
    else (sum + Matrix.P M)%float) nei 0%float.

(** [computePayoffs(g, strat, M)]; [new Float64Array(N)] throws for a
    negative [N], and [nei.length] when [g.adj[i]] is [undefined]. *)
Definition computePayoffs (g : Graph) (strat : list Z) (M : Matrix.t)
    : result (list float) :=
  if N g <? 0 then Err RangeError
  else
    for_range 0 (N g) (fun i pay =>
      let si := js_get strat i in
      match js_get (adj g) i with
      | None => Err TypeError
      | Some nei => Ok (pay ++ [payoffOf strat M si nei])
      end) [].

(** [pay[j]] used in arithmetic: [undefined] becomes [NaN]. *)
Definition pay_get (pay : list float) (j : option Z) : float :=
  match at_index pay j with
  | Some p => p
  | None => nan
  end.

(** The second loop of [pickWeightedIndex], from index [i] with the
    remaining weights. *)
Fixpoint scanWeights (weights : list float) (i : Z) (r : float) : option Z :=
  match weights with
  | [] => None
  | w :: ws =>
      let r := (r - w)%float in
      if (r <=? 0)%float then Some i else scanWeights ws (i + 1) r
  end.

(** [pickWeightedIndex(weights, rng)]: the index and the generator state. *)
Definition pickWeightedIndex (weights : list float) (rng : Z) : option Z * Z :=
  let total := fold_left PrimFloat.add weights 0%float in
  if (total <=? 0)%float then int (Z.of_nat (length weights)) rng
  else
    let '(r0, rng) := random rng in
    let r := (r0 * total)%float in
    match scanWeights weights 0 r with
    | Some i => (Some i, rng)
    | None => (Some (Z.of_nat (length weights) - 1), rng)
    end.

(** [Math.max(0, (1 - w) + w * p)] *)
Definition fitness (w p : float) : float :=
  F64.Math_max 0 ((1 - w) + w * p)%float.

(** [if (mu > 0 && rng.random() < mu) childStrat = 1 - childStrat;] *)
Definition mutate (mu : float) (childStrat : option Z) (rng : Z) : option Z * Z :=
  if (0 <? mu)%float then
    let '(r, rng) := random rng in
    if (r <? mu)%float then (flip childStrat, rng) else (childStrat, rng)
  else (childStrat, rng).

(** [stepDB(g, strat, M, w, mu, rng)] *)
Definition stepDB (g : Graph) (strat : list Z) (M : Matrix.t) (w mu : float) (rng : Z)
    : outcome :=
  match computePayoffs g strat M with
  | Err e => threw e strat rng
  | Ok pay =>
      let '(dead, rng) := int (N g) rng in
      match at_index (adj g) dead with
      | None => threw TypeError strat rng
      | Some neigh =>
          if Z.of_nat (length neigh) =? 0 then returned strat rng []
          else
            let fit := map (fun j => fitness w (pay_get pay (Some j))) neigh in
            let '(winnerIdx, rng) := pickWeightedIndex fit rng in
            let parent := at_index neigh winnerIdx in
            let childStrat := strat_get strat parent in
            let '(childStrat, rng) := mutate mu childStrat rng in
            returned (strat_set strat dead childStrat) rng [dead]
      end
  end.

(** The array [fitAll] of [stepBD]: the fitness of every node. *)
Definition fitAll (g : Graph) (pay : list float) (w : float) : list float :=
  map (fun i => fitness w (pay_get pay (Some i))) (seqZ 0 (N g)).

(** [stepBD(g, strat, M, w, mu, rng)] *)
Definition stepBD (g : Graph) (strat : list Z) (M : Matrix.t) (w mu : float) (rng : Z)
    : outcome :=
  match computePayoffs g strat M with
  | Err e => threw e strat rng
  | Ok pay =>
      let '(parent, rng) := pickWeightedIndex (fitAll g pay w) rng in
      match at_index (adj g) parent with
      | None => threw TypeError strat rng
      | Some neigh =>
          if Z.of_nat (length neigh) =? 0 then returned strat rng []
          else
            let '(k, rng) := int (Z.of_nat (length neigh)) rng in
            let dead := at_index neigh k in
            let childStrat := strat_get strat parent in
            let '(childStrat, rng) := mutate mu childStrat rng in
            returned (strat_set strat dead childStrat) rng [dead]
      end
  end.

Section Fermi.

(** [Math.exp], which the language leaves to the implementation: a
    parameter of the imitation rule. *)
Variable Math_exp : float -> float.

(** [1 / (1 + Math.exp(-beta * (pj - pi)))] *)
Definition fermi (beta pi pj : float) : float :=
  (1 / (1 + Math_exp (- beta * (pj - pi))))%float.

(** [stepImitationFermi(g, strat, M, beta, mu, rng)] *)
Definition stepImitationFermi (g : Graph) (strat : list Z) (M : Matrix.t)
    (beta mu : float) (rng : Z) : outcome :=
  match computePayoffs g strat M with
  | Err e => threw e strat rng
  | Ok pay =>
      let '(i, rng) := int (N g) rng in
      match at_index (adj g) i with
      | None => threw TypeError strat rng
      | Some neigh =>
          if Z.of_nat (length neigh) =? 0 then returned strat rng []
          else
            let '(k, rng) := int (Z.of_nat (length neigh)) rng in
            let j := at_index neigh k in
            let pi := pay_get pay i in
            let pj := pay_get pay j in
            let pAdopt := fermi beta pi pj in
            let '(r, rng) := random rng in
            if (r <? pAdopt)%float then
              let s := strat_get strat j in
              let '(s, rng) := mutate mu s rng in
              returned (strat_set strat i s) rng [i]
            else returned strat rng []
      end
  end.

End Fermi.

(** What the language fixes of [Math.exp]: it is 1 at both zeros. *)
Definition exp_at_zero (Math_exp : float -> float) : Prop :=
  Math_exp 0%float = 1%float /\ Math_exp (-0)%float = 1%float.

(** *** The payoff as the specification words it *)

Inductive strategy : Set := Cooperate | Defect.

(** 1 = cooperator, 0 = defector. *)
Definition strategy_of (s : Z) : strategy :=
  if s =? 1 then Cooperate else Defect.

(** (C,C) -> R, (C,D) -> S, (D,C) -> T, (D,D) -> P. *)
Definition matrix_entry (M : Matrix.t) (a b : strategy) : float :=
  match a, b with
  | Cooperate, Cooperate => Matrix.R M
  | Cooperate, Defect => Matrix.S M
  | Defect, Cooperate => Matrix.T M
  | Defect, Defect => Matrix.P M
  end.

(** The entries selected for node [i] by the pairs of strategies, one per
    neighbor, in the order of the neighbor list. *)
Definition payoff_terms (strat : list Z) (M : Matrix.t) (i : Z) (nei : list Z)
    : list float :=
  map (fun j => matrix_entry M (strategy_of (default 0 (js_get strat i)))
                               (strategy_of (default 0 (js_get strat j)))) nei.

(** Their sum in binary64, added to 0 one after the other. *)
Definition payoff_sum (strat : list Z) (M : Matrix.t) (i : Z) (nei : list Z) : float :=
  fold_left PrimFloat.add (payoff_terms strat M i nei) 0%float.

(** A matrix whose entries are integers, and the sum the specification
    words on the integers themselves: the selected entries, added exactly. *)
Definition integerMatrix (r s t p : Z) : Matrix.t :=
  {| Matrix.R := F64.of_Z r; Matrix.S := F64.of_Z s;
     Matrix.T := F64.of_Z t; Matrix.P := F64.of_Z p |}.

Definition integer_entry (r s t p : Z) (a b : strategy) : Z :=
  match a, b with
  | Cooperate, Cooperate => r
  | Cooperate, Defect => s
  | Defect, Cooperate => t
  | Defect, Defect => p
  end.

Definition integer_terms (strat : list Z) (r s t p : Z) (i : Z) (nei : list Z) : list Z :=
  map (fun j => integer_entry r s t p (strategy_of (default 0 (js_get strat i)))
                                      (strategy_of (default 0 (js_get strat j)))) nei.

Definition integer_sum (strat : list Z) (r s t p : Z) (i : Z) (nei : list Z) : Z :=
  foldr Z.add 0 (integer_terms strat r s t p i nei).

(** The star of the counterexample to an exact sum: node 0 joined to the
    nodes 1, 2 and 3, listed in two orders. *)
Definition star123 : Graph := {| N := 4; adj := [[1; 2; 3]; [0]; [0]; [0]] |}.
Definition star231 : Graph := {| N := 4; adj := [[2; 3; 1]; [0]; [0]; [0]] |}.

End Binary64.

(** * Properties *)

(** ** The generator: bits of one xorshift round *)

Module RNGFacts.
Import RNG.

Example nextU32_seed1 : nextU32 (constructor 1) = (270369, 270369).
Proof. vm_compute. reflexivity. Qed.

Lemma u32_range x : 0 <= u32 x < 2 ^ 32.
Proof. unfold u32. apply Z.mod_pos_bound. lia. Qed.

Lemma u32_small x : 0 <= x < 2 ^ 32 -> u32 x = x.
Proof. intros H. unfold u32. apply Z.mod_small; exact H. Qed.

Lemma u32_int32 x : u32 (int32 x) = u32 x.
Proof.
  unfold u32, int32.
  rewrite Zminus_mod, Zmod_mod, <- Zminus_mod.
  f_equal. lia.
Qed.

Lemma testbit_u32 x i : 0 <= i < 32 -> Z.testbit (u32 x) i = Z.testbit x i.
Proof. intros H. unfold u32. apply Z.mod_pow2_bits_low. lia. Qed.

Lemma testbit_u32_high x i : 32 <= i -> Z.testbit (u32 x) i = false.
Proof. intros H. unfold u32. apply Z.mod_pow2_bits_high. lia. Qed.

Lemma testbit_int32 x i : 0 <= i < 32 -> Z.testbit (int32 x) i = Z.testbit x i.
Proof.
  intros H. rewrite <- (testbit_u32 (int32 x)) by exact H.
  rewrite u32_int32. apply testbit_u32; exact H.
Qed.

Lemma testbit_range_high x i : 0 <= x < 2 ^ 32 -> 32 <= i -> Z.testbit x i = false.
Proof.
  intros Hx Hi. rewrite <- (u32_small x Hx). apply testbit_u32_high; exact Hi.
Qed.

Lemma nextU32_rounds s :
  nextU32 s = (roundL 5 (roundR 17 (roundL 13 s)), roundL 5 (roundR 17 (roundL 13 s))).
Proof.
  unfold nextU32, roundL, roundR.
  rewrite (u32_small (u32 _)) by apply u32_range. reflexivity.
Qed.

Lemma testbit_roundL k x i :
  0 <= k -> 0 <= i < 32 ->
  Z.testbit (roundL k x) i =
  xorb (Z.testbit x i) (if i <? k then false else Z.testbit x (i - k)).
Proof.
  intros Hk Hi. unfold roundL, xor, shl.
  rewrite testbit_u32, Z.lxor_spec, !testbit_int32 by lia.
  f_equal. rewrite Z.shiftl_spec by lia.
  destruct (Z.ltb_spec i k) as [Hlt|Hge].
  - apply Z.testbit_neg_r. lia.
  - apply testbit_int32. lia.
Qed.

Lemma testbit_roundR k x i :
  0 <= k -> 0 <= i < 32 ->
  Z.testbit (roundR k x) i =
  xorb (Z.testbit x i) (if i + k <? 32 then Z.testbit x (i + k) else false).
Proof.
  intros Hk Hi. unfold roundR, xor, ushr.
  rewrite testbit_u32, Z.lxor_spec, !testbit_int32 by lia.
  f_equal. rewrite Z.shiftr_spec by lia.
  destruct (Z.ltb_spec (i + k) 32) as [Hlt|Hge].
  - apply testbit_u32. lia.
  - apply testbit_u32_high. lia.
Qed.

(** Each round is one-to-one on the 32-bit values: the low [k] bits (the
    high [k] bits, for a right shift) are copied, and each further bit is
    the exclusive or of the input bit with a bit already determined. *)
Lemma roundL_inj k x y :
  0 < k -> 0 <= x < 2 ^ 32 -> 0 <= y < 2 ^ 32 ->
  roundL k x = roundL k y -> x = y.
Proof.
  intros Hk Hx Hy Heq.
  assert (Hbits : forall n : nat, forall i, 0 <= i < Z.of_nat n ->
            Z.testbit x i = Z.testbit y i).
  { induction n as [|n IH]; intros i Hi; [lia|].
    destruct (Z.le_gt_cases 32 i) as [Hhigh|Hlow].
    - rewrite !testbit_range_high by (assumption || lia). reflexivity.
    - assert (Hb : Z.testbit (roundL k x) i = Z.testbit (roundL k y) i)
        by (rewrite Heq; reflexivity).
      rewrite !testbit_roundL in Hb by lia.
      destruct (Z.ltb_spec i k) as [Hlt|Hge].
      + rewrite !xorb_false_r in Hb. exact Hb.
      + rewrite (IH (i - k)) in Hb by lia.
        apply xorb_move_l_r_2 in Hb. rewrite Hb.
        rewrite xorb_assoc, xorb_nilpotent, xorb_false_r. reflexivity. }
  apply Z.bits_inj'. intros i Hi.
  apply (Hbits (Z.to_nat (i + 1))). lia.
Qed.

Lemma roundR_inj k x y :
  0 < k -> 0 <= x < 2 ^ 32 -> 0 <= y < 2 ^ 32 ->
  roundR k x = roundR k y -> x = y.
Proof.
  intros Hk Hx Hy Heq.
  assert (Hbits : forall n : nat, forall i, 0 <= i -> 32 - Z.of_nat n <= i ->
            Z.testbit x i = Z.testbit y i).
  { induction n as [|n IH]; intros i Hi0 Hi.
    - rewrite !testbit_range_high by (assumption || lia). reflexivity.
    - destruct (Z.le_gt_cases 32 i) as [Hhigh|Hlow].
      + rewrite !testbit_range_high by (assumption || lia). reflexivity.
      + assert (Hb : Z.testbit (roundR k x) i = Z.testbit (roundR k y) i)
          by (rewrite Heq; reflexivity).
        rewrite !testbit_roundR in Hb by lia.
        destruct (Z.ltb_spec (i + k) 32) as [Hlt|Hge].
        * rewrite (IH (i + k)) in Hb by lia.
          apply xorb_move_l_r_2 in Hb. rewrite Hb.
          rewrite xorb_assoc, xorb_nilpotent, xorb_false_r. reflexivity.
        * rewrite !xorb_false_r in Hb. exact Hb. }
  apply Z.bits_inj'. intros i Hi.
  apply (Hbits 32%nat); lia.
Qed.

Lemma u32_eq x : u32 x = x mod 2 ^ 32.
Proof. reflexivity. Qed.

#[local] Opaque u32 int32 xor shl ushr.

Lemma roundL_range k x : 0 <= roundL k x < 2 ^ 32.
Proof. unfold roundL. apply u32_range. Qed.

Lemma roundR_range k x : 0 <= roundR k x < 2 ^ 32.
Proof. unfold roundR. apply u32_range. Qed.

(** [nextU32] is one-to-one on 32-bit states. *)
Lemma nextU32_inj s t :
  0 <= s < 2 ^ 32 -> 0 <= t < 2 ^ 32 ->
  fst (nextU32 s) = fst (nextU32 t) -> s = t.
Proof.
  intros Hs Ht. rewrite !nextU32_rounds. cbn [fst snd]. intros H.
  apply roundL_inj in H; try lia; try apply roundR_range.
  apply roundR_inj in H; try lia; try apply roundL_range.
  apply roundL_inj in H; try lia; assumption.
Qed.

Lemma nextU32_state s : snd (nextU32 s) = fst (nextU32 s).
Proof. rewrite nextU32_rounds. cbn [fst snd]. reflexivity. Qed.

Lemma nextU32_range s : 0 <= fst (nextU32 s) < 2 ^ 32.
Proof. rewrite nextU32_rounds. cbn [fst]. apply roundL_range. Qed.

(** The state never becomes zero, so no output is zero. *)
Lemma nextU32_valid s : valid s -> valid (fst (nextU32 s)).
Proof.
  intros Hs. pose proof (nextU32_range s) as Hr.
  assert (fst (nextU32 s) <> 0).
  { intros H0. assert (s = 0); [|unfold valid in Hs; lia].
    apply nextU32_inj; [unfold valid in Hs; lia | lia |].
    rewrite H0. vm_compute. reflexivity. }
  unfold valid. lia.
Qed.

Lemma constructor_valid seed : valid (constructor seed).
Proof.
  unfold constructor, valid. pose proof (u32_range seed).
  destruct (Z.eqb_spec (u32 seed) 0); lia.
Qed.

Lemma advance_S n s : advance (S n) s = snd (nextU32 (advance n s)).
Proof. reflexivity. Qed.

Lemma advance_valid n s : valid s -> valid (advance n s).
Proof.
  intros Hs. induction n as [|n IH]; [exact Hs|].
  rewrite advance_S, nextU32_state. apply nextU32_valid, IH.
Qed.


Lemma advance_range n s : 0 <= s < 2 ^ 32 -> 0 <= advance n s < 2 ^ 32.
Proof.
  intros Hs. destruct n as [|n]; [exact Hs|].
  rewrite advance_S, nextU32_state. apply nextU32_range.
Qed.

(** Two different states stay different, so the two streams differ at
    every position. *)
Lemma advance_inj n s t :
  0 <= s < 2 ^ 32 -> 0 <= t < 2 ^ 32 -> advance n s = advance n t -> s = t.
Proof.
  intros Hs Ht. induction n as [|n IH]; [trivial|].
  rewrite !advance_S, !nextU32_state. intros H.
  apply nextU32_inj in H; [|apply advance_range; exact Hs|apply advance_range; exact Ht].
  exact (IH H).
Qed.

Lemma output_eq s n : output s n = fst (nextU32 (advance n s)).
Proof. unfold output. reflexivity. Qed.

Lemma output_inj n s t :
  0 <= s < 2 ^ 32 -> 0 <= t < 2 ^ 32 -> output s n = output t n -> s = t.
Proof.
  intros Hs Ht H. rewrite !output_eq in H.
  apply (advance_inj n s t Hs Ht).
  apply (nextU32_inj (advance n s) (advance n t)
           (advance_range n s Hs) (advance_range n t Ht)).
  exact H.
Qed.

Lemma constructor_range seed : 0 <= constructor seed < 2 ^ 32.
Proof. pose proof (constructor_valid seed) as H. unfold valid in H. lia. Qed.

(** Which seeds start the same stream: those equal modulo 2^32, and the
    seeds 0 and 1 (modulo 2^32), which [|| 1] sends to the same state. *)
Lemma constructor_eq_iff a b :
  constructor a = constructor b <->
  a mod 2 ^ 32 = b mod 2 ^ 32 \/ (a mod 2 ^ 32 <= 1 /\ b mod 2 ^ 32 <= 1).
Proof.
  unfold constructor. rewrite !u32_eq.
  pose proof (Z.mod_pos_bound a (2 ^ 32) ltac:(lia)).
  pose proof (Z.mod_pos_bound b (2 ^ 32) ltac:(lia)).
  destruct (Z.eqb_spec (a mod 2 ^ 32) 0), (Z.eqb_spec (b mod 2 ^ 32) 0); lia.
Qed.

(** [random()] and [int(b)] in terms of the 32-bit output. *)
Lemma random_eq s :
  random s = ((inject_Z (fst (nextU32 s)) / inject_Z 4294967295)%Q, fst (nextU32 s)).
Proof. unfold random. rewrite nextU32_rounds. cbv beta iota zeta delta [fst]. reflexivity. Qed.

Lemma int_eq b s :
  int b s = (fst (nextU32 s) * b / 4294967295, fst (nextU32 s)).
Proof.
  unfold int. rewrite random_eq. f_equal.
  unfold Qfloor, Qdiv, Qmult, Qinv, inject_Z. cbn.
  rewrite ?Pos.mul_1_l, ?Pos.mul_1_r, ?Z.mul_1_r. reflexivity.
Qed.

Lemma int_state b s : snd (int b s) = fst (nextU32 s).
Proof. rewrite int_eq. unfold snd. reflexivity. Qed.

Lemma random_state s : snd (random s) = fst (nextU32 s).
Proof. rewrite random_eq. unfold snd. reflexivity. Qed.

(** What does hold of every draw: [random()] lies in (0, 1] and [int(b)]
    in [0, b]. *)
Lemma random_range s :
  valid s -> (0 < fst (random s) <= 1)%Q.
Proof.
  intros Hs. rewrite random_eq. cbn [fst].
  pose proof (nextU32_valid s Hs) as Hv. unfold valid in Hv.
  set (x := fst (nextU32 s)) in *. clearbody x.
  unfold Qlt, Qle, Qdiv, Qmult, Qinv, inject_Z. cbn.
  rewrite ?Pos.mul_1_l, ?Z.mul_1_r. lia.
Qed.

Lemma int_range b s :
  valid s -> 0 <= b -> 0 <= fst (int b s) <= b.
Proof.
  intros Hs Hb. rewrite int_eq. cbn [fst].
  pose proof (nextU32_valid s Hs) as Hv. unfold valid in Hv.
  set (x := fst (nextU32 s)) in *. clearbody x.
  split.
  - apply Z.div_pos; nia.
  - apply Z.div_le_upper_bound; nia.
Qed.

(** [int(b)] stays below [b] exactly when the draw is not [0xFFFFFFFF]. *)
Lemma int_lt_iff b s :
  valid s -> 0 < b ->
  (fst (int b s) < b <-> fst (nextU32 s) <> 4294967295).
Proof.
  intros Hs Hb. rewrite int_eq. cbn [fst].
  pose proof (nextU32_valid s Hs) as Hv. unfold valid in Hv.
  set (x := fst (nextU32 s)) in *. clearbody x.
  split.
  - intros Hlt Hx. rewrite Hx in Hlt.
    rewrite Z.mul_comm, Z.div_mul in Hlt; lia.
  - intros Hx. apply Z.div_lt_upper_bound; nia.
Qed.

End RNGFacts.

(** ** The draws of the concrete runs, in binary64

    The runs evaluated below are decided by a few draws; on each of them
    binary64 arithmetic gives what the rational model gives. *)

(** State 1584200935: [random()] is exactly 1.0 and [random() * 7] is 7.0. *)
Lemma binary64_draw_one :
  RNG.random64 1584200935 = 1%float /\ RNG.scaled64 7 1584200935 = 7%float /\
  RNG.scaled64 2 1584200935 = 2%float /\ RNG.scaled64 1 1584200935 = 1%float.
Proof. repeat split; vm_compute; reflexivity. Qed.

(** State 3764646662: [random() * 2] lies in [0, 1), so [int(2)] is 0. *)
Lemma binary64_draw_dead :
  PrimFloat.leb 0 (RNG.scaled64 2 3764646662) = true /\
  PrimFloat.ltb (RNG.scaled64 2 3764646662) 1 = true.
Proof. split; vm_compute; reflexivity. Qed.

(** Seed 1: [int(2)] is 0, then [int(1)] is 0, then [random()] is at
    least 0.5. *)
Lemma binary64_draws_seed_1 :
  PrimFloat.ltb (RNG.scaled64 2 1) 1 = true /\
  PrimFloat.ltb (RNG.scaled64 1 270369) 1 = true /\
  PrimFloat.leb 0.5 (RNG.random64 67634689) = true.
Proof. repeat split; vm_compute; reflexivity. Qed.

(** ** C1: the range of [random()] and [int(b)] *)

(** C1 (defect of the code): the state 1584200935, which the constructor
    yields for the seed 1584200935, makes [nextU32] return [0xFFFFFFFF];
    [random()] then returns exactly 1 and [int(b)] returns [b], outside the
    half-open ranges the claim states. *)
Theorem C1_random_reaches_one :
  RNG.constructor 1584200935 = 1584200935 /\
  fst (RNG.nextU32 1584200935) = 4294967295 /\
  (fst (RNG.random 1584200935) == 1)%Q /\
  forall b : Z, fst (RNG.int b 1584200935) = b.
Proof.
  split; [vm_compute; reflexivity|].
  split; [vm_compute; reflexivity|].
  split; [vm_compute; reflexivity|].
  intros b. rewrite RNGFacts.int_eq. cbn [fst].
  replace (fst (RNG.nextU32 1584200935)) with 4294967295 by (vm_compute; reflexivity).
  rewrite Z.mul_comm. apply Z.div_mul. lia.
Qed.

(** ** C5: the generators of the fixation trials *)

(** Two seeds start the generator in the same state exactly when they are
    equal modulo 2^32, or are both 0 or 1 modulo 2^32. *)
Theorem seeds_same_state_iff (a b : Z) :
  RNG.constructor a = RNG.constructor b <->
  a mod 2 ^ 32 = b mod 2 ^ 32 \/ (a mod 2 ^ 32 <= 1 /\ b mod 2 ^ 32 <= 1).
Proof. apply RNGFacts.constructor_eq_iff. Qed.

(** *** Binary64 addition of integers below 2^53

    The sum of two doubles that are integers is the double of their sum
    when the three are below 2^53 in magnitude: no rounding takes place.
    The proof follows the specification [SpecFloat] of the operations:
    the mantissas are aligned, added, and normalized to 53 digits by
    shifts that lose no bit. *)

Module Exact.
Import F64.

Lemma iter_xO_Z m k : Zpos (Pos.iter xO m k) = Zpos m * 2 ^ Zpos k.
Proof.
  induction k as [|k IH] using Pos.peano_ind.
  - reflexivity || (simpl; lia).
  - rewrite Pos.iter_succ. change (Zpos (Pos.iter xO m k)~0) with (2 * Zpos (Pos.iter xO m k)).
    rewrite IH, Pos2Z.inj_succ, Z.pow_succ_r by lia. lia.
Qed.

Lemma shl_Z m k : 0 <= k -> Zpos (shl m k) = Zpos m * 2 ^ k.
Proof.
  destruct k as [|k|k]; intros Hk; [simpl; lia | apply iter_xO_Z | lia].
Qed.

Lemma digits_iter_xO m k :
  Zpos (digits2_pos (Pos.iter xO m k)) = Zpos (digits2_pos m) + Zpos k.
Proof.
  induction k as [|k IH] using Pos.peano_ind.
  - simpl. lia.
  - rewrite Pos.iter_succ. cbn [digits2_pos]. rewrite Pos2Z.inj_succ, IH. lia.
Qed.

Lemma digits_shl m k :
  0 <= k -> Zpos (digits2_pos (shl m k)) = Zpos (digits2_pos m) + k.
Proof.
  destruct k as [|k|k]; intros Hk; [simpl; lia | apply digits_iter_xO | lia].
Qed.

Lemma digits_bound p :
  2 ^ (Zpos (digits2_pos p) - 1) <= Zpos p < 2 ^ Zpos (digits2_pos p).
Proof.
  induction p as [p IH|p IH|]; cbn [digits2_pos].
  - rewrite Pos2Z.inj_succ. change (Zpos p~1) with (2 * Zpos p + 1).
    replace (Z.succ (Zpos (digits2_pos p)) - 1) with (Z.succ (Zpos (digits2_pos p) - 1)) by lia.
    rewrite !Z.pow_succ_r by lia.
    set (X := 2 ^ (Zpos (digits2_pos p) - 1)) in *.
    set (Y := 2 ^ Zpos (digits2_pos p)) in *. clearbody X Y. lia.
  - rewrite Pos2Z.inj_succ. change (Zpos p~0) with (2 * Zpos p).
    replace (Z.succ (Zpos (digits2_pos p)) - 1) with (Z.succ (Zpos (digits2_pos p) - 1)) by lia.
    rewrite !Z.pow_succ_r by lia.
    set (X := 2 ^ (Zpos (digits2_pos p) - 1)) in *.
    set (Y := 2 ^ Zpos (digits2_pos p)) in *. clearbody X Y. lia.
  - vm_compute. split; [discriminate|reflexivity].
Qed.

Lemma digits_le p n : 0 <= n -> Zpos p < 2 ^ n -> Zpos (digits2_pos p) <= n.
Proof.
  intros Hn Hp. pose proof (digits_bound p) as [Hlo _].
  destruct (Z.le_gt_cases (Zpos (digits2_pos p)) n) as [H|H]; [exact H|].
  assert (2 ^ n <= 2 ^ (Zpos (digits2_pos p) - 1)) by (apply Z.pow_le_mono_r; lia).
  lia.
Qed.

(** The shifts of the rounding: [n] halvings undo [n] doublings, with no
    bit lost. *)
Lemma iter_pos_iter {A} (f : A -> A) p : forall x, SpecFloat.iter_pos f p x = Pos.iter f x p.
Proof.
  induction p as [p IH|p IH|]; intros x; cbn [SpecFloat.iter_pos Pos.iter].
  - rewrite !IH, !Pos.iter_swap. reflexivity.
  - rewrite !IH. reflexivity.
  - reflexivity.
Qed.

Lemma shr_exact n : forall q,
  SpecFloat.iter_pos shr_1 n {| shr_m := Zpos (Pos.iter xO q n); shr_r := false; shr_s := false |}
  = {| shr_m := Zpos q; shr_r := false; shr_s := false |}.
Proof.
  intros q. rewrite iter_pos_iter. revert q.
  induction n as [|n IH] using Pos.peano_ind; intros q.
  - reflexivity.
  - rewrite Pos.iter_succ_r. rewrite Pos.iter_succ. cbn [shr_1 orb]. apply IH.
Qed.


(** *** Rounding a number that needs none *)

Lemma fexp_eq x : -1074 <= x - 53 -> fexp prec emax x = x - 53.
Proof. unfold fexp, SpecFloat.emin, prec, emax. lia. Qed.

(** A mantissa of 53 digits is kept. *)
Lemma aux_exact s m e :
  Zpos (digits2_pos m) = 53 -> -1074 <= e <= 971 ->
  binary_round_aux prec emax s (Zpos m) e loc_Exact = S754_finite s m e.
Proof.
  intros Hd He. unfold binary_round_aux, shr_fexp. cbn [Zdigits2 shr_record_of_loc].
  rewrite fexp_eq by lia. rewrite Hd.
  replace (53 + e - 53 - e) with 0 by lia. cbn [shr shr_m loc_of_shr_record round_nearest_even].
  cbn [Zdigits2 shr_record_of_loc]. rewrite fexp_eq by lia. rewrite Hd.
  replace (53 + e - 53 - e) with 0 by lia. cbn [shr shr_m].
  unfold prec, emax. destruct (Z.leb_spec e (1024 - 53)); [reflexivity|lia].
Qed.

(** Fewer than 53 digits: the mantissa is shifted up. *)
Lemma round_up s m e :
  let t := Zpos (digits2_pos m) + e - 53 in
  -1074 <= t <= 971 -> t <= e ->
  binary_round prec emax s m e = S754_finite s (shl m (e - t)) t.
Proof.
  intros t Ht Hte. unfold binary_round. rewrite fexp_eq by (fold t; lia). fold t.
  unfold shl_align. destruct (t - e) as [|d|d] eqn:Hd; [|lia|].
  - replace (e - t) with 0 by lia. cbn [shl]. replace t with e by lia.
    apply aux_exact; [|lia]. subst t. lia.
  - replace (e - t) with (Zpos d) by lia. cbn [shl].
    apply aux_exact; [|lia]. rewrite digits_iter_xO. subst t. lia.
Qed.

(** More digits, the low ones zero: the mantissa is shifted down. *)
Lemma round_down s q n e :
  let m := Pos.iter xO q n in
  Zpos (digits2_pos q) = 53 -> -1074 <= e + Zpos n <= 971 ->
  binary_round prec emax s m e = S754_finite s q (e + Zpos n).
Proof.
  intros m Hq Ht. assert (Hm : Zpos (digits2_pos m) = 53 + Zpos n)
    by (unfold m; rewrite digits_iter_xO; lia).
  unfold binary_round. rewrite fexp_eq by lia. rewrite Hm.
  unfold shl_align. replace (53 + Zpos n + e - 53 - e) with (Zpos n) by lia.
  unfold binary_round_aux, shr_fexp. cbn [Zdigits2 shr_record_of_loc].
  rewrite fexp_eq by lia. rewrite Hm.
  replace (53 + Zpos n + e - 53 - e) with (Zpos n) by lia. cbn [shr].
  unfold m. rewrite shr_exact. cbn [shr_m loc_of_shr_record round_nearest_even].
  cbn [Zdigits2 shr_record_of_loc]. rewrite fexp_eq by lia. rewrite Hq.
  replace (53 + (e + Zpos n) - 53 - (e + Zpos n)) with 0 by lia. cbn [shr shr_m].
  unfold prec, emax. destruct (Z.leb_spec (e + Zpos n) (1024 - 53)); [reflexivity|lia].
Qed.


(** *** The double of an integer below 2^53 in magnitude *)

Lemma dig_range p : Zpos p < 2 ^ 53 -> 1 <= dig p <= 53.
Proof.
  intros H. unfold dig. split; [lia|]. apply digits_le; [lia|exact H].
Qed.

Lemma mant_Z p : Zpos p < 2 ^ 53 -> Zpos (mant p) = Zpos p * 2 ^ (53 - dig p).
Proof. intros H. pose proof (dig_range p H). unfold mant. apply shl_Z. lia. Qed.

Lemma mant_digits p : Zpos p < 2 ^ 53 -> Zpos (digits2_pos (mant p)) = 53.
Proof.
  intros H. pose proof (dig_range p H). unfold mant. rewrite digits_shl by lia.
  unfold dig. lia.
Qed.

(** Rounding [p * 2^k * 2^(-k)] gives the double of [p]. *)
Lemma round_scaled s p k :
  Zpos p < 2 ^ 53 -> 0 <= k <= 1000 ->
  binary_round prec emax s (shl p k) (- k) = S754_finite s (mant p) (dig p - 53).
Proof.
  intros Hp Hk. pose proof (dig_range p Hp) as Hd.
  assert (Hdk : Zpos (digits2_pos (shl p k)) = dig p + k)
    by (rewrite digits_shl by lia; reflexivity).
  destruct (Z.le_gt_cases (dig p + k) 53) as [Hle|Hgt].
  - rewrite round_up; rewrite Hdk; [|lia|lia].
    replace (dig p + k + - k - 53) with (dig p - 53) by lia. f_equal.
    assert (E : Zpos (shl (shl p k) (- k - (dig p - 53))) = Zpos (mant p)).
    { rewrite mant_Z by exact Hp. rewrite !shl_Z by lia.
      rewrite <- Z.mul_assoc, <- Z.pow_add_r by lia. f_equal. f_equal. lia. }
    injection E as E. exact E.
  - destruct (dig p + k - 53) as [|n|n] eqn:Hn; [lia| |lia].
    assert (E : Zpos (shl p k) = Zpos (Pos.iter xO (mant p) n)).
    { rewrite iter_xO_Z, mant_Z by exact Hp. rewrite shl_Z by lia.
      rewrite <- Z.mul_assoc, <- Z.pow_add_r by lia. f_equal. f_equal. lia. }
    injection E as E. rewrite E.
    rewrite round_down; [|apply mant_digits; exact Hp|lia].
    f_equal. lia.
Qed.

Lemma normalize_scaled z k :
  Z.abs z < 2 ^ 53 -> 0 <= k <= 1000 ->
  binary_normalize prec emax (z * 2 ^ k) (- k) false = canon z.
Proof.
  intros Hz Hk. destruct z as [|p|p].
  - reflexivity.
  - replace (Zpos p * 2 ^ k) with (Zpos (shl p k)) by (apply shl_Z; lia).
    cbn [binary_normalize canon]. apply round_scaled; [exact Hz|exact Hk].
  - replace (Zneg p * 2 ^ k) with (Zneg (shl p k)).
    2:{ change (Zneg (shl p k)) with (- Zpos (shl p k)). rewrite shl_Z by lia.
        change (Zneg p) with (- Zpos p). lia. }
    cbn [binary_normalize canon]. apply round_scaled; [exact Hz|exact Hk].
Qed.

Lemma normalize_scaled_at z e :
  Z.abs z < 2 ^ 53 -> -1000 <= e <= 0 ->
  binary_normalize prec emax (z * 2 ^ (- e)) e false = canon z.
Proof.
  intros Hz He. rewrite <- (normalize_scaled z (- e) Hz ltac:(lia)).
  f_equal. lia.
Qed.

Lemma normalize_small z :
  Z.abs z < 2 ^ 53 -> binary_normalize prec emax z 0 false = canon z.
Proof.
  intros Hz. rewrite <- (normalize_scaled z 0 Hz ltac:(lia)).
  f_equal. rewrite Z.pow_0_r. lia.
Qed.

Lemma canon_valid z : Z.abs z < 2 ^ 53 -> valid_binary (canon z) = true.
Proof.
  intros Hz. destruct z as [|p|p]; [reflexivity| |];
    cbn [canon SpecFloat.valid_binary]; unfold bounded, canonical_mantissa;
    rewrite mant_digits by exact Hz; pose proof (dig_range p Hz);
    rewrite fexp_eq by lia; apply andb_true_intro; split;
    [apply Z.eqb_eq; lia | apply Z.leb_le; unfold prec, emax; lia |
     apply Z.eqb_eq; lia | apply Z.leb_le; unfold prec, emax; lia].
Qed.

(** *** Adding two of them *)

Lemma align_Z m e ez :
  ez <= e -> Zpos (fst (shl_align m e ez)) = Zpos m * 2 ^ (e - ez).
Proof.
  intros H. unfold shl_align. destruct (ez - e) as [|d|d] eqn:Hd; cbn [fst].
  - replace (e - ez) with 0 by lia. lia.
  - lia.
  - rewrite iter_xO_Z. f_equal. f_equal. lia.
Qed.

Lemma finite_inj s m e s' m' e' :
  S754_finite s m e = S754_finite s' m' e' -> s' = s /\ m' = m /\ e' = e.
Proof. intros H. injection H as -> -> ->. auto. Qed.

(** The aligned, signed mantissa of the double of [z] is [z] scaled. *)
Lemma aligned z s m e ez :
  Z.abs z < 2 ^ 53 -> canon z = S754_finite s m e -> ez <= e ->
  cond_Zopp s (Zpos (fst (shl_align m e ez))) = z * 2 ^ (- ez) /\ -52 <= e <= 0.
Proof.
  intros Hz Hc Hez. rewrite align_Z by exact Hez.
  destruct z as [|p|p]; [discriminate| |]; cbn [canon] in Hc;
    apply finite_inj in Hc as (-> & -> & ->); pose proof (dig_range p Hz);
    rewrite mant_Z by exact Hz; (split; [|lia]); cbn [cond_Zopp].
  - rewrite <- Z.mul_assoc, <- Z.pow_add_r by lia. f_equal. f_equal. lia.
  - change (Zneg p) with (- Zpos p).
    rewrite <- Z.mul_assoc, <- Z.pow_add_r by lia.
    replace (53 - dig p + (dig p - 53 - ez)) with (- ez) by lia. lia.
Qed.

Lemma add_canon a b :
  Z.abs a < 2 ^ 53 -> Z.abs b < 2 ^ 53 -> Z.abs (a + b) < 2 ^ 53 ->
  SF64add (canon a) (canon b) = canon (a + b).
Proof.
  intros Ha Hb Hab. unfold SF64add.
  destruct (canon a) as [sa| | |sa ma ea] eqn:Ca;
    try (destruct a; discriminate).
  - assert (a = 0) by (destruct a; [reflexivity|discriminate..]). subst a.
    rewrite Z.add_0_l.
    destruct (canon b) as [sb| | |sb mb eb] eqn:Cb; try (destruct b; discriminate).
    + assert (b = 0) by (destruct b; [reflexivity|discriminate..]). subst b.
      cbn [canon] in Ca, Cb. injection Ca as <-. injection Cb as <-. reflexivity.
    + cbn [canon] in Ca. injection Ca as <-. reflexivity.
  - destruct (canon b) as [sb| | |sb mb eb] eqn:Cb; try (destruct b; discriminate).
    + assert (b = 0) by (destruct b; [reflexivity|discriminate..]). subst b.
      rewrite Z.add_0_r. cbn [SFadd]. symmetry. exact Ca.
    + cbn [SFadd]. cbv zeta.
      destruct (aligned a sa ma ea (Z.min ea eb) Ha Ca ltac:(lia)) as [-> Hea].
      destruct (aligned b sb mb eb (Z.min ea eb) Hb Cb ltac:(lia)) as [-> Heb].
      rewrite <- Z.mul_add_distr_r.
      apply normalize_scaled_at; [exact Hab|lia].
Qed.

Lemma of_Z_spec z : Z.abs z < 2 ^ 53 -> Prim2SF (F64.of_Z z) = canon z.
Proof.
  intros Hz. unfold F64.of_Z. rewrite normalize_small by exact Hz.
  apply Prim2SF_SF2Prim. apply canon_valid. exact Hz.
Qed.

Lemma add_exact a b :
  Z.abs a < 2 ^ 53 -> Z.abs b < 2 ^ 53 -> Z.abs (a + b) < 2 ^ 53 ->
  (F64.of_Z a + F64.of_Z b)%float = F64.of_Z (a + b).
Proof.
  intros Ha Hb Hab. apply Prim2SF_inj.
  rewrite add_spec, !of_Z_spec by assumption.
  apply add_canon; assumption.
Qed.

Lemma shiftl_mant p :
  Zpos p < 2 ^ 53 -> Z.shiftl (Zpos (mant p)) (dig p - 53) = Zpos p.
Proof.
  intros Hp. pose proof (dig_range p Hp).
  replace (dig p - 53) with (- (53 - dig p)) by lia.
  change (Z.shiftl ?a (- ?n)) with (Z.shiftr a n).
  rewrite Z.shiftr_div_pow2 by lia. rewrite mant_Z by exact Hp.
  apply Z.div_mul. apply Z.pow_nonzero; lia.
Qed.

Lemma toUint32_of_Z z : Z.abs z < 2 ^ 53 -> F64.toUint32 (F64.of_Z z) = z mod 2 ^ 32.
Proof.
  intros Hz. unfold F64.toUint32. rewrite of_Z_spec by exact Hz.
  destruct z as [|p|p]; cbn [canon]; cbv zeta.
  - reflexivity.
  - rewrite shiftl_mant by exact Hz. reflexivity.
  - rewrite shiftl_mant by exact Hz. reflexivity.
Qed.

End Exact.

(** [>>> 0] of a double is a 32-bit value, and the constructor on a double
    is the constructor on that value. *)
Lemma toUint32_range x : 0 <= F64.toUint32 x < 2 ^ 32.
Proof.
  unfold F64.toUint32. destruct (Prim2SF x); try lia.
  apply Z.mod_pos_bound. lia.
Qed.

Lemma constructor64_eq seed :
  RNG.constructor64 seed = RNG.constructor (F64.toUint32 seed).
Proof.
  unfold RNG.constructor64, RNG.constructor, RNG.u32.
  rewrite Z.mod_small by apply toUint32_range. reflexivity.
Qed.

Lemma constructor64_valid seed : RNG.valid (RNG.constructor64 seed).
Proof. rewrite constructor64_eq. apply RNGFacts.constructor_valid. Qed.

(** The seed of a trial when the sum needs no rounding. *)
Lemma trialSeed_exact baseSeed tr :
  Z.abs baseSeed + 1000 + Z.abs tr < 2 ^ 53 ->
  F64.toUint32 (trialSeed baseSeed tr) = (baseSeed + 1000 + tr) mod 2 ^ 32.
Proof.
  intros H. unfold trialSeed.
  replace 1000%float with (F64.of_Z 1000) by (vm_compute; reflexivity).
  rewrite !Exact.add_exact by lia. apply Exact.toUint32_of_Z. lia.
Qed.

(** C5 (counterexample): the seed of a trial is [baseSeed + 1000 + tr]
    added in binary64 and reduced by [>>> 0], and distinct trials can get
    the same generator.  With base seed -1000 the trials 0 and 1 are seeded
    with 0 and 1, which the constructor both turns into the state 1.  With
    base seed 2^53 the sum [baseSeed + 1000] is 2^53 + 1000, where doubles
    are two apart: adding the trial index 1 rounds back to the same number,
    and the trials 0 and 1 both start in the state 1000.  In either case the
    two trials draw the same sequence. *)
Lemma C5_trials_0_and_1_collide :
  0 <> 1 /\
  trialRng (-1000) 0 = 1 /\ trialRng (-1000) 1 = 1 /\
  (forall n, RNG.output (trialRng (-1000) 0) n = RNG.output (trialRng (-1000) 1) n) /\
  trialSeed (2 ^ 53) 0 = trialSeed (2 ^ 53) 1 /\
  trialRng (2 ^ 53) 0 = 1000 /\ trialRng (2 ^ 53) 1 = 1000 /\
  (forall n, RNG.output (trialRng (2 ^ 53) 0) n = RNG.output (trialRng (2 ^ 53) 1) n).
Proof.
  assert (Ha : trialRng (-1000) 0 = 1) by (vm_compute; reflexivity).
  assert (Hb : trialRng (-1000) 1 = 1) by (vm_compute; reflexivity).
  assert (Hc : trialRng (2 ^ 53) 0 = 1000) by (vm_compute; reflexivity).
  assert (Hd : trialRng (2 ^ 53) 1 = 1000) by (vm_compute; reflexivity).
  split; [lia|]. split; [exact Ha|]. split; [exact Hb|].
  split; [intros n; rewrite Ha, Hb; reflexivity|].
  split; [vm_compute; reflexivity|]. split; [exact Hc|]. split; [exact Hd|].
  intros n. rewrite Hc, Hd. reflexivity.
Qed.

(** C5 (amended): the seed of trial [t] is the double [baseSeed + 1000 + t]
    reduced by [>>> 0].  Two trials whose seeds differ, and are not the
    seeds 0 and 1, draw streams that differ at every position; two trials
    whose seeds are equal, or are 0 and 1, draw the same stream.  While
    [|baseSeed| + 1000 + |t|] is below 2^53 the sum is exact and the seed is
    [baseSeed + 1000 + t] modulo 2^32. *)
Theorem C5_trial_streams_differ (baseSeed t1 t2 : Z) :
  (F64.toUint32 (trialSeed baseSeed t1) <> F64.toUint32 (trialSeed baseSeed t2) ->
   ~ (F64.toUint32 (trialSeed baseSeed t1) <= 1 /\
      F64.toUint32 (trialSeed baseSeed t2) <= 1) ->
   forall n, RNG.output (trialRng baseSeed t1) n <> RNG.output (trialRng baseSeed t2) n) /\
  (F64.toUint32 (trialSeed baseSeed t1) = F64.toUint32 (trialSeed baseSeed t2) \/
   (F64.toUint32 (trialSeed baseSeed t1) <= 1 /\
    F64.toUint32 (trialSeed baseSeed t2) <= 1) ->
   forall n, RNG.output (trialRng baseSeed t1) n = RNG.output (trialRng baseSeed t2) n) /\
  (Z.abs baseSeed + 1000 + Z.abs t1 < 2 ^ 53 ->
   F64.toUint32 (trialSeed baseSeed t1) = (baseSeed + 1000 + t1) mod 2 ^ 32) /\
  (Z.abs baseSeed + 1000 + Z.abs t2 < 2 ^ 53 ->
   F64.toUint32 (trialSeed baseSeed t2) = (baseSeed + 1000 + t2) mod 2 ^ 32).
Proof.
  pose proof (toUint32_range (trialSeed baseSeed t1)) as R1.
  pose proof (toUint32_range (trialSeed baseSeed t2)) as R2.
  split; [|split; [|split; apply trialSeed_exact]].
  - intros Hne Hnot n Heq. unfold trialRng in Heq. rewrite !constructor64_eq in Heq.
    apply RNGFacts.output_inj in Heq; try apply RNGFacts.constructor_range.
    apply RNGFacts.constructor_eq_iff in Heq.
    rewrite !Z.mod_small in Heq by assumption. tauto.
  - intros H n. unfold trialRng. rewrite !constructor64_eq.
    replace (RNG.constructor (F64.toUint32 (trialSeed baseSeed t2)))
      with (RNG.constructor (F64.toUint32 (trialSeed baseSeed t1))); [reflexivity|].
    apply RNGFacts.constructor_eq_iff. rewrite !Z.mod_small by assumption. exact H.
Qed.

Lemma C5_trial_streams_differ_witness :
  Z.abs 1 + 1000 + Z.abs 0 < 2 ^ 53 /\
  F64.toUint32 (trialSeed 1 0) = (1 + 1000 + 0) mod 2 ^ 32 /\
  F64.toUint32 (trialSeed 1 1) = 1002 /\
  RNG.output (trialRng 1 0) 3 <> RNG.output (trialRng 1 1) 3.
Proof.
  split; [vm_compute; reflexivity|].
  split; [apply (proj1 (proj2 (proj2 (C5_trial_streams_differ 1 0 1)))); vm_compute;
          reflexivity|].
  split; [vm_compute; reflexivity|].
  apply (proj1 (C5_trial_streams_differ 1 0 1)).
  - vm_compute. discriminate.
  - vm_compute. intros [H _]. apply H. reflexivity.
Defined.

(** Where the two readings of a draw part: from the state 2083243654 the
    draw is 31/51 of [0xFFFFFFFF], and [int(51)] is 31 on the rationals; on
    the machine the quotient is rounded, its product with 51 falls just
    below 31, and [int(51)] is 30. *)
Lemma binary64_int_rounds_down :
  fst (RNG.int 51 2083243654) = 31 /\
  fst (Binary64.int 51 2083243654) = Some 30.
Proof. split; vm_compute; reflexivity. Qed.


(** ** Loops *)

Section FoldM.
Context {A S : Type}.
Implicit Types (body : A -> S -> result S) (l : list A) (s : S).

Lemma rbind_Ok_r (r : result S) : (do x <- r; Ok x) = r.
Proof. destruct r; reflexivity. Qed.

Lemma rbind_inv {B} (r : result S) (k : S -> result B) b :
  (do x <- r; k x) = Ok b -> exists a, r = Ok a /\ k a = Ok b.
Proof. destruct r as [a|e]; simpl; [eauto|discriminate]. Qed.

Lemma foldM_app body l1 l2 s :
  foldM body (l1 ++ l2) s = (do s' <- foldM body l1 s; foldM body l2 s').
Proof.
  revert s. induction l1 as [|a l1 IH]; intros s; simpl; [reflexivity|].
  destruct (body a s) as [s'|e]; simpl; [apply IH|reflexivity].
Qed.

Lemma foldM_ext body1 body2 l s :
  (forall a s, a ∈ l -> body1 a s = body2 a s) ->
  foldM body1 l s = foldM body2 l s.
Proof.
  revert s. induction l as [|a l IH]; intros s H; simpl; [reflexivity|].
  rewrite H by constructor.
  destruct (body2 a s) as [s'|e]; simpl; [|reflexivity].
  apply IH. intros b t Hb. apply H. constructor. exact Hb.
Qed.

(** What every iteration preserves holds when the loop ends normally. *)
Lemma foldM_preserves (I : S -> Prop) body l s s' :
  (forall a t t', I t -> body a t = Ok t' -> I t') ->
  I s -> foldM body l s = Ok s' -> I s'.
Proof.
  intros Hstep. revert s. induction l as [|a l IH]; intros s Hs; simpl.
  - intros [= <-]. exact Hs.
  - intros H. apply rbind_inv in H as (t & Ht & Hrest).
    eapply IH; [|exact Hrest]. eapply Hstep; eassumption.
Qed.

End FoldM.

(** ** Array reads and updates *)

Lemma js_get_Some {A} (a : list A) i x :
  js_get a i = Some x -> 0 <= i < Z.of_nat (length a).
Proof.
  unfold js_get. destruct (Z.ltb_spec i 0) as [Hneg|Hpos]; [discriminate|].
  intros H. apply lookup_lt_Some in H. lia.
Qed.

Lemma js_get_in_range {A} (a : list A) i :
  0 <= i < Z.of_nat (length a) -> exists x, js_get a i = Some x.
Proof.
  intros H. unfold js_get. destruct (Z.ltb_spec i 0); [lia|].
  destruct (lookup_lt_is_Some_2 a (Z.to_nat i)) as [x Hx]; [lia|]. eauto.
Qed.

Lemma js_get_None {A} (a : list A) i :
  js_get a i = None <-> ~ (0 <= i < Z.of_nat (length a)).
Proof.
  split.
  - intros H Hr. apply js_get_in_range in Hr as [x Hx]. congruence.
  - intros H. destruct (js_get a i) eqn:E; [|reflexivity].
    apply js_get_Some in E. contradiction.
Qed.

Lemma js_get_insert_eq {A} (a : list A) u x :
  0 <= u < Z.of_nat (length a) -> js_get (<[Z.to_nat u := x]> a) u = Some x.
Proof.
  intros H. unfold js_get. destruct (Z.ltb_spec u 0); [lia|].
  apply list_lookup_insert_eq. lia.
Qed.

Lemma js_get_insert_ne {A} (a : list A) u i x :
  0 <= u -> i <> u -> js_get (<[Z.to_nat u := x]> a) i = js_get a i.
Proof.
  intros Hu Hne. unfold js_get. destruct (Z.ltb_spec i 0); [reflexivity|].
  apply list_lookup_insert_ne. lia.
Qed.

Lemma js_get_replicate {A} n (x : A) i :
  js_get (replicate n x) i = if (0 <=? i) && (i <? Z.of_nat n) then Some x else None.
Proof.
  unfold js_get.
  destruct (Z.ltb_spec i 0), (Z.leb_spec 0 i); try lia; simpl; [reflexivity|].
  destruct (Z.ltb_spec i (Z.of_nat n)).
  - apply lookup_replicate_2. lia.
  - apply lookup_ge_None. rewrite length_replicate. lia.
Qed.

Lemma includes_true l x : includes l x = true <-> x ∈ l.
Proof. unfold includes. apply bool_decide_eq_true. Qed.

Lemma elem_of_add_new l x y : y ∈ add_new l x <-> y ∈ l \/ y = x.
Proof.
  unfold add_new. destruct (includes l x) eqn:E.
  - apply includes_true in E. split; [auto|]. intros [H| ->]; assumption.
  - rewrite elem_of_app, list_elem_of_singleton. reflexivity.
Qed.

Lemma NoDup_add_new l x : NoDup l -> NoDup (add_new l x).
Proof.
  intros Hl. unfold add_new. destruct (includes l x) eqn:E; [exact Hl|].
  apply NoDup_app. split; [exact Hl|]. split.
  - intros y Hy Hyx. apply list_elem_of_singleton in Hyx as ->.
    apply includes_true in Hy. congruence.
  - apply NoDup_singleton.
Qed.

(** ** [addEdge] *)

Module GraphFacts.
Import Graph.

(** What a call that returns has done to the adjacency lists. *)
Lemma addEdge_Ok g u v g' :
  addEdge g u v = Ok g' ->
  (u = v /\ g' = g) \/
  (u <> v /\ exists au av,
      js_get (adj g) u = Some au /\ js_get (adj g) v = Some av /\
      N g' = N g /\ length (adj g') = length (adj g) /\
      forall i, js_get (adj g') i =
                if decide (i = u) then Some (add_new au v)
                else if decide (i = v) then Some (add_new av u)
                else js_get (adj g) i).
Proof.
  unfold addEdge. destruct (Z.eqb_spec u v) as [->|Hne].
  - intros [= <-]. left. split; reflexivity.
  - destruct (js_get (adj g) u) as [au|] eqn:Hu; [|discriminate].
    pose proof (js_get_Some _ _ _ Hu) as Hur.
    set (adj1 := if includes au v then adj g else push (adj g) u au v).
    assert (Hlen1 : length adj1 = length (adj g)).
    { unfold adj1, push. destruct (includes au v); [reflexivity|apply length_insert]. }
    assert (H1 : forall i, js_get adj1 i =
                   if decide (i = u) then Some (add_new au v) else js_get (adj g) i).
    { intros i. unfold adj1, add_new, push. destruct (decide (i = u)) as [->|Hi].
      - destruct (includes au v); [exact Hu|]. apply js_get_insert_eq. exact Hur.
      - destruct (includes au v); [reflexivity|]. apply js_get_insert_ne; lia. }
    destruct (js_get adj1 v) as [av|] eqn:Hv; [|discriminate].
    pose proof (js_get_Some _ _ _ Hv) as Hvr.
    rewrite H1 in Hv. destruct (decide (v = u)) as [Heq|_]; [congruence|].
    intros [= <-]. right. split; [exact Hne|]. exists au, av.
    split; [reflexivity|]. split; [exact Hv|]. split; [reflexivity|]. simpl.
    split.
    { unfold push. destruct (includes av u); [exact Hlen1|].
      rewrite length_insert. exact Hlen1. }
    intros i. unfold add_new at 2, push.
    destruct (decide (i = u)) as [->|Hiu].
    + destruct (includes av u).
      * rewrite H1. destruct (decide (u = u)); [reflexivity|congruence].
      * rewrite js_get_insert_ne by lia.
        rewrite H1. destruct (decide (u = u)); [reflexivity|congruence].
    + destruct (decide (i = v)) as [->|Hiv].
      * destruct (includes av u).
        -- rewrite H1. destruct (decide (v = u)); [congruence|exact Hv].
        -- apply js_get_insert_eq. lia.
      * destruct (includes av u).
        -- rewrite H1. destruct (decide (i = u)); [congruence|reflexivity].
        -- rewrite js_get_insert_ne by lia.
           rewrite H1. destruct (decide (i = u)); [congruence|reflexivity].
Qed.

(** A call on two nodes of the graph returns. *)
Lemma addEdge_returns g u v :
  0 <= u < Z.of_nat (length (adj g)) -> 0 <= v < Z.of_nat (length (adj g)) ->
  exists g', addEdge g u v = Ok g'.
Proof.
  intros Hu Hv. unfold addEdge. destruct (u =? v); [eauto|].
  destruct (js_get_in_range _ _ Hu) as [au ->].
  set (adj1 := if includes au v then adj g else push (adj g) u au v).
  assert (Hlen1 : length adj1 = length (adj g)).
  { unfold adj1, push. destruct (includes au v); [reflexivity|apply length_insert]. }
  destruct (js_get_in_range adj1 v) as [av ->]; [lia|]. eauto.
Qed.

(** The neighbor relation after a call that returned. *)
Lemma addEdge_neighbor g u v g' :
  addEdge g u v = Ok g' ->
  forall i j, neighbor g' i j <->
              neighbor g i j \/ (u <> v /\ ((i = u /\ j = v) \/ (i = v /\ j = u))).
Proof.
  intros H i j. apply addEdge_Ok in H as [[-> ->]|(Hne & au & av & Hu & Hv & _ & _ & Hget)].
  - tauto.
  - unfold neighbor. rewrite Hget.
    destruct (decide (i = u)) as [->|Hiu]; [|destruct (decide (i = v)) as [->|Hiv]].
    + split.
      * intros (ai & [= <-] & Hj). apply elem_of_add_new in Hj as [Hj| ->]; [|tauto].
        left. eauto.
      * intros [(ai & Hai & Hj)|(_ & [[_ ->]|[-> ->]])].
        -- exists (add_new au v). split; [reflexivity|].
           apply elem_of_add_new. left. congruence.
        -- exists (add_new au v). split; [reflexivity|].
           apply elem_of_add_new. right. reflexivity.
        -- congruence.
    + split.
      * intros (ai & [= <-] & Hj). apply elem_of_add_new in Hj as [Hj| ->]; [|tauto].
        left. eauto.
      * intros [(ai & Hai & Hj)|(_ & [[-> ->]|[_ ->]])].
        -- exists (add_new av u). split; [reflexivity|].
           apply elem_of_add_new. left. congruence.
        -- congruence.
        -- exists (add_new av u). split; [reflexivity|].
           apply elem_of_add_new. right. reflexivity.
    + split; [auto|]. intros [H|(_ & [[-> _]|[-> _]])]; [exact H|congruence..].
Qed.

Lemma addEdge_no_duplicates g u v g' :
  addEdge g u v = Ok g' -> no_duplicates g -> no_duplicates g'.
Proof.
  intros H Hg i ai. apply addEdge_Ok in H as [[-> ->]|(Hne & au & av & Hu & Hv & _ & _ & Hget)].
  - apply Hg.
  - rewrite Hget. destruct (decide (i = u)); [|destruct (decide (i = v))].
    + intros [= <-]. apply NoDup_add_new. eapply Hg; eassumption.
    + intros [= <-]. apply NoDup_add_new. eapply Hg; eassumption.
    + apply Hg.
Qed.

Lemma addEdge_shaped n g u v g' :
  addEdge g u v = Ok g' -> shaped n g -> shaped n g'.
Proof.
  intros H [HN Hlen]. apply addEdge_Ok in H as [[-> ->]|(_ & au & av & _ & _ & HN' & Hlen' & _)].
  - split; assumption.
  - split; congruence.
Qed.

(** [addEdge] keeps a graph simple. *)
Lemma addEdge_simple g u v g' :
  addEdge g u v = Ok g' -> simple_graph g -> simple_graph g'.
Proof.
  intros H (Hsym & Hloop & Hdup).
  pose proof (addEdge_neighbor _ _ _ _ H) as Hn.
  split; [|split].
  - intros i j. rewrite !Hn, (Hsym i j). tauto.
  - intros i Hi. apply Hn in Hi as [Hi|(Hne & [[-> ->]|[-> ->]])].
    + exact (Hloop i Hi).
    + congruence.
    + congruence.
  - eapply addEdge_no_duplicates; eassumption.
Qed.

Lemma constructor_shaped n : shaped n (constructor n).
Proof. split; [reflexivity|]. simpl. apply length_replicate. Qed.

Lemma constructor_no_neighbor n i j : ~ neighbor (constructor n) i j.
Proof.
  intros (ai & Hai & Hj). simpl in Hai. rewrite js_get_replicate in Hai.
  destruct (_ && _); [|discriminate]. injection Hai as <-. inversion Hj.
Qed.

Lemma constructor_simple n : simple_graph (constructor n).
Proof.
  split; [|split].
  - intros i j. split; intros H; destruct (constructor_no_neighbor _ _ _ H).
  - intros i H. destruct (constructor_no_neighbor _ _ _ H).
  - intros i ai. simpl. rewrite js_get_replicate.
    destruct (_ && _); [|discriminate]. intros [= <-]. constructor.
Qed.

End GraphFacts.

(** ** C8: every generator returns a simple graph *)

Module Generators.
Import GraphFacts.

Section Invariant.
(** Whatever [addEdge] preserves, and the empty graph has, holds of every
    graph a generator returns: the generators change the graph through
    [addEdge] only. *)
Variable Inv : Graph -> Prop.
Hypothesis addEdge_inv :
  forall g u v g', Graph.addEdge g u v = Ok g' -> Inv g -> Inv g'.
Variable n : Z.
Hypothesis constructor_inv : Inv (Graph.constructor n).

Lemma for_range_preserves {S} (I : S -> Prop) lo hi (body : Z -> S -> result S) s s' :
  (forall a t t', I t -> body a t = Ok t' -> I t') ->
  I s -> for_range lo hi body s = Ok s' -> I s'.
Proof. unfold for_range. apply foldM_preserves. Qed.

Lemma makeRing_inv k g : makeRing n k = Ok g -> Inv g.
Proof.
  unfold makeRing. destruct (negb _); [discriminate|].
  apply for_range_preserves; [|apply constructor_inv].
  intros i g1 g2 Hg1. apply for_range_preserves; [|exact Hg1].
  intros d g3 g4 Hg3 H. apply rbind_inv in H as (g5 & H5 & H4).
  eapply addEdge_inv; [exact H4|]. eapply addEdge_inv; eassumption.
Qed.

Lemma makeLattice_inv g : makeLattice n = Ok g -> Inv g.
Proof.
  unfold makeLattice. destruct (round_sqrt n) as [L|]; [|discriminate].
  destruct (negb _); [discriminate|].
  apply for_range_preserves; [|apply constructor_inv].
  intros y g1 g2 Hg1. apply for_range_preserves; [|exact Hg1].
  intros x g3 g4 Hg3 H.
  apply rbind_inv in H as (ga & Ha & H).
  apply rbind_inv in H as (gb & Hb & H).
  apply rbind_inv in H as (gc & Hc & H).
  eauto using addEdge_inv.
Qed.

Lemma erdosRenyiEdges_inv p g rng g' rng' :
  Inv g -> erdosRenyiEdges n p g rng = Ok (g', rng') -> Inv g'.
Proof.
  intros Hg H. unfold erdosRenyiEdges in H.
  apply (for_range_preserves (fun st => Inv (fst st))) in H; [exact H| |exact Hg].
  intros i st1 st2 Hst1.
  apply (for_range_preserves (fun st => Inv (fst st))); [|exact Hst1].
  intros j [g3 r3] st4 Hg3. simpl in Hg3.
  destruct (RNG.random r3) as [r r4]. destruct (nlt (Fin r) p).
  - intros H4. apply rbind_inv in H4 as (g5 & H5 & [= <-]). simpl.
    eapply addEdge_inv; eassumption.
  - intros [= <-]. exact Hg3.
Qed.

Lemma makeErdosRenyi_inv p rng g rng' :
  makeErdosRenyi n p rng = Ok (g, rng') -> Inv g.
Proof.
  unfold makeErdosRenyi. intros H. apply rbind_inv in H as ([g1 r1] & H1 & [= <- _]).
  eapply erdosRenyiEdges_inv; [apply constructor_inv|exact H1].
Qed.

Lemma addEdgeTo_inv v u g g' :
  addEdgeTo v u g = Ok g' -> Inv g -> Inv g'.
Proof. destruct u as [u|]; simpl; [apply addEdge_inv|discriminate]. Qed.

Lemma attach_inv fuel m v g pool rng g' pool' rng' :
  attach fuel m v (g, pool, rng) = Some (Ok (g', pool', rng')) ->
  Inv g -> Inv g'.
Proof.
  unfold attach. destruct (sampleTargets fuel m pool [] rng) as [[targets r1]|]; [|discriminate].
  intros [= H] Hg. apply rbind_inv in H as (g1 & H1 & H).
  apply rbind_inv in H as (dv & _ & [= <- _ _]).
  revert H1. apply foldM_preserves; [|exact Hg].
  intros u t t' Ht Hu. eapply addEdgeTo_inv; eassumption.
Qed.

Lemma attachAll_inv fuel m vs g pool rng g' pool' rng' :
  attachAll fuel m vs (g, pool, rng) = Some (Ok (g', pool', rng')) ->
  Inv g -> Inv g'.
Proof.
  revert g pool rng. induction vs as [|v vs IH]; intros g pool rng; cbn [attachAll].
  - intros [= <- _ _]. trivial.
  - destruct (attach fuel m v (g, pool, rng)) as [[[[g1 pool1] rng1]|e]|] eqn:Hstep;
      [|discriminate..].
    intros Hrest Hg. eapply IH; [exact Hrest|].
    eapply attach_inv; eassumption.
Qed.

Lemma makeBA_inv fuel m0 m rng g rng' :
  makeBA fuel n m0 m rng = Some (Ok (g, rng')) -> Inv g.
Proof.
  unfold makeBA. destruct (m0 <? 2); [discriminate|].
  destruct (_ || _); [discriminate|].
  destruct (for_range 0 m0 _ _) as [g0|e] eqn:Hclique; [|discriminate].
  assert (Hg0 : Inv g0).
  { revert Hclique. apply for_range_preserves; [|apply constructor_inv].
    intros i g1 g2 Hg1. apply for_range_preserves; [|exact Hg1].
    intros j g3 g4 Hg3 H. eapply addEdge_inv; eassumption. }
  destruct (foldM _ (seqZ 0 m0) []) as [pool|e]; [|discriminate].
  destruct (attachAll fuel m _ _) as [[[[g1 pool1] rng1]|e]|] eqn:Hatt; [|discriminate..].
  intros [= <- _]. eapply attachAll_inv; eassumption.
Qed.

Lemma generate_inv fuel type rng g rng' :
  generate fuel type n rng = Some (Ok (g, rng')) -> Inv g.
Proof.
  destruct type as [k| |p|m0 m]; simpl.
  - intros [= H]. apply rbind_inv in H as (g1 & H1 & [= <- _]).
    eapply makeRing_inv; eassumption.
  - intros [= H]. apply rbind_inv in H as (g1 & H1 & [= <- _]).
    eapply makeLattice_inv; eassumption.
  - intros [= H]. eapply makeErdosRenyi_inv; eassumption.
  - apply makeBA_inv.
Qed.

End Invariant.

End Generators.

(** C8: whatever graph a generator returns (ring, lattice, Erdos-Renyi or
    Barabasi-Albert, from any generator state) has a symmetric adjacency,
    no self-loop and no duplicate entry in any adjacency list. *)
Theorem C8_generated_graph_simple fuel type n rng g rng' :
  generate fuel type n rng = Some (Ok (g, rng')) ->
  symmetric g /\ no_self_loops g /\ no_duplicates g.
Proof.
  apply (Generators.generate_inv simple_graph GraphFacts.addEdge_simple).
  apply GraphFacts.constructor_simple.
Qed.

(** A returned graph has the [N] nodes asked for: [g.N = N] and one
    adjacency list per node. *)
Theorem generated_graph_shaped fuel type n rng g rng' :
  generate fuel type n rng = Some (Ok (g, rng')) -> shaped n g.
Proof.
  apply (Generators.generate_inv (shaped n)).
  - intros g0 u v g' H. exact (GraphFacts.addEdge_shaped n g0 u v g' H).
  - apply GraphFacts.constructor_shaped.
Qed.

Lemma generated_graph_shaped_witness :
  exists g rng', generate 100 (ba 6 2) 50 1 = Some (Ok (g, rng')) /\ shaped 50 g.
Proof.
  eexists; eexists. split; [vm_compute; reflexivity|].
  refine (generated_graph_shaped 100 (ba 6 2) 50 1 _ _ _). vm_compute; reflexivity.
Defined.

Lemma C8_generated_graph_simple_witness :
  (exists g rng', generate 0 (ring 4) 10 1 = Some (Ok (g, rng')) /\ simple_graph g) /\
  (exists g rng', generate 0 lattice 16 1 = Some (Ok (g, rng')) /\ simple_graph g) /\
  (exists g rng', generate 0 (erdos (Fin (1 # 2))) 6 1 = Some (Ok (g, rng')) /\ simple_graph g) /\
  (exists g rng', generate 100 (ba 3 2) 8 1 = Some (Ok (g, rng')) /\ simple_graph g).
Proof.
  split; [|split; [|split]]; eexists; eexists.
  - split; [vm_compute; reflexivity|].
    apply (C8_generated_graph_simple 0 (ring 4) 10 1 _ 1). vm_compute; reflexivity.
  - split; [vm_compute; reflexivity|].
    apply (C8_generated_graph_simple 0 lattice 16 1 _ 1). vm_compute; reflexivity.
  - split; [vm_compute; reflexivity|].
    refine (C8_generated_graph_simple 0 (erdos (Fin (1 # 2))) 6 1 _ _ _).
    vm_compute; reflexivity.
  - split; [vm_compute; reflexivity|].
    refine (C8_generated_graph_simple 100 (ba 3 2) 8 1 _ _ _).
    vm_compute; reflexivity.
Defined.

(** ** Graphs built by a sequence of [addEdge] calls *)

Module Built.
Import Graph GraphFacts.

Lemma foldM_bind {A B S} (body : B -> S -> result S) (k : A -> list B) (l : list A) s :
  foldM body (l ≫= k) s = foldM (fun a s => foldM body (k a) s) l s.
Proof.
  revert s. induction l as [|a l IH]; intros s; [reflexivity|].
  change ((a :: l) ≫= k) with (k a ++ (l ≫= k)).
  rewrite foldM_app. cbn [foldM].
  destruct (foldM body (k a) s) as [s'|e]; simpl; [apply IH|reflexivity].
Qed.

Lemma holds_edges_empty n : holds_edges n [] (constructor n).
Proof.
  split; [apply constructor_shaped|]. split; [apply constructor_simple|].
  intros i j. split.
  - intros H. destruct (constructor_no_neighbor _ _ _ H).
  - intros [_ [H|H]]; inversion H.
Qed.

Lemma shaped_range n g u :
  shaped n g -> 0 <= u < n -> 0 <= u < Z.of_nat (length (adj g)).
Proof. intros [_ Hlen] Hu. rewrite Hlen. lia. Qed.

(** Calls on nodes of the graph all return, and the graph then holds
    exactly the pairs passed. *)
Lemma addEdges_holds n es : forall es0 g0,
  holds_edges n es0 g0 ->
  (forall u v, (u, v) ∈ es -> 0 <= u < n /\ 0 <= v < n) ->
  exists g, addEdges es g0 = Ok g /\ holds_edges n (es0 ++ es) g.
Proof.
  induction es as [|[u v] es IH]; intros es0 g0 Hg0 Hrange.
  - exists g0. split; [reflexivity|]. rewrite app_nil_r. exact Hg0.
  - destruct Hg0 as (Hshape & Hdup & Hnb).
    destruct (Hrange u v) as [Hu Hv]; [constructor|].
    destruct (addEdge_returns g0 u v) as [g1 Hg1];
      [eapply shaped_range; eassumption..|].
    destruct (IH (es0 ++ [(u, v)]) g1) as (g & Hg & Hholds).
    + split; [eapply addEdge_shaped; eassumption|].
      split; [eapply addEdge_no_duplicates; eassumption|].
      intros i j. rewrite (addEdge_neighbor _ _ _ _ Hg1), Hnb.
      rewrite !elem_of_app, !list_elem_of_singleton.
      split.
      * intros [H|(Hne & [[-> ->]|[-> ->]])]; [tauto| |]; split; auto.
      * intros (Hij & [[H|[= -> ->]]|[H|[= -> ->]]]); auto 6.
    + intros u' v' H. apply Hrange. constructor. exact H.
    + exists g. split.
      * unfold addEdges. cbn [foldM]. unfold addE at 1. simpl. rewrite Hg1. exact Hg.
      * rewrite <- app_assoc in Hholds. exact Hholds.
Qed.

(** The degree of a node whose neighbors are listed without repetition. *)
Lemma holds_edges_degree n es g i nbrs :
  holds_edges n es g -> 0 <= i < n -> NoDup nbrs ->
  (forall j, j ∈ nbrs <-> i <> j /\ ((i, j) ∈ es \/ (j, i) ∈ es)) ->
  degree g i = Ok (Z.of_nat (length nbrs)).
Proof.
  intros (Hshape & Hdup & Hnb) Hi Hnd Hmem. unfold degree.
  destruct (js_get_in_range (adj g) i) as [ai Hai]; [eapply shaped_range; eassumption|].
  rewrite Hai. do 2 f_equal. apply Permutation_length.
  apply NoDup_Permutation; [eapply Hdup; eassumption|exact Hnd|].
  intros j. rewrite Hmem, <- Hnb. unfold neighbor. split.
  - eauto.
  - intros (ai' & Hai' & Hj). congruence.
Qed.

(** The same, when the pairs are those of a symmetric neighbor function. *)
Lemma holds_edges_degree_symmetric n es g (nb : Z -> list Z) i :
  holds_edges n es g ->
  (forall a b, (a, b) ∈ es <-> 0 <= a < n /\ b ∈ nb a) ->
  (forall a b, 0 <= a < n -> b ∈ nb a -> 0 <= b < n /\ a <> b /\ a ∈ nb b) ->
  0 <= i < n -> NoDup (nb i) ->
  degree g i = Ok (Z.of_nat (length (nb i))).
Proof.
  intros Hg Hes Hsym Hi Hnd. eapply holds_edges_degree; try eassumption.
  intros j. rewrite !Hes. split.
  - intros Hj. destruct (Hsym i j Hi Hj) as (_ & Hne & _). tauto.
  - intros (_ & [[_ Hj]|[Hjr Hij]]); [exact Hj|].
    destruct (Hsym j i Hjr Hij) as (_ & _ & Hj). exact Hj.
Qed.

(** The neighbors themselves, under the same conditions. *)
Lemma holds_edges_neighbors n es g (nb : Z -> list Z) i j :
  holds_edges n es g ->
  (forall a b, (a, b) ∈ es <-> 0 <= a < n /\ b ∈ nb a) ->
  (forall a b, 0 <= a < n -> b ∈ nb a -> 0 <= b < n /\ a <> b /\ a ∈ nb b) ->
  0 <= i < n ->
  neighbor g i j <-> j ∈ nb i.
Proof.
  intros (_ & _ & Hnb) Hes Hsym Hi. rewrite Hnb, !Hes. split.
  - intros (_ & [[_ Hj]|[Hjr Hij]]); [exact Hj|].
    destruct (Hsym j i Hjr Hij) as (_ & _ & Hj). exact Hj.
  - intros Hj. destruct (Hsym i j Hi Hj) as (_ & Hne & _). tauto.
Qed.

(** The sum of the degrees of a regular graph, and its edge count. *)
Lemma degree_sum g d l : forall sum,
  (forall i, i ∈ l -> degree g i = Ok d) ->
  foldM (fun i sum => do di <- degree g i; Ok (sum + di)) l sum
  = Ok (sum + Z.of_nat (length l) * d).
Proof.
  induction l as [|i l IH]; intros sum Hd.
  - simpl. f_equal. lia.
  - cbn [foldM]. rewrite Hd by constructor. simpl.
    rewrite IH by (intros j Hj; apply Hd; constructor; exact Hj).
    f_equal. cbn [length]. lia.
Qed.

Lemma edgeCount_regular n g d :
  0 <= n -> shaped n g ->
  (forall i, 0 <= i < n -> degree g i = Ok d) ->
  exists q, edgeCount g = Ok q /\ (q == inject_Z (n * d) / 2)%Q.
Proof.
  intros Hn [HN _] Hd. unfold edgeCount, for_range. rewrite HN.
  rewrite (degree_sum g d).
  - rewrite length_seqZ, Z2Nat.id, Z.sub_0_r, Z.add_0_l by lia.
    cbn [rbind]. eexists. split; reflexivity.
  - intros i Hi. apply elem_of_seqZ in Hi. apply Hd. lia.
Qed.

(** Errors of the loops: [addEdge] throws nothing but a [TypeError]. *)
Lemma addEdge_error g u v e : addEdge g u v = Err e -> e = TypeError.
Proof.
  unfold addEdge. destruct (u =? v); [discriminate|].
  destruct (js_get (adj g) u); [|intros [= <-]; reflexivity].
  destruct (js_get _ v); [discriminate|intros [= <-]; reflexivity].
Qed.

Lemma addEdges_error es : forall g e, addEdges es g = Err e -> e = TypeError.
Proof.
  induction es as [|[u v] es IH]; intros g e; [discriminate|].
  unfold addEdges. cbn [foldM]. unfold addE at 1. simpl.
  destruct (addEdge g u v) as [g1|e1] eqn:H1; simpl.
  - apply IH.
  - intros [= <-]. eapply addEdge_error; eassumption.
Qed.

End Built.

(** ** The ring *)

Module Ring.
Import Graph GraphFacts Built.

Lemma js_rem_odd k : negb (js_rem k 2 =? 0) = Z.odd k.
Proof.
  unfold js_rem. pose proof (Z.rem_mod_eq_0 k 2 ltac:(lia)) as H.
  rewrite Zmod_odd in H.
  destruct (Z.eqb_spec (Z.rem k 2) 0) as [E|E]; destruct (Z.odd k); simpl; try reflexivity.
  - apply H in E. discriminate.
  - destruct E. apply H. reflexivity.
Qed.


(** The two loops of [makeRing] pass the pairs of [ringEdges] to [addEdge]. *)
Lemma makeRing_eq n k :
  Z.odd k = false ->
  makeRing n k = addEdges (ringEdges n k) (constructor n).
Proof.
  intros Hk. unfold makeRing. rewrite js_rem_odd, Hk.
  unfold addEdges, ringEdges, for_range. rewrite foldM_bind.
  apply foldM_ext. intros i g _. rewrite foldM_bind.
  apply foldM_ext. intros d g' _. cbn [foldM]. unfold addE. simpl.
  destruct (addEdge g' i (js_rem (i + d) n)) as [g1|e]; simpl; [|reflexivity].
  apply eq_sym, rbind_Ok_r.
Qed.

Lemma elem_of_ringEdges n k a b :
  (a, b) ∈ ringEdges n k <-> 0 <= a < n /\ b ∈ ringNeighbors n k a.
Proof.
  unfold ringEdges, ringNeighbors. rewrite list_elem_of_bind.
  replace (k / 2 + 1 - 1) with (k / 2) by lia.
  split.
  - intros (i & Hab & Hi). apply elem_of_seqZ in Hi.
    apply list_elem_of_bind in Hab as (d & Hab & Hd).
    assert (a = i) as ->.
    { simpl in Hab. rewrite !elem_of_cons in Hab.
      destruct Hab as [[= -> _]|[[= -> _]|Hab]]; [reflexivity..|inversion Hab]. }
    split; [lia|]. apply list_elem_of_bind. exists d. split; [|exact Hd].
    simpl in *. rewrite !elem_of_cons in *.
    destruct Hab as [[= ->]|[[= ->]|Hab]]; [tauto..|inversion Hab].
  - intros (Ha & Hb). exists a. split; [|apply elem_of_seqZ; lia].
    apply list_elem_of_bind in Hb as (d & Hb & Hd).
    apply list_elem_of_bind. exists d. split; [|exact Hd].
    simpl in *. rewrite !elem_of_cons in *.
    destruct Hb as [->|[->|Hb]]; [tauto..|inversion Hb].
Qed.

Section Regular.
Variables n k : Z.
Hypothesis Heven : Z.odd k = false.
Hypothesis Hk : 2 <= k < n.








End Regular.

Lemma makeRing_InvalidParameter n k :
  makeRing n k = Err InvalidParameter <-> Z.odd k = true.
Proof.
  destruct (Z.odd k) eqn:Hk.
  - unfold makeRing. rewrite js_rem_odd, Hk. tauto.
  - rewrite makeRing_eq by exact Hk. split; [|discriminate].
    intros H. apply addEdges_error in H. discriminate.
Qed.

End Ring.


(** ** C2: the toroidal lattice *)

Module Lattice.
Import Graph GraphFacts Built.

Lemma round_sqrt_square L : 0 <= L -> round_sqrt (L * L) = Some L.
Proof.
  intros HL. unfold round_sqrt.
  destruct (Z.ltb_spec (L * L) 0); [nia|].
  rewrite Z.sqrt_square by exact HL.
  destruct (Z.leb_spec (L * L - L * L) L); [reflexivity|lia].
Qed.

Lemma round_sqrt_nonneg n L : round_sqrt n = Some L -> 0 <= L.
Proof.
  unfold round_sqrt. destruct (n <? 0); [discriminate|].
  pose proof (Z.sqrt_nonneg n). intros [= <-].
  destruct (_ <=? _); lia.
Qed.

(** The value modelled for [Math.round(Math.sqrt(N))] is the integer
    nearest to the square root: [(L - 1/2)^2 < N < (L + 1/2)^2]. *)
Lemma round_sqrt_nearest n L :
  0 < n -> round_sqrt n = Some L ->
  (2 * L - 1) * (2 * L - 1) < 4 * n < (2 * L + 1) * (2 * L + 1).
Proof.
  intros Hn. unfold round_sqrt. destruct (Z.ltb_spec n 0); [lia|].
  pose proof (Z.sqrt_spec n ltac:(lia)) as Hs. cbv zeta in Hs.
  pose proof (Z.sqrt_nonneg n).
  intros [= <-]. destruct (Z.leb_spec (n - Z.sqrt n * Z.sqrt n) (Z.sqrt n)); nia.
Qed.

(** [a % n] for [0 <= a < 3n]. *)
Lemma js_rem_wrap3 n a :
  0 < n -> 0 <= a < 3 * n ->
  js_rem a n = if a <? n then a else if a <? 2 * n then a - n else a - 2 * n.
Proof.
  intros Hn Ha. unfold js_rem. rewrite Z.rem_mod_nonneg by lia.
  destruct (Z.ltb_spec a n); [apply Z.mod_small; lia|].
  destruct (Z.ltb_spec a (2 * n)); symmetry.
  - apply (Z.mod_unique a n 1); lia.
  - apply (Z.mod_unique a n 2); lia.
Qed.

Lemma idx_wrap L x y :
  0 < L -> - L <= x < 2 * L -> - L <= y < 2 * L ->
  idx L L x y = wrap L y * L + wrap L x.
Proof.
  intros HL Hx Hy. unfold idx, wrap. rewrite !js_rem_wrap3 by lia.
  repeat match goal with
         | |- context [?a <? ?b] => destruct (Z.ltb_spec a b)
         end; lia.
Qed.

Lemma wrap_id L a : 0 <= a < L -> wrap L a = a.
Proof.
  intros Ha. unfold wrap.
  destruct (Z.ltb_spec a 0); [lia|]. destruct (Z.ltb_spec a L); lia.
Qed.

Lemma wrap_range L a : 0 < L -> - L <= a < 2 * L -> 0 <= wrap L a < L.
Proof.
  intros HL Ha. unfold wrap.
  destruct (Z.ltb_spec a 0); [lia|]. destruct (Z.ltb_spec a L); lia.
Qed.

(** Coordinates of a node. *)
Lemma decode L x y :
  0 <= x < L -> (y * L + x) mod L = x /\ (y * L + x) / L = y.
Proof.
  intros Hx. split.
  - rewrite Z.add_comm, Z.mod_add by lia. apply Z.mod_small. exact Hx.
  - rewrite Z.add_comm, Z.div_add by lia. rewrite Z.div_small by exact Hx. lia.
Qed.

Lemma encode L a :
  0 < L -> 0 <= a < L * L ->
  a = a / L * L + a mod L /\ 0 <= a mod L < L /\ 0 <= a / L < L.
Proof.
  intros HL Ha. pose proof (Z.div_mod a L ltac:(lia)) as Hdm.
  pose proof (Z.mod_pos_bound a L HL) as Hm.
  split; [lia|]. split; [exact Hm|].
  split; [apply Z.div_pos; lia|]. apply Z.div_lt_upper_bound; lia.
Qed.

Lemma node_range L x y : 0 <= x < L -> 0 <= y < L -> 0 <= y * L + x < L * L.
Proof. intros Hx Hy. nia. Qed.

Lemma node_inj L x y x' y' :
  0 <= x < L -> 0 <= x' < L -> y * L + x = y' * L + x' -> x = x' /\ y = y'.
Proof.
  intros Hx Hx' H.
  destruct (decode L x y Hx) as [Hm Hd]. destruct (decode L x' y' Hx') as [Hm' Hd'].
  rewrite H in Hm, Hd. split; congruence.
Qed.

(** The neighbors of the node at column [x] and row [y]. *)
Lemma latticeNeighbors_node L x y :
  0 < L -> 0 <= x < L -> 0 <= y < L ->
  latticeNeighbors L (y * L + x) =
  [y * L + wrap L (x + 1); y * L + wrap L (x - 1);
   wrap L (y + 1) * L + x; wrap L (y - 1) * L + x].
Proof.
  intros HL Hx Hy. unfold latticeNeighbors. cbv zeta.
  destruct (decode L x y Hx) as [-> ->].
  rewrite !idx_wrap by lia. rewrite !(wrap_id L x), !(wrap_id L y) by lia.
  reflexivity.
Qed.

Lemma makeLattice_eq L :
  0 <= L ->
  makeLattice (L * L) = addEdges (latticeEdges L) (constructor (L * L)).
Proof.
  intros HL. unfold makeLattice. rewrite round_sqrt_square by exact HL.
  rewrite Z.eqb_refl. cbn [negb].
  unfold addEdges, latticeEdges, for_range. rewrite foldM_bind.
  apply foldM_ext. intros y g _. rewrite foldM_bind.
  apply foldM_ext. intros x g' _. cbv zeta. cbn [foldM]. unfold addE. simpl.
  destruct (addEdge g' _ _) as [g1|e]; simpl; [|reflexivity].
  destruct (addEdge g1 _ _) as [g2|e]; simpl; [|reflexivity].
  destruct (addEdge g2 _ _) as [g3|e]; simpl; [|reflexivity].
  apply eq_sym, rbind_Ok_r.
Qed.

Lemma elem_of_latticeEdges L a b :
  0 < L ->
  (a, b) ∈ latticeEdges L <-> 0 <= a < L * L /\ b ∈ latticeNeighbors L a.
Proof.
  intros HL. unfold latticeEdges. rewrite list_elem_of_bind. split.
  - intros (y & Hab & Hy). apply elem_of_seqZ in Hy.
    apply list_elem_of_bind in Hab as (x & Hab & Hx). apply elem_of_seqZ in Hx.
    cbv zeta in Hab.
    assert (Ha : a = y * L + x).
    { rewrite <- (wrap_id L x), <- (wrap_id L y) by lia.
      rewrite <- idx_wrap by lia.
      rewrite !elem_of_cons in Hab.
      destruct Hab as [[= -> _]|[[= -> _]|[[= -> _]|[[= -> _]|Hab]]]];
        [reflexivity..|inversion Hab]. }
    subst a. split; [apply node_range; lia|].
    unfold latticeNeighbors. cbv zeta.
    destruct (decode L x y ltac:(lia)) as [-> ->].
    rewrite !elem_of_cons in *.
    destruct Hab as [[= _ ->]|[[= _ ->]|[[= _ ->]|[[= _ ->]|Hab]]]];
      [tauto..|inversion Hab].
  - intros (Ha & Hb). destruct (encode L a HL Ha) as (Henc & Hx & Hy).
    exists (a / L). split; [|apply elem_of_seqZ; lia].
    apply list_elem_of_bind. exists (a mod L). split; [|apply elem_of_seqZ; lia].
    cbv zeta. rewrite (idx_wrap L (a mod L) (a / L)) by lia.
    rewrite !wrap_id by lia. rewrite <- Henc.
    unfold latticeNeighbors in Hb. cbv zeta in Hb.
    rewrite !elem_of_cons in *.
    destruct Hb as [->|[->|[->|[->|Hb]]]]; [tauto..|inversion Hb].
Qed.

Section Torus.
Variable L : Z.
Hypothesis HL : 3 <= L.

Ltac wraps :=
  unfold wrap in *;
  repeat match goal with
         | |- context [?a <? ?b] => destruct (Z.ltb_spec a b)
         | H : context [?a <? ?b] |- _ => destruct (Z.ltb_spec a b)
         end.

Lemma latticeNeighbors_symmetric a b :
  0 <= a < L * L -> b ∈ latticeNeighbors L a ->
  0 <= b < L * L /\ a <> b /\ a ∈ latticeNeighbors L b.
Proof.
  intros Ha Hb. destruct (encode L a ltac:(lia) Ha) as (Henc & Hx & Hy).
  set (x := a mod L) in *. set (y := a / L) in *. clearbody x y. subst a.
  rewrite latticeNeighbors_node in Hb by lia.
  rewrite !elem_of_cons in Hb.
  destruct Hb as [->|[->|[->|[->|Hb]]]]; [| | | |inversion Hb].
  - pose proof (wrap_range L (x + 1) ltac:(lia) ltac:(lia)) as Hw.
    split; [apply node_range; lia|]. split; [wraps; lia|].
    rewrite latticeNeighbors_node by lia. rewrite !elem_of_cons.
    right; left. wraps; lia.
  - pose proof (wrap_range L (x - 1) ltac:(lia) ltac:(lia)) as Hw.
    split; [apply node_range; lia|]. split; [wraps; lia|].
    rewrite latticeNeighbors_node by lia. rewrite !elem_of_cons.
    left. wraps; lia.
  - pose proof (wrap_range L (y + 1) ltac:(lia) ltac:(lia)) as Hw.
    split; [apply node_range; lia|]. split; [wraps; nia|].
    rewrite latticeNeighbors_node by lia. rewrite !elem_of_cons.
    right; right; right; left. wraps; nia.
  - pose proof (wrap_range L (y - 1) ltac:(lia) ltac:(lia)) as Hw.
    split; [apply node_range; lia|]. split; [wraps; nia|].
    rewrite latticeNeighbors_node by lia. rewrite !elem_of_cons.
    right; right; left. wraps; nia.
Qed.

Lemma latticeNeighbors_NoDup a : 0 <= a < L * L -> NoDup (latticeNeighbors L a).
Proof.
  intros Ha. destruct (encode L a ltac:(lia) Ha) as (Henc & Hx & Hy).
  set (x := a mod L) in *. set (y := a / L) in *. clearbody x y. subst a.
  rewrite latticeNeighbors_node by lia.
  pose proof (wrap_range L (x + 1) ltac:(lia) ltac:(lia)) as Hx1.
  pose proof (wrap_range L (x - 1) ltac:(lia) ltac:(lia)) as Hx2.
  pose proof (wrap_range L (y + 1) ltac:(lia) ltac:(lia)) as Hy1.
  pose proof (wrap_range L (y - 1) ltac:(lia) ltac:(lia)) as Hy2.
  assert (wrap L (x + 1) <> wrap L (x - 1)) by (wraps; lia).
  assert (wrap L (y + 1) <> wrap L (y - 1)) by (wraps; lia).
  assert (wrap L (x + 1) <> x) by (wraps; lia).
  assert (wrap L (x - 1) <> x) by (wraps; lia).
  assert (wrap L (y + 1) <> y) by (wraps; lia).
  assert (wrap L (y - 1) <> y) by (wraps; lia).
  repeat (apply NoDup_cons; split); [| | | |apply NoDup_nil_2];
    rewrite ?elem_of_cons, ?elem_of_nil;
    intros Hin;
    repeat match goal with
           | H : _ \/ _ |- _ => destruct H
           | H : False |- _ => destruct H
           | H : _ * L + _ = _ * L + _ |- _ =>
               apply node_inj in H; [destruct H|lia..]
           end; congruence.
Qed.

Lemma wrap_mod a : - 1 <= a <= L -> wrap L a = a mod L.
Proof.
  intros Ha. unfold wrap.
  destruct (Z.ltb_spec a 0); [|destruct (Z.ltb_spec a L)].
  - apply (Z.mod_unique a L (-1)); lia.
  - symmetry. apply Z.mod_small. lia.
  - apply (Z.mod_unique a L 1); lia.
Qed.

(** The lattice is built and is 4-regular with [2N] edges. *)
Lemma makeLattice_regular :
  exists g, makeLattice (L * L) = Ok g /\
    (forall x y j, 0 <= x < L -> 0 <= y < L ->
       neighbor g (y * L + x) j <->
       j = y * L + (x + 1) mod L \/ j = y * L + (x - 1) mod L \/
       j = (y + 1) mod L * L + x \/ j = (y - 1) mod L * L + x) /\
    (forall i, 0 <= i < L * L -> degree g i = Ok 4) /\
    exists q, edgeCount g = Ok q /\ (q == inject_Z (2 * (L * L)))%Q.
Proof.
  destruct (addEdges_holds (L * L) (latticeEdges L) [] (constructor (L * L)))
    as (g & Hg & Hholds).
  - apply holds_edges_empty.
  - intros u v Huv. apply elem_of_latticeEdges in Huv as [Hu Hv]; [|lia].
    split; [exact Hu|]. apply (latticeNeighbors_symmetric u v Hu Hv).
  - rewrite app_nil_l in Hholds.
    exists g. split; [rewrite makeLattice_eq by lia; exact Hg|].
    split.
    { intros x y j Hx Hy.
      rewrite (holds_edges_neighbors (L * L) (latticeEdges L) g (latticeNeighbors L)).
      - rewrite latticeNeighbors_node by lia.
        rewrite !wrap_mod by lia. rewrite !elem_of_cons, elem_of_nil. tauto.
      - exact Hholds.
      - intros a b. apply elem_of_latticeEdges. lia.
      - apply latticeNeighbors_symmetric.
      - apply node_range; lia. }
    assert (Hdeg : forall i, 0 <= i < L * L -> degree g i = Ok 4).
    { intros i Hi.
      change 4 with (Z.of_nat (length (latticeNeighbors L i))).
      apply (holds_edges_degree_symmetric (L * L) (latticeEdges L) g (latticeNeighbors L)).
      - exact Hholds.
      - intros a b. apply elem_of_latticeEdges. lia.
      - apply latticeNeighbors_symmetric.
      - exact Hi.
      - apply latticeNeighbors_NoDup. exact Hi. }
    split; [exact Hdeg|].
    destruct (edgeCount_regular (L * L) g 4) as (q & Hq & Heq);
      [nia|apply Hholds|exact Hdeg|].
    exists q. split; [exact Hq|]. rewrite Heq.
    unfold Qeq, Qdiv, Qmult, Qinv, inject_Z. simpl. lia.
Qed.

End Torus.

Lemma makeLattice_InvalidParameter n :
  makeLattice n = Err InvalidParameter <-> ~ perfect_square n.
Proof.
  split.
  - intros H (L & HL & ->). rewrite makeLattice_eq in H by exact HL.
    apply addEdges_error in H. discriminate.
  - intros Hn. unfold makeLattice.
    destruct (round_sqrt n) as [L|] eqn:Hr; [|reflexivity].
    destruct (Z.eqb_spec (L * L) n) as [Heq|Hne]; [|reflexivity].
    destruct Hn. exists L. split; [|congruence].
    eapply round_sqrt_nonneg; eassumption.
Qed.

End Lattice.

(** C2 (counterexample): [makeLattice(4)] returns a graph whose nodes have
    degree 2 (4 edges, not 8), and [makeLattice(1)] a single node of degree
    0: on a side of length 2 or 1 the four neighbors are not distinct. *)
Lemma C2_lattice_4_has_degree_2 :
  perfect_square 4 /\
  (exists g, makeLattice 4 = Ok g /\
             Graph.degree g 0 = Ok 2 /\ Graph.degree g 0 <> Ok 4 /\
             Graph.edgeCount g = Ok (8 # 2)) /\
  (exists g, makeLattice 1 = Ok g /\ Graph.degree g 0 = Ok 0).
Proof.
  split; [exists 2; lia|]. split.
  - eexists. split; [vm_compute; reflexivity|].
    split; [vm_compute; reflexivity|]. split; [vm_compute; discriminate|].
    vm_compute; reflexivity.
  - eexists. split; vm_compute; reflexivity.
Qed.

(** C2 (amended): [makeLattice(N)] throws the invalid-parameter error exactly
    when [N] is not a perfect square; when [N = L*L] with [L >= 3] it
    returns a graph in which the node at column [x] and row [y] has the
    neighbors at [x + 1], [x - 1], [y + 1] and [y - 1] (modulo [L]), every
    node has degree exactly 4, and the edge count is [2N]. *)
Theorem C2_makeLattice_regular (n : Z) :
  (makeLattice n = Err InvalidParameter <-> ~ perfect_square n) /\
  (forall L, 3 <= L -> n = L * L ->
   exists g, makeLattice n = Ok g /\
     (forall x y j, 0 <= x < L -> 0 <= y < L ->
        neighbor g (y * L + x) j <->
        j = y * L + (x + 1) mod L \/ j = y * L + (x - 1) mod L \/
        j = (y + 1) mod L * L + x \/ j = (y - 1) mod L * L + x) /\
     (forall i, 0 <= i < n -> Graph.degree g i = Ok 4) /\
     exists q, Graph.edgeCount g = Ok q /\ (q == inject_Z (2 * n))%Q).
Proof.
  split; [apply Lattice.makeLattice_InvalidParameter|].
  intros L HL ->. apply Lattice.makeLattice_regular. exact HL.
Qed.

Lemma C2_makeLattice_regular_witness :
  3 <= 4 /\ 16 = 4 * 4 /\
  exists g, makeLattice 16 = Ok g /\
    (forall x y j, 0 <= x < 4 -> 0 <= y < 4 ->
       neighbor g (y * 4 + x) j <->
       j = y * 4 + (x + 1) mod 4 \/ j = y * 4 + (x - 1) mod 4 \/
       j = (y + 1) mod 4 * 4 + x \/ j = (y - 1) mod 4 * 4 + x) /\
    (forall i, 0 <= i < 16 -> Graph.degree g i = Ok 4) /\
    exists q, Graph.edgeCount g = Ok q /\ (q == inject_Z (2 * 16))%Q.
Proof.
  split; [lia|]. split; [reflexivity|].
  apply (proj2 (C2_makeLattice_regular 16) 4); [lia|reflexivity].
Defined.

(** ** C4: Erdos-Renyi graphs *)

(** C4 (defect of the code): [makeErdosRenyi(2, 1)] with the generator in
    state 1584200935 draws exactly 1.0 for the only candidate pair;
    [1.0 < 1] is false, the edge is left out, and the graph has no edge
    where the complete graph on two nodes has one. *)
Theorem C4_erdos_p1_misses_edge :
  exists g rng' q,
    makeErdosRenyi 2 (Fin 1) 1584200935 = Ok (g, rng') /\
    Graph.edgeCount g = Ok q /\ (q == 0)%Q /\ ~ (q == inject_Z (2 * (2 - 1) / 2))%Q.
Proof.
  eexists. eexists. eexists. split; [vm_compute; reflexivity|].
  split; [vm_compute; reflexivity|]. split; [reflexivity|].
  vm_compute. discriminate.
Qed.

Module Erdos.
Import Graph GraphFacts Built RNGFacts.

Lemma advance_front k s : RNG.advance (S k) s = RNG.advance k (snd (RNG.nextU32 s)).
Proof.
  induction k as [|k IH]; [cbn [RNG.advance]; reflexivity|].
  rewrite advance_S, IH, <- advance_S. reflexivity.
Qed.

Lemma advance_add a b s : RNG.advance (a + b) s = RNG.advance b (RNG.advance a s).
Proof.
  revert s. induction a as [|a IH]; intros s; [cbn [RNG.advance Nat.add]; reflexivity|].
  change (S a + b)%nat with (S (a + b)). rewrite !advance_front. apply IH.
Qed.

Lemma random_nonneg s : (0 <= fst (RNG.random s))%Q.
Proof.
  rewrite random_eq. cbn [fst]. pose proof (nextU32_range s) as Hr.
  set (x := fst (RNG.nextU32 s)) in *. clearbody x.
  unfold Qle, Qdiv, Qmult, Qinv, inject_Z. cbn. lia.
Qed.

Lemma never_below_zero s : nlt (Fin (fst (RNG.random s))) (Fin 0) = false.
Proof.
  cbn [nlt]. unfold Qltb. apply negb_false_iff, Qle_bool_iff, random_nonneg.
Qed.

Section Loops.
Variables (n : Z) (p : num).

(** One row of the edge loop: one draw per candidate. *)
Lemma row i l : forall g rng,
  shaped n g -> 0 <= i < n -> (forall j, j ∈ l -> 0 <= j < n) ->
  exists g',
    foldM (fun j '(g, rng) =>
             let '(r, rng) := RNG.random rng in
             if nlt (Fin r) p
             then do g <- addEdge g i j; Ok (g, rng)
             else Ok (g, rng)) l (g, rng)
    = Ok (g', RNG.advance (length l) rng) /\
    shaped n g' /\ (p = Fin 0 -> g' = g).
Proof.
  intros g rng Hg Hi. revert g rng Hg.
  induction l as [|j l IH]; intros g rng Hg Hl.
  - exists g. repeat split; [exact (proj1 Hg)|exact (proj2 Hg)].
  - cbn [foldM length]. rewrite advance_front.
    pose proof (random_state rng) as Hst. pose proof (never_below_zero rng) as H0.
    destruct (RNG.random rng) as [r rng1]. unfold snd in Hst. cbn [fst] in H0.
    rewrite nextU32_state, <- Hst.
    destruct (nlt (Fin r) p) eqn:Hlt.
    + destruct (addEdge_returns g i j) as [g1 Hg1];
        [eapply shaped_range; [exact Hg|exact Hi]
        |eapply shaped_range; [exact Hg|apply Hl; constructor]|].
      rewrite Hg1. cbn [rbind].
      destruct (IH g1 rng1) as (g' & Hfold & Hshape & _).
      * eapply addEdge_shaped; eassumption.
      * intros j' Hj'. apply Hl. constructor. exact Hj'.
      * exists g'. split; [exact Hfold|]. split; [exact Hshape|].
        intros ->. congruence.
    + cbn [rbind]. destruct (IH g rng1 Hg) as (g' & Hfold & Hshape & Hsame).
      * intros j' Hj'. apply Hl. constructor. exact Hj'.
      * exists g'. split; [exact Hfold|]. split; assumption.
Qed.

Lemma rows l : forall g rng,
  shaped n g -> (forall i, i ∈ l -> 0 <= i < n) ->
  exists g',
    foldM (fun i st =>
             for_range (i + 1) n (fun j '(g, rng) =>
               let '(r, rng) := RNG.random rng in
               if nlt (Fin r) p
               then do g <- addEdge g i j; Ok (g, rng)
               else Ok (g, rng)) st) l (g, rng)
    = Ok (g', RNG.advance (candidates n l) rng) /\
    shaped n g' /\ (p = Fin 0 -> g' = g).
Proof.
  induction l as [|i l IH]; intros g rng Hg Hl.
  - exists g. repeat split; [exact (proj1 Hg)|exact (proj2 Hg)].
  - cbn [foldM candidates foldr]. unfold for_range at 1.
    destruct (row i (seqZ (i + 1) (n - (i + 1))) g rng Hg) as (g1 & Hrow & Hg1 & Hsame1).
    + apply Hl. constructor.
    + intros j Hj. apply elem_of_seqZ in Hj.
      specialize (Hl i ltac:(constructor)). lia.
    + rewrite Hrow. cbn [rbind]. rewrite length_seqZ, advance_add.
      destruct (IH g1 (RNG.advance (Z.to_nat (n - (i + 1))) rng) Hg1)
        as (g' & Hfold & Hshape & Hsame).
      * intros i' Hi'. apply Hl. constructor. exact Hi'.
      * exists g'. split; [exact Hfold|]. split; [exact Hshape|].
        intros Hp. rewrite Hsame, Hsame1 by exact Hp. reflexivity.
Qed.

End Loops.

(** The candidates of all rows are the [n(n-1)/2] unordered pairs. *)
Lemma candidates_rows n : forall k a,
  Z.of_nat k = n - a -> 0 <= a ->
  Z.of_nat (candidates n (seqZ a (n - a))) = (n - a) * (n - a - 1) / 2.
Proof.
  induction k as [|k IH]; intros a Hk Ha.
  - replace (n - a) with 0 by lia. reflexivity.
  - rewrite seqZ_cons by lia. cbn [candidates foldr].
    replace (Z.pred (n - a)) with (n - Z.succ a) by lia.
    rewrite Nat2Z.inj_add. fold (candidates n (seqZ (Z.succ a) (n - Z.succ a))).
    rewrite (IH (Z.succ a)) by lia.
    rewrite Z2Nat.id by lia.
    replace ((n - a) * (n - a - 1)) with ((n - Z.succ a) * (n - Z.succ a - 1) + (n - (a + 1)) * 2) by lia.
    rewrite Z.div_add by lia. lia.
Qed.

Lemma constructor_degree n i : 0 <= i < n -> degree (constructor n) i = Ok 0.
Proof.
  intros Hi. unfold degree. simpl adj. rewrite js_get_replicate.
  destruct (Z.leb_spec 0 i); [|lia]. destruct (Z.ltb_spec i (Z.of_nat (Z.to_nat n))); [|lia].
  reflexivity.
Qed.

End Erdos.

(** The edge loop of [makeErdosRenyi] returns on every input and draws
    once per unordered candidate pair, [N(N-1)/2] times in all; with
    [p = 0] no edge is added and the edge count is 0, for every generator
    state. *)
Theorem erdos_draws_and_p0 (n : Z) (p : num) (rng : Z) :
  0 <= n ->
  (exists g, erdosRenyiEdges n p (Graph.constructor n) rng
             = Ok (g, RNG.advance (Z.to_nat (n * (n - 1) / 2)) rng)) /\
  (exists rng' q, makeErdosRenyi n (Fin 0) rng = Ok (Graph.constructor n, rng') /\
                  Graph.edgeCount (Graph.constructor n) = Ok q /\ (q == 0)%Q).
Proof.
  intros Hn.
  assert (Hcount : candidates n (seqZ 0 (n - 0)) = Z.to_nat (n * (n - 1) / 2)).
  { apply Nat2Z.inj. rewrite (Erdos.candidates_rows n (Z.to_nat n) 0) by lia.
    rewrite Z2Nat.id; [f_equal; lia|]. apply Z.div_pos; nia. }
  assert (Hrows : forall p, exists g',
            erdosRenyiEdges n p (Graph.constructor n) rng
            = Ok (g', RNG.advance (Z.to_nat (n * (n - 1) / 2)) rng) /\
            (p = Fin 0 -> g' = Graph.constructor n)).
  { intros p'. unfold erdosRenyiEdges, for_range at 1.
    destruct (Erdos.rows n p' (seqZ 0 (n - 0)) (Graph.constructor n) rng)
      as (g' & Hfold & _ & Hsame).
    - apply GraphFacts.constructor_shaped.
    - intros i Hi. apply elem_of_seqZ in Hi. lia.
    - exists g'. rewrite Hfold, Hcount. split; [reflexivity|exact Hsame]. }
  split.
  - destruct (Hrows p) as (g' & Hg' & _). exists g'. exact Hg'.
  - destruct (Hrows (Fin 0)) as (g' & Hg' & Hsame). rewrite Hsame in Hg' by reflexivity.
    destruct (Built.edgeCount_regular n (Graph.constructor n) 0) as (q & Hq & Heq).
    + exact Hn.
    + apply GraphFacts.constructor_shaped.
    + apply Erdos.constructor_degree.
    + eexists. exists q. unfold makeErdosRenyi. rewrite Hg'. cbn [rbind fst snd].
      split; [reflexivity|]. split; [exact Hq|]. rewrite Heq.
      rewrite Z.mul_0_r. reflexivity.
Qed.

Lemma erdos_draws_and_p0_witness :
  (exists g, erdosRenyiEdges 100 (Fin (1 # 20)) (Graph.constructor 100) 1
             = Ok (g, RNG.advance (Z.to_nat (100 * (100 - 1) / 2)) 1)) /\
  (exists rng' q, makeErdosRenyi 100 (Fin 0) 1 = Ok (Graph.constructor 100, rng') /\
                  Graph.edgeCount (Graph.constructor 100) = Ok q /\ (q == 0)%Q).
Proof. apply (erdos_draws_and_p0 100 (Fin (1 # 20)) 1). lia. Defined.

(** ** The payoff array *)

Module Payoff.

Lemma js_get_elem {A} (a : list A) i x : js_get a i = Some x -> x ∈ a.
Proof.
  unfold js_get. destruct (i <? 0); [discriminate|]. apply list_elem_of_lookup_2.
Qed.

(** The loop of [computePayoffs] fills the array entry by entry. *)
Lemma computePayoffs_loop g strat M l : forall acc,
  (forall i, i ∈ l -> exists nei, js_get (adj g) i = Some nei) ->
  foldM (fun i pay =>
           let si := js_get strat i in
           match js_get (adj g) i with
           | None => Err TypeError
           | Some nei => Ok (pay ++ [payoffOf strat M si nei])
           end) l acc
  = Ok (acc ++ ((fun i => payoffOf strat M (js_get strat i)
                            (default [] (js_get (adj g) i))) <$> l)).
Proof.
  induction l as [|i l IH]; intros acc Hl.
  - simpl. rewrite app_nil_r. reflexivity.
  - cbn [foldM]. destruct (Hl i) as [nei Hnei]; [constructor|].
    cbv zeta. rewrite Hnei. cbn [rbind].
    rewrite IH by (intros j Hj; apply Hl; constructor; exact Hj).
    rewrite fmap_cons, Hnei. simpl default. rewrite <- app_assoc. reflexivity.
Qed.

Lemma computePayoffs_shaped g strat M :
  shaped (N g) g ->
  computePayoffs g strat M =
  Ok ((fun i => payoffOf strat M (js_get strat i) (default [] (js_get (adj g) i)))
        <$> seqZ 0 (N g)).
Proof.
  intros [_ Hlen]. unfold computePayoffs, for_range. rewrite Z.sub_0_r.
  rewrite computePayoffs_loop; [reflexivity|].
  intros i Hi. apply elem_of_seqZ in Hi. apply js_get_in_range. lia.
Qed.

Lemma js_get_fmap_seqZ {A} (f : Z -> A) n i :
  0 <= i < n -> js_get (f <$> seqZ 0 n) i = Some (f i).
Proof.
  intros Hi. unfold js_get. destruct (Z.ltb_spec i 0); [lia|].
  rewrite list_lookup_fmap, lookup_seqZ_lt by lia.
  simpl. f_equal. f_equal. lia.
Qed.

Lemma computePayoffs_length g strat M pay :
  computePayoffs g strat M = Ok pay -> Z.of_nat (length pay) = Z.max 0 (N g).
Proof.
  unfold computePayoffs, for_range. rewrite Z.sub_0_r.
  assert (H : forall l acc pay,
            foldM (fun i pay =>
                     let si := js_get strat i in
                     match js_get (adj g) i with
                     | None => Err TypeError
                     | Some nei => Ok (pay ++ [payoffOf strat M si nei])
                     end) l acc = Ok pay ->
            length pay = (length acc + length l)%nat).
  { induction l as [|i l IH]; intros acc p; cbn [foldM].
    - intros [= <-]. simpl. lia.
    - cbv zeta. destruct (js_get (adj g) i); [|discriminate]. cbn [rbind].
      intros Hp. apply IH in Hp. rewrite Hp, length_app. simpl. lia. }
  intros Hp. apply H in Hp. rewrite Hp, length_seqZ. simpl. lia.
Qed.

End Payoff.


(** ** C9: the payoff of a node, in binary64 *)

Module Payoff64.
Import Binary64.

(** The loop of [computePayoffs] fills the array entry by entry. *)
Lemma computePayoffs_fills g strat M l : forall acc,
  (forall i, i ∈ l -> exists nei, js_get (adj g) i = Some nei) ->
  foldM (fun i pay =>
           let si := js_get strat i in
           match js_get (adj g) i with
           | None => Err TypeError
           | Some nei => Ok (pay ++ [payoffOf strat M si nei])
           end) l acc
  = Ok (acc ++ ((fun i => payoffOf strat M (js_get strat i)
                            (default [] (js_get (adj g) i))) <$> l)).
Proof.
  induction l as [|i l IH]; intros acc Hl.
  - simpl. rewrite app_nil_r. reflexivity.
  - cbn [foldM]. destruct (Hl i) as [nei Hnei]; [constructor|].
    cbv zeta. rewrite Hnei. cbn [rbind].
    rewrite IH by (intros j Hj; apply Hl; constructor; exact Hj).
    rewrite fmap_cons, Hnei. simpl default. rewrite <- app_assoc. reflexivity.
Qed.

(** On a shaped graph the call returns, one entry per node. *)
Lemma computePayoffs_returns g strat M :
  shaped (N g) g -> 0 <= N g ->
  computePayoffs g strat M =
  Ok ((fun i => payoffOf strat M (js_get strat i) (default [] (js_get (adj g) i)))
        <$> seqZ 0 (N g)).
Proof.
  intros [_ Hlen] Hn. unfold computePayoffs, for_range.
  destruct (Z.ltb_spec (N g) 0); [lia|]. rewrite Z.sub_0_r.
  rewrite computePayoffs_fills; [reflexivity|].
  intros i Hi. apply elem_of_seqZ in Hi. apply js_get_in_range. lia.
Qed.

(** A graph with a node has a positive [N]. *)
Lemma shaped_node g i nei :
  shaped (N g) g -> js_get (adj g) i = Some nei -> 0 < N g.
Proof.
  intros [_ Hlen] Hi. apply js_get_Some in Hi. lia.
Qed.

(** The addition the loop makes for a neighbor adds the matrix entry
    selected by the two strategies. *)
Lemma payoff_step M si sj :
  (si = 0 \/ si = 1) -> (sj = 0 \/ sj = 1) ->
  forall sum : float,
  (if is1 (Some si) && is1 (Some sj) then (sum + Matrix.R M)%float
   else if is1 (Some si) && is0 (Some sj) then (sum + Matrix.S M)%float
   else if is0 (Some si) && is1 (Some sj) then (sum + Matrix.T M)%float
   else (sum + Matrix.P M)%float)
  = (sum + matrix_entry M (strategy_of si) (strategy_of sj))%float.
Proof. intros [-> | ->] [-> | ->] sum; reflexivity. Qed.

(** The loop adds the selected entries to 0 in the order of the list. *)
Lemma payoffOf_sum g strat M i nei si :
  well_formed g -> strategies_for g strat ->
  js_get (adj g) i = Some nei -> js_get strat i = Some si ->
  payoffOf strat M (Some si) nei = payoff_sum strat M i nei.
Proof.
  intros [Hshape Hnb] [Hlen Hbin] Hnei Hsi.
  unfold payoffOf, payoff_sum, payoff_terms. rewrite Hsi. simpl default.
  pose proof (Hbin si (Payoff.js_get_elem _ _ _ Hsi)) as Hsi01.
  assert (Hl : forall j, j ∈ nei -> 0 <= j < N g)
    by (intros j Hj; eapply Hnb; eassumption).
  clear Hnei. generalize 0%float as acc.
  induction nei as [|j l IH]; intros acc; [reflexivity|].
  cbn [fold_left map]. cbv zeta.
  destruct (js_get_in_range strat j) as [sj Hsj]; [rewrite Hlen; apply Hl; constructor|].
  rewrite Hsj. simpl default.
  rewrite payoff_step;
    [|exact Hsi01|apply Hbin; eapply Payoff.js_get_elem; eassumption].
  apply IH. intros j' Hj'. apply Hl. constructor. exact Hj'.
Qed.

(** Integers that stay below 2^53 are added without rounding. *)
Lemma fold_exact B zs : forall acc,
  0 <= B -> (forall z, z ∈ zs -> Z.abs z <= B) ->
  Z.abs acc + B * Z.of_nat (length zs) < 2 ^ 53 ->
  fold_left PrimFloat.add (map F64.of_Z zs) (F64.of_Z acc)
  = F64.of_Z (acc + foldr Z.add 0 zs).
Proof.
  induction zs as [|z l IH]; intros acc HB Hz Hb.
  - cbn [map fold_left foldr]. rewrite Z.add_0_r. reflexivity.
  - cbn [map fold_left foldr length] in *. rewrite Nat2Z.inj_succ, Z.mul_succ_r in Hb.
    assert (Hzb : Z.abs z <= B) by (apply Hz; constructor).
    assert (0 <= B * Z.of_nat (length l)) by (apply Z.mul_nonneg_nonneg; lia).
    rewrite Exact.add_exact by lia.
    rewrite IH; [f_equal; lia|exact HB| |lia].
    intros z' Hz'. apply Hz. constructor. exact Hz'.
Qed.

Lemma integer_terms_eq strat r s t p i nei :
  payoff_terms strat (integerMatrix r s t p) i nei
  = map F64.of_Z (integer_terms strat r s t p i nei).
Proof.
  unfold payoff_terms, integer_terms. rewrite map_map. apply map_ext.
  intros j. destruct (strategy_of _), (strategy_of _); reflexivity.
Qed.

Lemma integer_terms_bound strat r s t p i nei B z :
  Z.abs r <= B -> Z.abs s <= B -> Z.abs t <= B -> Z.abs p <= B ->
  z ∈ integer_terms strat r s t p i nei -> Z.abs z <= B.
Proof.
  intros Hr Hs Ht Hp Hz. unfold integer_terms in Hz.
  apply list_elem_of_fmap in Hz as (j & -> & _).
  destruct (strategy_of _), (strategy_of _); assumption.
Qed.

(** With integer entries and few enough neighbors the payoff is the sum. *)
Lemma integer_payoff_sum strat r s t p i nei B :
  Z.abs r <= B -> Z.abs s <= B -> Z.abs t <= B -> Z.abs p <= B ->
  B * Z.of_nat (length nei) < 2 ^ 53 ->
  payoff_sum strat (integerMatrix r s t p) i nei
  = F64.of_Z (integer_sum strat r s t p i nei).
Proof.
  intros Hr Hs Ht Hp Hb. unfold payoff_sum, integer_sum.
  rewrite integer_terms_eq.
  replace 0%float with (F64.of_Z 0) by (vm_compute; reflexivity).
  rewrite (fold_exact B).
  - reflexivity.
  - lia.
  - intros z Hz. exact (integer_terms_bound strat r s t p i nei B z Hr Hs Ht Hp Hz).
  - unfold integer_terms. rewrite length_map. lia.
Qed.

End Payoff64.

(** C9 (counterexample): with [R = 1e16] and [S = 1], a cooperator whose
    neighbors are a cooperator and two defectors is owed [R + S + S], which
    is the double 10000000000000002.  With the cooperator listed first the
    loop computes [(0 + R) + S], rounds it back to [R], and does so again:
    the entry is 1e16.  With the cooperator listed last the same node of the
    same graph gets 10000000000000002.  The entry is not the sum of the
    selected matrix entries, and it depends on the order of the neighbor
    list. *)
Lemma C9_payoff_is_not_the_exact_sum :
  let M := {| Binary64.Matrix.R := 1e16; Binary64.Matrix.S := 1;
              Binary64.Matrix.T := 0; Binary64.Matrix.P := 0 |} in
  Binary64.payoff_terms [1; 1; 0; 0] M 0 [1; 2; 3] = [1e16; 1; 1]%float /\
  F64.of_Z (10 ^ 16 + 1 + 1) = 10000000000000002%float /\
  Binary64.computePayoffs Binary64.star123 [1; 1; 0; 0] M
    = Ok [1e16; 1e16; 0; 0]%float /\
  Binary64.computePayoffs Binary64.star231 [1; 1; 0; 0] M
    = Ok [10000000000000002; 1e16; 0; 0]%float.
Proof. cbv zeta. repeat split; vm_compute; reflexivity. Qed.

(** C9 (amended): on a graph and a strategy array of zeros and ones,
    [computePayoffs] returns an array with one entry per node, and the entry
    of node [i] is the binary64 sum of the matrix entries selected by the
    strategies of [i] and of each neighbor [j], (C,C) -> R, (C,D) -> S,
    (D,C) -> T, (D,D) -> P, added to 0 one after the other in the order of
    the neighbor list, each addition rounded.  When the four entries are
    integers of magnitude at most [B] and [B] times the number of neighbors
    is below 2^53, no addition rounds and the entry is the sum itself.  The
    function takes the graph, the array and the matrix and returns the
    payoffs only: it has no generator to draw from and nothing of its
    arguments is changed. *)
Theorem C9_computePayoffs_sum g strat M :
  well_formed g -> strategies_for g strat ->
  exists pay,
    Binary64.computePayoffs g strat M = Ok pay /\
    Z.of_nat (length pay) = N g /\
    (forall i nei, js_get (adj g) i = Some nei ->
       js_get pay i = Some (Binary64.payoff_sum strat M i nei)) /\
    (forall r s t p B i nei,
       M = Binary64.integerMatrix r s t p ->
       Z.abs r <= B -> Z.abs s <= B -> Z.abs t <= B -> Z.abs p <= B ->
       js_get (adj g) i = Some nei -> B * Z.of_nat (length nei) < 2 ^ 53 ->
       js_get pay i = Some (F64.of_Z (Binary64.integer_sum strat r s t p i nei))).
Proof.
  intros Hwf Hstrat. pose proof Hwf as [Hshape Hnb]. pose proof Hstrat as [Hlen Hbin].
  assert (Hn : 0 <= N g) by lia.
  rewrite Payoff64.computePayoffs_returns by assumption.
  eexists. split; [reflexivity|]. split; [rewrite length_fmap, length_seqZ; lia|].
  assert (Hentry : forall i nei, js_get (adj g) i = Some nei ->
            js_get ((fun i => Binary64.payoffOf strat M (js_get strat i)
                                (default [] (js_get (adj g) i))) <$> seqZ 0 (N g)) i
            = Some (Binary64.payoff_sum strat M i nei)).
  { intros i nei Hnei. pose proof (js_get_Some _ _ _ Hnei) as Hi.
    destruct Hshape as [_ Hshape]. rewrite Hshape in Hi.
    rewrite Payoff.js_get_fmap_seqZ by lia.
    f_equal. rewrite Hnei. simpl default.
    destruct (js_get_in_range strat i) as [si Hsi]; [lia|].
    rewrite Hsi. eapply Payoff64.payoffOf_sum; eassumption. }
  split; [exact Hentry|].
  intros r s t p B i nei HM Hr Hs Ht Hp Hnei Hb.
  rewrite (Hentry i nei Hnei). f_equal. subst M.
  apply (Payoff64.integer_payoff_sum strat r s t p i nei B); assumption.
Qed.

Lemma C9_computePayoffs_sum_witness :
  Binary64.donationToMatrix 3 1 = Binary64.integerMatrix 2 (-1) 3 0 /\
  exists pay,
    Binary64.computePayoffs {| N := 3; adj := [[1; 2]; [0]; [0]] |} [1; 1; 0]
                            (Binary64.donationToMatrix 3 1) = Ok pay /\
    js_get pay 0
    = Some (Binary64.payoff_sum [1; 1; 0] (Binary64.donationToMatrix 3 1) 0 [1; 2]) /\
    js_get pay 0 = Some (F64.of_Z (2 + -1)).
Proof.
  assert (HM : Binary64.donationToMatrix 3 1 = Binary64.integerMatrix 2 (-1) 3 0)
    by (vm_compute; reflexivity).
  split; [exact HM|].
  destruct (C9_computePayoffs_sum {| N := 3; adj := [[1; 2]; [0]; [0]] |} [1; 1; 0]
              (Binary64.donationToMatrix 3 1)) as (pay & Hpay & _ & Hsum & Hint).
  - split; [split; reflexivity|]. simpl. intros i ai j Hai Hj.
    unfold js_get in Hai. destruct (Z.ltb_spec i 0); [discriminate|].
    destruct (Z.to_nat i) as [|[|[|k]]]; simpl in Hai; try discriminate;
      injection Hai as <-; repeat (apply elem_of_cons in Hj as [->|Hj]; [lia|]);
      inversion Hj.
  - split; [reflexivity|]. intros s Hs.
    repeat (apply elem_of_cons in Hs as [->|Hs]; [lia|]). inversion Hs.
  - exists pay. split; [exact Hpay|]. split; [apply Hsum; reflexivity|].
    apply (Hint 2 (-1) 3 0 3 0 [1; 2] HM); try reflexivity; lia.
Defined.

(** ** The update rules *)

Module Rules.
Import RNGFacts.

Lemma pairGraph_is_ring : makeRing 2 2 = Ok pairGraph.
Proof. vm_compute. reflexivity. Qed.

Lemma isolatedPair_is_erdos :
  exists rng', makeErdosRenyi 2 (Fin 0) 1 = Ok (isolatedPair, rng').
Proof. eexists. vm_compute. reflexivity. Qed.

(** *** Writes to the strategy array *)

Lemma strat_set_length strat key v : length (strat_set strat key v) = length strat.
Proof.
  unfold strat_set. destruct key as [i|]; [|reflexivity].
  destruct (_ && _); [apply length_insert|reflexivity].
Qed.

Lemma strat_set_other strat key v k :
  Some k <> key -> js_get (strat_set strat key v) k = js_get strat k.
Proof.
  intros Hk. unfold strat_set. destruct key as [i|]; [|reflexivity].
  destruct (Z.leb_spec 0 i); simpl; [|reflexivity].
  destruct (i <? Z.of_nat (length strat)); [|reflexivity].
  apply js_get_insert_ne; [assumption|congruence].
Qed.

(** Writing the value an element already has changes nothing. *)
Lemma strat_set_same strat i v :
  js_get strat i = Some v -> 0 <= v < 256 ->
  strat_set strat (Some i) (Some v) = strat.
Proof.
  intros Hi Hv. unfold strat_set, toUint8.
  destruct (_ && _); [|reflexivity].
  rewrite Z.mod_small by exact Hv. apply list_insert_id.
  unfold js_get in Hi. destruct (i <? 0); [discriminate|exact Hi].
Qed.

Lemma frame_unchanged strat rng c :
  frame strat {| strat_after := strat; rng_after := rng; assigned := []; how := c |}.
Proof. split; [simpl; lia|]. split; reflexivity. Qed.

Lemma frame_set strat key v rng :
  frame strat (returned (strat_set strat key v) rng [key]).
Proof.
  split; [simpl; lia|]. split; [apply strat_set_length|].
  intros k Hk. simpl in *. apply strat_set_other.
  intros <-. apply Hk. constructor.
Qed.

Lemma mutate_off c rng : mutate (Fin 0) c rng = (c, rng).
Proof. reflexivity. Qed.

(** *** The weighted pick *)

Lemma scanWeights_range weights : forall i r k,
  scanWeights weights i r = Some k -> i <= k < i + Z.of_nat (length weights).
Proof.
  induction weights as [|w ws IH]; intros i r k; simpl; [discriminate|].
  destruct (nle (nsub r w) (Fin 0)).
  - intros [= <-]. lia.
  - intros H. apply IH in H. lia.
Qed.

(** The index picked lies in [0, length]; it is below the length unless
    the weights sum to nothing positive and the draw is [0xFFFFFFFF]. *)
Lemma pickWeightedIndex_bounds weights rng :
  RNG.valid rng -> weights <> [] ->
  0 <= fst (pickWeightedIndex weights rng) <= Z.of_nat (length weights).
Proof.
  intros Hv Hne. unfold pickWeightedIndex.
  assert (0 < Z.of_nat (length weights)) by (destruct weights; [congruence|simpl; lia]).
  destruct (nle _ _).
  - apply int_range; [exact Hv|lia].
  - destruct (RNG.random rng) as [r0 rng1].
    destruct (scanWeights weights 0 _) as [k|] eqn:Hk; simpl.
    + apply scanWeights_range in Hk. lia.
    + lia.
Qed.

Lemma pickWeightedIndex_in_range weights rng :
  RNG.valid rng -> weights <> [] -> fst (RNG.nextU32 rng) <> 4294967295 ->
  0 <= fst (pickWeightedIndex weights rng) < Z.of_nat (length weights).
Proof.
  intros Hv Hne Hdraw. unfold pickWeightedIndex.
  assert (0 < Z.of_nat (length weights)) by (destruct weights; [congruence|simpl; lia]).
  destruct (nle _ _).
  - pose proof (int_range (Z.of_nat (length weights)) rng Hv ltac:(lia)).
    pose proof (proj2 (int_lt_iff (Z.of_nat (length weights)) rng Hv ltac:(lia)) Hdraw).
    lia.
  - destruct (RNG.random rng) as [r0 rng1].
    destruct (scanWeights weights 0 _) as [k|] eqn:Hk; simpl.
    + apply scanWeights_range in Hk. lia.
    + lia.
Qed.

End Rules.

(** ** C7: what one call changes, in binary64 *)

Module Rules64.
Import Binary64.

(** A defined entry of the adjacency array is read at an integer. *)
Lemma at_index_Some {A} (a : list A) i x :
  at_index a i = Some x -> exists d, i = Some d /\ js_get a d = Some x.
Proof. destruct i as [d|]; [|discriminate]. intros H. exists d. auto. Qed.

Lemma length_not_zero {A} (l : list A) : l <> [] -> (Z.of_nat (length l) =? 0) = false.
Proof. destruct l; [congruence|]. intros _. apply Z.eqb_neq. simpl. lia. Qed.

(** On a shaped graph with a node, [computePayoffs] returns. *)
Lemma computePayoffs_defined g strat M i x :
  shaped (N g) g -> at_index (adj g) i = Some x ->
  exists pay, computePayoffs g strat M = Ok pay.
Proof.
  intros Hs Hi. apply at_index_Some in Hi as (d & _ & Hd).
  pose proof (Payoff64.shaped_node g d x Hs Hd).
  eexists. apply Payoff64.computePayoffs_returns; [exact Hs|lia].
Qed.

(** *** Frame: at most one key is assigned, the others keep their element *)

Lemma stepDB_frame g strat M w mu rng : frame strat (stepDB g strat M w mu rng).
Proof.
  unfold stepDB.
  destruct (computePayoffs g strat M) as [pay|e]; [|apply Rules.frame_unchanged].
  destruct (int (N g) rng) as [dead rng1].
  destruct (at_index (adj g) dead) as [neigh|]; [|apply Rules.frame_unchanged].
  destruct (_ =? 0); [apply Rules.frame_unchanged|].
  destruct (pickWeightedIndex _ rng1) as [winnerIdx rng2].
  destruct (mutate mu _ rng2) as [childStrat rng3].
  apply Rules.frame_set.
Qed.

Lemma stepBD_frame g strat M w mu rng : frame strat (stepBD g strat M w mu rng).
Proof.
  unfold stepBD.
  destruct (computePayoffs g strat M) as [pay|e]; [|apply Rules.frame_unchanged].
  destruct (pickWeightedIndex _ rng) as [parent rng1].
  destruct (at_index (adj g) parent) as [neigh|]; [|apply Rules.frame_unchanged].
  destruct (_ =? 0); [apply Rules.frame_unchanged|].
  destruct (int _ rng1) as [k rng2].
  destruct (mutate mu _ rng2) as [childStrat rng3].
  apply Rules.frame_set.
Qed.

Lemma stepImitationFermi_frame Math_exp g strat M beta mu rng :
  frame strat (stepImitationFermi Math_exp g strat M beta mu rng).
Proof.
  unfold stepImitationFermi.
  destruct (computePayoffs g strat M) as [pay|e]; [|apply Rules.frame_unchanged].
  destruct (int (N g) rng) as [i rng1].
  destruct (at_index (adj g) i) as [neigh|]; [|apply Rules.frame_unchanged].
  destruct (_ =? 0); [apply Rules.frame_unchanged|].
  destruct (int _ rng1) as [k rng2].
  destruct (random rng2) as [r rng3].
  destruct (PrimFloat.ltb _ _); [|apply Rules.frame_unchanged].
  destruct (mutate mu _ rng3) as [s rng4].
  apply Rules.frame_set.
Qed.

(** *** The node selected first: one assignment, or none if it is isolated *)

Lemma stepDB_selected g strat M w mu rng dead rng1 neigh :
  shaped (N g) g ->
  int (N g) rng = (dead, rng1) -> at_index (adj g) dead = Some neigh ->
  (neigh <> [] ->
   assigned (stepDB g strat M w mu rng) = [dead] /\
   how (stepDB g strat M w mu rng) = Returned 1) /\
  (neigh = [] -> no_op strat (stepDB g strat M w mu rng)).
Proof.
  intros Hs Hi Hn.
  destruct (computePayoffs_defined g strat M _ _ Hs Hn) as [pay Hpay].
  unfold stepDB. rewrite Hpay, Hi, Hn. split.
  - intros Hne. rewrite (length_not_zero neigh Hne).
    destruct (pickWeightedIndex _ rng1) as [winnerIdx rng2].
    destruct (mutate mu _ rng2) as [childStrat rng3].
    split; reflexivity.
  - intros ->. repeat split.
Qed.

Lemma stepBD_selected g strat M w mu rng pay parent rng1 neigh k rng2 :
  computePayoffs g strat M = Ok pay ->
  pickWeightedIndex (fitAll g pay w) rng = (parent, rng1) ->
  at_index (adj g) parent = Some neigh ->
  int (Z.of_nat (length neigh)) rng1 = (k, rng2) ->
  (neigh <> [] ->
   assigned (stepBD g strat M w mu rng) = [at_index neigh k] /\
   how (stepBD g strat M w mu rng) = Returned 1) /\
  (neigh = [] -> no_op strat (stepBD g strat M w mu rng)).
Proof.
  intros Hpay Hp Hn Hk. unfold stepBD. rewrite Hpay, Hp, Hn. split.
  - intros Hne. rewrite (length_not_zero neigh Hne), Hk.
    destruct (mutate mu _ rng2) as [childStrat rng3].
    split; reflexivity.
  - intros ->. repeat split.
Qed.

(** [stepImitationFermi]: the assignment is made when the adoption draw
    is below the adoption probability, and only then. *)
Lemma stepImitationFermi_selected Math_exp g strat M beta mu rng
    pay i rng1 neigh k rng2 r rng3 :
  computePayoffs g strat M = Ok pay ->
  int (N g) rng = (i, rng1) -> at_index (adj g) i = Some neigh ->
  int (Z.of_nat (length neigh)) rng1 = (k, rng2) ->
  random rng2 = (r, rng3) ->
  (neigh <> [] ->
   PrimFloat.ltb r (fermi Math_exp beta (pay_get pay i) (pay_get pay (at_index neigh k)))
     = true ->
   assigned (stepImitationFermi Math_exp g strat M beta mu rng) = [i] /\
   how (stepImitationFermi Math_exp g strat M beta mu rng) = Returned 1) /\
  (neigh <> [] ->
   PrimFloat.ltb r (fermi Math_exp beta (pay_get pay i) (pay_get pay (at_index neigh k)))
     = false ->
   no_op strat (stepImitationFermi Math_exp g strat M beta mu rng)) /\
  (neigh = [] -> no_op strat (stepImitationFermi Math_exp g strat M beta mu rng)).
Proof.
  intros Hpay Hi Hn Hk Hr. unfold stepImitationFermi. rewrite Hpay, Hi, Hn.
  split; [|split].
  - intros Hne Hlt. rewrite (length_not_zero neigh Hne), Hk, Hr, Hlt.
    destruct (mutate mu _ rng3) as [s rng4]. split; reflexivity.
  - intros Hne Hlt. rewrite (length_not_zero neigh Hne), Hk, Hr, Hlt. repeat split.
  - intros ->. repeat split.
Qed.

(** *** The run of the counterexample *)

Lemma below_half_fails Math_exp (x r : float) :
  exp_at_zero Math_exp -> x = (-0)%float -> PrimFloat.ltb r 0.5 = false ->
  PrimFloat.ltb r (1 / (1 + Math_exp x)) = false.
Proof.
  intros [_ Hexp] -> Hr. rewrite Hexp.
  replace (1 / (1 + 1))%float with 0.5%float by (vm_compute; reflexivity).
  exact Hr.
Qed.

(** Whatever [Math.exp] is away from zero, [stepImitationFermi] on two
    joined nodes with strategies 1 and 0, [beta = 0] and the generator seeded
    with 1 assigns nothing: the argument of [Math.exp] is [-0 * 4], the
    adoption probability is 0.5, and the third draw of the generator is
    above it. *)
Lemma fermi_rejects_for_any_exp Math_exp :
  exp_at_zero Math_exp ->
  no_op [1; 0] (stepImitationFermi Math_exp pairGraph [1; 0] (donationToMatrix 3 1) 0 0 1).
Proof.
  intros Hexp.
  apply (proj1 (proj2 (stepImitationFermi_selected Math_exp pairGraph [1; 0]
           (donationToMatrix 3 1) 0 0 1
           [(-1)%float; 3%float] (Some 0) 270369 [1] (Some 0) 67634689
           (fst (random 67634689)) 2647435461
           ltac:(vm_compute; reflexivity) ltac:(vm_compute; reflexivity)
           ltac:(vm_compute; reflexivity) ltac:(vm_compute; reflexivity)
           ltac:(vm_compute; reflexivity)))).
  - discriminate.
  - unfold fermi. apply (below_half_fails Math_exp _ _ Hexp); vm_compute; reflexivity.
Qed.

End Rules64.

(** C7 (counterexample): [stepImitationFermi] on two joined nodes with
    strategies 1 and 0, [beta = 0] and the generator seeded with 1 picks the
    focal node 0 and its neighbor 1, and the adoption draw 0.616 is not
    below 0.5: the call returns without assigning to the array, although the
    focal node is not isolated.  ([Math.exp] is used at zero only.) *)
Lemma C7_fermi_rejection_assigns_nothing :
  let Math_exp := fun _ : float => 1%float in
  let IM := Binary64.stepImitationFermi Math_exp pairGraph [1; 0]
              (Binary64.donationToMatrix 3 1) 0 0 1 in
  Binary64.exp_at_zero Math_exp /\
  fst (Binary64.int (N pairGraph) 1) = Some 0 /\
  js_get (adj pairGraph) 0 = Some [1] /\
  assigned IM = [] /\ strat_after IM = [1; 0] /\ how IM = Returned 1.
Proof.
  cbv zeta.
  assert (Hexp : Binary64.exp_at_zero (fun _ : float => 1%float)) by (split; reflexivity).
  split; [exact Hexp|]. split; [vm_compute; reflexivity|]. split; [reflexivity|].
  destruct (Rules64.fermi_rejects_for_any_exp _ Hexp) as (H1 & H2 & H3).
  rewrite H1, H2, H3. repeat split.
Qed.

(** C7 (amended): a call of [stepDB], [stepBD] or [stepImitationFermi]
    assigns to at most one key of the strategy array, and every element at
    another index is as before the call.  On a shaped graph, when the node
    selected first has a neighbor, [stepDB] and [stepBD] return after exactly
    one assignment, [stepDB] to the node that died and [stepBD] to the
    neighbor of the parent it drew, and [stepImitationFermi] makes exactly
    one assignment, to the focal node, when its adoption draw is below the
    adoption probability and none otherwise; a tick that selects an isolated
    node returns normally, assigning nothing and leaving the whole array as
    it was.  The nodes and the draws are the ones binary64 arithmetic
    gives. *)
Theorem C7_rules_change_one_entry Math_exp g strat M w mu rng :
  shaped (N g) g ->
  (frame strat (Binary64.stepDB g strat M w mu rng) /\
   frame strat (Binary64.stepBD g strat M w mu rng) /\
   frame strat (Binary64.stepImitationFermi Math_exp g strat M w mu rng)) /\
  (forall dead rng1 neigh,
     Binary64.int (N g) rng = (dead, rng1) ->
     Binary64.at_index (adj g) dead = Some neigh ->
     (neigh <> [] ->
      assigned (Binary64.stepDB g strat M w mu rng) = [dead] /\
      how (Binary64.stepDB g strat M w mu rng) = Returned 1) /\
     (neigh = [] -> no_op strat (Binary64.stepDB g strat M w mu rng))) /\
  (forall pay parent rng1 neigh k rng2,
     Binary64.computePayoffs g strat M = Ok pay ->
     Binary64.pickWeightedIndex (Binary64.fitAll g pay w) rng = (parent, rng1) ->
     Binary64.at_index (adj g) parent = Some neigh ->
     Binary64.int (Z.of_nat (length neigh)) rng1 = (k, rng2) ->
     (neigh <> [] ->
      assigned (Binary64.stepBD g strat M w mu rng) = [Binary64.at_index neigh k] /\
      how (Binary64.stepBD g strat M w mu rng) = Returned 1) /\
     (neigh = [] -> no_op strat (Binary64.stepBD g strat M w mu rng))) /\
  (forall pay i rng1 neigh k rng2 r rng3,
     Binary64.computePayoffs g strat M = Ok pay ->
     Binary64.int (N g) rng = (i, rng1) ->
     Binary64.at_index (adj g) i = Some neigh ->
     Binary64.int (Z.of_nat (length neigh)) rng1 = (k, rng2) ->
     Binary64.random rng2 = (r, rng3) ->
     (neigh <> [] ->
      PrimFloat.ltb r (Binary64.fermi Math_exp w (Binary64.pay_get pay i)
                         (Binary64.pay_get pay (Binary64.at_index neigh k))) = true ->
      assigned (Binary64.stepImitationFermi Math_exp g strat M w mu rng) = [i] /\
      how (Binary64.stepImitationFermi Math_exp g strat M w mu rng) = Returned 1) /\
     (neigh <> [] ->
      PrimFloat.ltb r (Binary64.fermi Math_exp w (Binary64.pay_get pay i)
                         (Binary64.pay_get pay (Binary64.at_index neigh k))) = false ->
      no_op strat (Binary64.stepImitationFermi Math_exp g strat M w mu rng)) /\
     (neigh = [] ->
      no_op strat (Binary64.stepImitationFermi Math_exp g strat M w mu rng))).
Proof.
  intros Hshape. split; [|split; [|split]].
  - split; [apply Rules64.stepDB_frame|]. split; [apply Rules64.stepBD_frame|].
    apply Rules64.stepImitationFermi_frame.
  - intros dead rng1 neigh. apply Rules64.stepDB_selected. exact Hshape.
  - intros pay parent rng1 neigh k rng2. apply Rules64.stepBD_selected.
  - intros pay i rng1 neigh k rng2 r rng3. apply Rules64.stepImitationFermi_selected.
Qed.

Lemma C7_rules_change_one_entry_witness :
  shaped 2 pairGraph /\
  Binary64.int (N pairGraph) 1 = (Some 0, 270369) /\
  Binary64.at_index (adj pairGraph) (Some 0) = Some [1] /\
  assigned (Binary64.stepDB pairGraph [1; 0] (Binary64.donationToMatrix 3 1) 0.5 0 1)
    = [Some 0] /\
  how (Binary64.stepDB pairGraph [1; 0] (Binary64.donationToMatrix 3 1) 0.5 0 1)
    = Returned 1 /\
  strat_after (Binary64.stepDB pairGraph [1; 0] (Binary64.donationToMatrix 3 1) 0.5 0 1)
    = [0; 0].
Proof.
  split; [split; reflexivity|]. split; [vm_compute; reflexivity|].
  split; [reflexivity|].
  destruct (proj1 (proj1 (proj2 (C7_rules_change_one_entry (fun _ => 1%float) pairGraph
                     [1; 0] (Binary64.donationToMatrix 3 1) 0.5%float 0%float 1
                     (conj eq_refl eq_refl))) (Some 0) 270369 [1]
              ltac:(vm_compute; reflexivity) ltac:(reflexivity)) ltac:(discriminate))
    as [Ha Hh].
  split; [exact Ha|]. split; [exact Hh|]. vm_compute. reflexivity.
Defined.

(** The runs of the two defects below, on the machine: the same draws
    select the same indices in binary64, and [stepDB] breaks the fixated
    array, and throws, as it does on the rationals. *)
Lemma binary64_defect_runs :
  strat_after (Binary64.stepDB pairGraph [1; 1] (Binary64.donationToMatrix 1 1)
                 1 0 3764646662) = [0; 1] /\
  how (Binary64.stepDB pairGraph [1; 1] (Binary64.donationToMatrix 1 1)
         1 0 1584200935) = Thrown TypeError.
Proof. split; vm_compute; reflexivity. Qed.

(** ** C6: fixation under the update rules *)

(** C6 (defect of the code): on the ring of two nodes, both cooperators,
    with [R = 0], [w = 1] and [mu = 0], every fitness is zero and
    [pickWeightedIndex] falls back to [rng.int(1)]; from the state
    3764646662 that draw is [0xFFFFFFFF], so the index is 1, one past the
    neighbor list: the parent and the child strategy are [undefined] and
    the array stores 0 for the dead node.  The fixated array [1, 1] becomes
    [0, 1]. *)
Theorem C6_stepDB_breaks_fixation :
  makeRing 2 2 = Ok pairGraph /\
  RNG.constructor 3764646662 = 3764646662 /\
  isFixated [1; 1] = true /\
  strat_after (stepDB pairGraph [1; 1] (donationToMatrix (Fin 1) (Fin 1))
                 (Fin 1) (Fin 0) 3764646662) = [0; 1] /\
  isFixated [0; 1] = false.
Proof. repeat split; vm_compute; reflexivity. Qed.

(** ** C10: the indices the rules use *)

(** C10 (defect of the code): from the state 1584200935 the draw is
    [0xFFFFFFFF] and [rng.int(n)] returns [n] itself; [pickWeightedIndex]
    on weights that sum to zero then returns the length of the array, and
    [stepDB] reads [g.adj[2]] on a graph of two nodes and throws. *)
Theorem C10_index_out_of_range :
  (forall n, fst (RNG.int n 1584200935) = n) /\
  fst (pickWeightedIndex [Fin 0] 1584200935) = 1 /\
  selectedDB pairGraph 1584200935 = 2 /\
  js_get (adj pairGraph) 2 = None /\
  how (stepDB pairGraph [1; 1] (donationToMatrix (Fin 1) (Fin 1))
         (Fin 1) (Fin 0) 1584200935) = Thrown TypeError.
Proof.
  split.
  - intros n. rewrite RNGFacts.int_eq. cbn [fst].
    replace (fst (RNG.nextU32 1584200935)) with 4294967295 by (vm_compute; reflexivity).
    rewrite Z.mul_comm. apply Z.div_mul. lia.
  - repeat split; vm_compute; reflexivity.
Qed.

(** ** Further properties of the update rules *)

Module Fixation.
Import RNGFacts Rules.

Lemma isFixated_first strat i :
  isFixated strat = true -> 0 <= i < Z.of_nat (length strat) ->
  js_get strat i = js_get strat 0.
Proof.
  intros Hfix Hi. destruct (Z.eq_dec i 0) as [->|Hne]; [reflexivity|].
  unfold isFixated in Hfix. rewrite forallb_forall in Hfix.
  specialize (Hfix i). rewrite <- list_elem_of_In, elem_of_seqZ in Hfix.
  apply bool_decide_eq_true in Hfix; [exact Hfix|lia].
Qed.

Lemma isFixated_eq strat i j x y :
  isFixated strat = true ->
  js_get strat i = Some x -> js_get strat j = Some y -> x = y.
Proof.
  intros Hfix Hi Hj.
  rewrite (isFixated_first strat i Hfix) in Hi by (eapply js_get_Some; eassumption).
  rewrite (isFixated_first strat j Hfix) in Hj by (eapply js_get_Some; eassumption).
  congruence.
Qed.

(** [isFixated] is true exactly when all entries are equal. *)
Lemma isFixated_iff strat :
  isFixated strat = true <-> exists v, forall s, s ∈ strat -> s = v.
Proof.
  split.
  - intros Hfix. exists (default 0 (js_get strat 0)). intros s Hs.
    apply list_elem_of_lookup in Hs as [k Hk].
    assert (Hget : js_get strat (Z.of_nat k) = Some s).
    { unfold js_get. destruct (Z.ltb_spec (Z.of_nat k) 0); [lia|].
      rewrite Nat2Z.id. exact Hk. }
    rewrite <- (isFixated_first strat (Z.of_nat k) Hfix), Hget; [reflexivity|].
    eapply js_get_Some; eassumption.
  - intros [v Hv]. unfold isFixated. apply forallb_forall. intros i Hi.
    apply list_elem_of_In, elem_of_seqZ in Hi. apply bool_decide_eq_true.
    destruct (js_get_in_range strat i) as [x Hx]; [lia|].
    destruct (js_get_in_range strat 0) as [y Hy]; [lia|].
    rewrite Hx, Hy. f_equal.
    rewrite (Hv x), (Hv y); [reflexivity|eapply Payoff.js_get_elem; eassumption..].
Qed.

Section Preserved.
Variables (g : Graph) (strat : list Z) (M : Matrix).
Hypothesis Hwf : well_formed g.
Hypothesis Hstrat : strategies_for g strat.
Hypothesis Hfix : isFixated strat = true.

Lemma node_strategy i ai :
  js_get (adj g) i = Some ai -> exists s, js_get strat i = Some s /\ 0 <= s < 256.
Proof.
  intros Hi. apply js_get_Some in Hi.
  destruct Hwf as [[_ Hlen] _]. destruct Hstrat as [Hn Hbin].
  destruct (js_get_in_range strat i) as [s Hs]; [lia|].
  exists s. split; [exact Hs|].
  destruct (Hbin s); [eapply Payoff.js_get_elem; eassumption|lia..].
Qed.

Lemma neighbor_strategy i ai k j :
  js_get (adj g) i = Some ai -> js_get ai k = Some j ->
  exists s, js_get strat j = Some s /\ 0 <= s < 256.
Proof.
  intros Hi Hk. destruct Hwf as [[_ Hlen] Hnb]. destruct Hstrat as [Hn Hbin].
  assert (Hj : 0 <= j < N g).
  { eapply Hnb; [exact Hi|]. eapply Payoff.js_get_elem; eassumption. }
  destruct (js_get_in_range strat j) as [s Hs]; [lia|].
  exists s. split; [exact Hs|].
  destruct (Hbin s); [eapply Payoff.js_get_elem; eassumption|lia..].
Qed.

(** Copying the strategy of one node to another changes nothing. *)
Lemma copy_same i j si sj :
  js_get strat i = Some si -> 0 <= si < 256 -> js_get strat j = Some sj ->
  strat_set strat (Some i) (strat_get strat (Some j)) = strat.
Proof.
  intros Hi Hr Hj. simpl. rewrite Hj.
  apply strat_set_same; [|rewrite (isFixated_eq strat j i sj si Hfix Hj Hi); exact Hr].
  rewrite (isFixated_eq strat j i sj si Hfix Hj Hi). exact Hi.
Qed.

Lemma stepBD_fixated w rng :
  strat_after (stepBD g strat M w (Fin 0) rng) = strat.
Proof.
  unfold stepBD. rewrite Payoff.computePayoffs_shaped by apply Hwf.
  destruct (pickWeightedIndex _ rng) as [parent rng1].
  destruct (js_get (adj g) parent) as [neigh|] eqn:Hneigh; [|reflexivity].
  destruct (_ =? 0); [reflexivity|].
  destruct (RNG.int _ rng1) as [k rng2]. rewrite mutate_off.
  destruct (js_get neigh k) as [dead|] eqn:Hdead; [|reflexivity].
  destruct (node_strategy parent neigh Hneigh) as (sp & Hsp & _).
  destruct (neighbor_strategy parent neigh k dead Hneigh Hdead) as (sd & Hsd & Hr).
  cbn [strat_after returned]. eapply copy_same; eassumption.
Qed.

Lemma stepImitationFermi_fixated Math_exp beta rng :
  Math_exp NaN = NaN ->
  strat_after (stepImitationFermi Math_exp g strat M beta (Fin 0) rng) = strat.
Proof.
  intros Hnan. unfold stepImitationFermi.
  rewrite Payoff.computePayoffs_shaped by apply Hwf.
  destruct (RNG.int (N g) rng) as [i rng1].
  destruct (js_get (adj g) i) as [neigh|] eqn:Hneigh; [|reflexivity].
  destruct (_ =? 0); [reflexivity|].
  destruct (RNG.int _ rng1) as [k rng2].
  destruct (RNG.random rng2) as [r rng3].
  destruct (js_get neigh k) as [j|] eqn:Hj.
  - destruct (nlt _ _); [|reflexivity]. rewrite mutate_off.
    destruct (node_strategy i neigh Hneigh) as (si & Hsi & Hr).
    destruct (neighbor_strategy i neigh k j Hneigh Hj) as (sj & Hsj & _).
    cbn [strat_after returned]. eapply copy_same; eassumption.
  - assert (Hp : fermi Math_exp beta (pay_get
               ((fun i => payoffOf strat M (js_get strat i)
                            (default [] (js_get (adj g) i))) <$> seqZ 0 (N g))
               (Some i)) (pay_get
               ((fun i => payoffOf strat M (js_get strat i)
                            (default [] (js_get (adj g) i))) <$> seqZ 0 (N g))
               None) = NaN).
    { unfold fermi. cbn [pay_get]. unfold nsub. cbn [nlift2].
      destruct (nneg beta); cbn [nmul nlift2]; rewrite Hnan; reflexivity. }
    rewrite Hp. reflexivity.
Qed.

Lemma stepDB_fixated w rng :
  RNG.valid rng -> RNG.output rng 1 <> 4294967295 ->
  strat_after (stepDB g strat M w (Fin 0) rng) = strat.
Proof.
  intros Hv Hdraw. unfold stepDB.
  rewrite Payoff.computePayoffs_shaped by apply Hwf.
  pose proof (int_state (N g) rng) as Hrng1.
  destruct (RNG.int (N g) rng) as [dead rng1]. unfold snd in Hrng1.
  destruct (js_get (adj g) dead) as [neigh|] eqn:Hneigh; [|reflexivity].
  destruct (Z.eqb_spec (Z.of_nat (length neigh)) 0) as [|Hlen]; [reflexivity|].
  set (fit := map _ neigh).
  assert (Hpick : 0 <= fst (pickWeightedIndex fit rng1) < Z.of_nat (length fit)).
  { apply pickWeightedIndex_in_range.
    - subst rng1. apply nextU32_valid. exact Hv.
    - unfold fit. destruct neigh; [simpl in Hlen; lia|discriminate].
    - subst rng1. rewrite output_eq, advance_S, nextU32_state in Hdraw. exact Hdraw. }
  destruct (pickWeightedIndex fit rng1) as [winnerIdx rng2]. simpl fst in Hpick.
  unfold fit in Hpick. rewrite length_map in Hpick.
  destruct (js_get_in_range neigh winnerIdx Hpick) as [parent Hparent].
  rewrite Hparent, mutate_off.
  destruct (node_strategy dead neigh Hneigh) as (sd & Hsd & Hr).
  destruct (neighbor_strategy dead neigh winnerIdx parent Hneigh Hparent) as (sp & Hsp & _).
  cbn [strat_after returned]. eapply copy_same; eassumption.
Qed.

End Preserved.

End Fixation.

(** On a well-formed graph, with [mu = 0], [stepBD] and
    [stepImitationFermi] leave a fixated array of zeros and ones as it is,
    whatever the generator draws; [stepDB] does when its second draw is not
    [0xFFFFFFFF]. *)
Theorem fixation_preserved Math_exp g strat M w rng :
  well_formed g -> strategies_for g strat -> isFixated strat = true ->
  Math_exp NaN = NaN -> RNG.valid rng ->
  strat_after (stepBD g strat M w (Fin 0) rng) = strat /\
  strat_after (stepImitationFermi Math_exp g strat M w (Fin 0) rng) = strat /\
  (RNG.output rng 1 <> 4294967295 ->
   strat_after (stepDB g strat M w (Fin 0) rng) = strat).
Proof.
  intros Hwf Hstrat Hfix Hnan Hv. split; [|split].
  - apply Fixation.stepBD_fixated; assumption.
  - apply Fixation.stepImitationFermi_fixated; assumption.
  - intros Hdraw. apply Fixation.stepDB_fixated; assumption.
Qed.

(** ** The draws that keep every index in range *)

(** For every state the generator can be in, [random()] lies in (0, 1] and
    [int(b)] in [0, b]; [int(b)] is below [b] exactly when the 32-bit
    draw is not [0xFFFFFFFF]. *)
Theorem draw_ranges (b : Z) (rng : Z) :
  RNG.valid rng -> 0 < b ->
  (0 < fst (RNG.random rng) <= 1)%Q /\
  0 <= fst (RNG.int b rng) <= b /\
  (fst (RNG.int b rng) < b <-> fst (RNG.nextU32 rng) <> 4294967295) /\
  RNG.valid (snd (RNG.random rng)) /\ RNG.valid (snd (RNG.int b rng)).
Proof.
  intros Hv Hb. split; [apply RNGFacts.random_range; exact Hv|].
  split; [apply RNGFacts.int_range; [exact Hv|lia]|].
  split; [apply RNGFacts.int_lt_iff; assumption|].
  rewrite RNGFacts.random_state, RNGFacts.int_state.
  split; apply RNGFacts.nextU32_valid; exact Hv.
Qed.

Lemma draw_ranges_witness :
  (0 < fst (RNG.random (RNG.constructor 1)) <= 1)%Q /\
  0 <= fst (RNG.int 10 (RNG.constructor 1)) <= 10 /\
  (fst (RNG.int 10 (RNG.constructor 1)) < 10 <->
   fst (RNG.nextU32 (RNG.constructor 1)) <> 4294967295) /\
  RNG.valid (snd (RNG.random (RNG.constructor 1))) /\
  RNG.valid (snd (RNG.int 10 (RNG.constructor 1))).
Proof.
  apply (draw_ranges 10 (RNG.constructor 1)); [apply RNGFacts.constructor_valid|lia].
Defined.

Module Bounds.
Import RNGFacts Rules.

Lemma pickWeightedIndex_state weights rng :
  snd (pickWeightedIndex weights rng) = fst (RNG.nextU32 rng).
Proof.
  unfold pickWeightedIndex. destruct (nle _ _); [apply int_state|].
  pose proof (random_state rng) as Hst.
  destruct (RNG.random rng) as [r0 rng1]. unfold snd in Hst.
  destruct (scanWeights _ _ _); exact Hst.
Qed.

Lemma output_0 rng : RNG.output rng 0 = fst (RNG.nextU32 rng).
Proof. rewrite output_eq. reflexivity. Qed.

Lemma output_1 rng : RNG.output rng 1 = fst (RNG.nextU32 (fst (RNG.nextU32 rng))).
Proof. rewrite output_eq, advance_S, nextU32_state. reflexivity. Qed.

Lemma int_in_range b rng :
  RNG.valid rng -> 0 < b -> fst (RNG.nextU32 rng) <> 4294967295 ->
  0 <= fst (RNG.int b rng) < b.
Proof.
  intros Hv Hb Hdraw.
  pose proof (int_range b rng Hv ltac:(lia)).
  pose proof (proj2 (int_lt_iff b rng Hv Hb) Hdraw). lia.
Qed.

Lemma in_bounds_nothing g strat rng : in_bounds g (returned strat rng []).
Proof. split; [reflexivity|]. intros key Hkey. inversion Hkey. Qed.

Lemma in_bounds_node g strat rng d :
  0 <= d < N g -> in_bounds g (returned strat rng [Some d]).
Proof.
  intros Hd. split; [reflexivity|]. intros key Hkey.
  apply list_elem_of_singleton in Hkey as ->. eauto.
Qed.

Section InRange.
Variables (g : Graph) (strat : list Z) (M : Matrix) (rng : Z).
Hypothesis Hwf : well_formed g.
Hypothesis HN : 1 <= N g.
Hypothesis Hv : RNG.valid rng.
Hypothesis Hdraw0 : RNG.output rng 0 <> 4294967295.
Hypothesis Hdraw1 : RNG.output rng 1 <> 4294967295.

Lemma node_adj i : 0 <= i < N g -> exists neigh, js_get (adj g) i = Some neigh.
Proof.
  intros Hi. apply js_get_in_range. destruct Hwf as [[_ Hlen] _]. lia.
Qed.

Lemma nonempty_length (neigh : list Z) :
  Z.of_nat (length neigh) <> 0 -> 0 < Z.of_nat (length neigh).
Proof. lia. Qed.

Lemma stepDB_in_bounds w mu : in_bounds g (stepDB g strat M w mu rng).
Proof.
  unfold stepDB. rewrite Payoff.computePayoffs_shaped by apply Hwf.
  pose proof (int_state (N g) rng) as Hrng1.
  pose proof (int_in_range (N g) rng Hv ltac:(lia)) as Hdead.
  rewrite output_0 in Hdraw0. specialize (Hdead Hdraw0).
  destruct (RNG.int (N g) rng) as [dead rng1]. unfold snd in Hrng1. unfold fst in Hdead.
  destruct (node_adj dead Hdead) as [neigh Hneigh]. rewrite Hneigh.
  destruct (Z.eqb_spec (Z.of_nat (length neigh)) 0) as [|Hlen];
    [apply in_bounds_nothing|].
  destruct (pickWeightedIndex _ rng1) as [winnerIdx rng2].
  destruct (mutate mu _ rng2) as [childStrat rng3].
  apply in_bounds_node. exact Hdead.
Qed.

Lemma stepImitationFermi_in_bounds Math_exp beta mu :
  in_bounds g (stepImitationFermi Math_exp g strat M beta mu rng).
Proof.
  unfold stepImitationFermi. rewrite Payoff.computePayoffs_shaped by apply Hwf.
  pose proof (int_in_range (N g) rng Hv ltac:(lia)) as Hi.
  rewrite output_0 in Hdraw0. specialize (Hi Hdraw0).
  destruct (RNG.int (N g) rng) as [i rng1]. unfold fst in Hi.
  destruct (node_adj i Hi) as [neigh Hneigh]. rewrite Hneigh.
  destruct (Z.eqb_spec (Z.of_nat (length neigh)) 0) as [|Hlen];
    [apply in_bounds_nothing|].
  destruct (RNG.int _ rng1) as [k rng2].
  destruct (RNG.random rng2) as [r rng3].
  destruct (nlt _ _); [|apply in_bounds_nothing].
  destruct (mutate mu _ rng3) as [s rng4].
  apply in_bounds_node. exact Hi.
Qed.

Lemma stepBD_in_bounds w mu : in_bounds g (stepBD g strat M w mu rng).
Proof.
  unfold stepBD. rewrite Payoff.computePayoffs_shaped by apply Hwf.
  set (fitAll := map _ (seqZ 0 (N g))).
  assert (Hlen : Z.of_nat (length fitAll) = N g).
  { unfold fitAll. rewrite length_map, length_seqZ. lia. }
  assert (Hne : fitAll <> []).
  { intros E. rewrite E in Hlen. simpl in Hlen. lia. }
  rewrite output_0 in Hdraw0. rewrite output_1 in Hdraw1.
  pose proof (pickWeightedIndex_in_range fitAll rng Hv Hne Hdraw0) as Hparent.
  pose proof (pickWeightedIndex_state fitAll rng) as Hrng1.
  destruct (pickWeightedIndex fitAll rng) as [parent rng1].
  unfold fst in Hparent. unfold snd in Hrng1. rewrite Hlen in Hparent.
  destruct (node_adj parent Hparent) as [neigh Hneigh]. rewrite Hneigh.
  destruct (Z.eqb_spec (Z.of_nat (length neigh)) 0) as [|Hnz];
    [apply in_bounds_nothing|].
  assert (Hk : 0 <= fst (RNG.int (Z.of_nat (length neigh)) rng1)
               < Z.of_nat (length neigh)).
  { apply int_in_range; [|lia|].
    - subst rng1. apply nextU32_valid. exact Hv.
    - subst rng1. exact Hdraw1. }
  destruct (RNG.int _ rng1) as [k rng2]. unfold fst in Hk.
  destruct (js_get_in_range neigh k Hk) as [dead Hdead]. rewrite Hdead.
  destruct (mutate mu _ rng2) as [childStrat rng3].
  apply in_bounds_node. destruct Hwf as [_ Hnb].
  eapply Hnb; [exact Hneigh|]. eapply Payoff.js_get_elem; eassumption.
Qed.

End InRange.

End Bounds.

(** On a well-formed graph with at least one node, when neither of the
    first two draws is [0xFFFFFFFF], each rule returns normally and the
    only key it may assign is a node of the graph. *)
Theorem rules_in_bounds Math_exp g strat M w mu rng :
  well_formed g -> 1 <= N g -> RNG.valid rng ->
  RNG.output rng 0 <> 4294967295 -> RNG.output rng 1 <> 4294967295 ->
  in_bounds g (stepDB g strat M w mu rng) /\
  in_bounds g (stepBD g strat M w mu rng) /\
  in_bounds g (stepImitationFermi Math_exp g strat M w mu rng).
Proof.
  intros Hwf HN Hv H0 H1. split; [|split].
  - apply Bounds.stepDB_in_bounds; assumption.
  - apply Bounds.stepBD_in_bounds; assumption.
  - apply Bounds.stepImitationFermi_in_bounds; assumption.
Qed.

Lemma pairGraph_well_formed : well_formed pairGraph.
Proof.
  split; [split; reflexivity|]. intros i ai j Hai Hj.
  unfold js_get in Hai. destruct (Z.ltb_spec i 0); [discriminate|].
  simpl in Hai. destruct (Z.to_nat i) as [|[|k]]; simpl in Hai; try discriminate;
    injection Hai as <-; apply list_elem_of_singleton in Hj as ->; simpl; lia.
Defined.

Lemma rules_in_bounds_witness :
  in_bounds pairGraph (stepDB pairGraph [1; 0] (donationToMatrix (Fin 3) (Fin 1))
                         (Fin (1 # 2)) (Fin 0) 1) /\
  in_bounds pairGraph (stepBD pairGraph [1; 0] (donationToMatrix (Fin 3) (Fin 1))
                         (Fin (1 # 2)) (Fin 0) 1) /\
  in_bounds pairGraph (stepImitationFermi (fun _ => Fin 1) pairGraph [1; 0]
                         (donationToMatrix (Fin 3) (Fin 1)) (Fin (1 # 2)) (Fin 0) 1).
Proof.
  apply (rules_in_bounds (fun _ => Fin 1) pairGraph [1; 0]
           (donationToMatrix (Fin 3) (Fin 1)) (Fin (1 # 2)) (Fin 0) 1).
  - exact pairGraph_well_formed.
  - simpl. lia.
  - unfold RNG.valid. lia.
  - vm_compute. discriminate.
  - vm_compute. discriminate.
Defined.

Lemma fixation_preserved_witness :
  strat_after (stepBD pairGraph [1; 1] (donationToMatrix (Fin 1) (Fin 1))
                 (Fin 1) (Fin 0) 3764646662) = [1; 1] /\
  strat_after (stepImitationFermi (fun x => match x with NaN => NaN | _ => Fin 1 end)
                 pairGraph [1; 1] (donationToMatrix (Fin 1) (Fin 1))
                 (Fin 1) (Fin 0) 3764646662) = [1; 1] /\
  (RNG.output 3764646662 1 <> 4294967295 ->
   strat_after (stepDB pairGraph [1; 1] (donationToMatrix (Fin 1) (Fin 1))
                  (Fin 1) (Fin 0) 3764646662) = [1; 1]).
Proof.
  apply (fixation_preserved (fun x => match x with NaN => NaN | _ => Fin 1 end)
           pairGraph [1; 1] (donationToMatrix (Fin 1) (Fin 1)) (Fin 1) 3764646662).
  - exact pairGraph_well_formed.
  - split; [reflexivity|]. intros s Hs.
    repeat (apply elem_of_cons in Hs as [->|Hs]; [lia|]). inversion Hs.
  - reflexivity.
  - reflexivity.
  - unfold RNG.valid. lia.
Defined.

Module Complete.
Import Graph GraphFacts Built RNGFacts Erdos.

Lemma ratio_below_one x :
  1 <= x < 2 ^ 32 -> x <> 4294967295 ->
  Qltb (inject_Z x / inject_Z 4294967295) 1 = true.
Proof.
  intros Hr Hx. unfold Qltb.
  apply negb_true_iff. apply not_true_is_false. intros Hle.
  apply Qle_bool_iff in Hle.
  unfold Qle, Qdiv, Qmult, Qinv, inject_Z in Hle. cbn in Hle.
  rewrite ?Pos.mul_1_l, ?Z.mul_1_r in Hle. lia.
Qed.

Lemma random_fst s :
  fst (RNG.random s) = (inject_Z (fst (RNG.nextU32 s)) / inject_Z 4294967295)%Q.
Proof. rewrite random_eq. reflexivity. Qed.

Lemma below_one s :
  RNG.valid s -> fst (RNG.nextU32 s) <> 4294967295 ->
  nlt (Fin (fst (RNG.random s))) (Fin 1) = true.
Proof.
  intros Hv Hdraw. rewrite random_fst.
  apply ratio_below_one; [apply nextU32_valid; exact Hv|exact Hdraw].
Qed.

Lemma output_advance a k s : RNG.output (RNG.advance a s) k = RNG.output s (a + k).
Proof. rewrite !output_eq, advance_add. reflexivity. Qed.

Lemma output_front k s : RNG.output s (S k) = RNG.output (snd (RNG.nextU32 s)) k.
Proof. rewrite !output_eq, advance_front. reflexivity. Qed.

Section Loops.
Variable n : Z.

(** With [p = 1] and no draw equal to [0xFFFFFFFF], a row adds every
    candidate. *)
Lemma full_row i l : forall g rng,
  RNG.valid rng ->
  (forall k, (k < length l)%nat -> RNG.output rng k <> 4294967295) ->
  foldM (fun j '(g, rng) =>
           let '(r, rng) := RNG.random rng in
           if nlt (Fin r) (Fin 1)
           then do g <- addEdge g i j; Ok (g, rng)
           else Ok (g, rng)) l (g, rng)
  = (do g' <- addEdges ((fun j => (i, j)) <$> l) g;
     Ok (g', RNG.advance (length l) rng)).
Proof.
  induction l as [|j l IH]; intros g rng Hv Hdraws; [reflexivity|].
  cbn [foldM length fmap list_fmap]. unfold addEdges. cbn [foldM].
  rewrite advance_front.
  pose proof (random_state rng) as Hst.
  pose proof (below_one rng Hv) as Hlt.
  rewrite <- Bounds.output_0 in Hlt. specialize (Hlt (Hdraws 0%nat ltac:(simpl; lia))).
  destruct (RNG.random rng) as [r rng1]. unfold snd in Hst. unfold fst in Hlt.
  rewrite Hlt, nextU32_state, <- Hst. unfold addE at 1. cbn [fst snd].
  destruct (addEdge g i j) as [g1|e]; [|reflexivity]. cbn [rbind].
  apply IH.
  - subst rng1. apply nextU32_valid. exact Hv.
  - intros k Hk. subst rng1. rewrite <- nextU32_state, <- output_front.
    apply Hdraws. simpl. lia.
Qed.

Lemma full_rows l : forall g rng,
  RNG.valid rng ->
  (forall k, (k < candidates n l)%nat -> RNG.output rng k <> 4294967295) ->
  foldM (fun i st =>
           for_range (i + 1) n (fun j '(g, rng) =>
             let '(r, rng) := RNG.random rng in
             if nlt (Fin r) (Fin 1)
             then do g <- addEdge g i j; Ok (g, rng)
             else Ok (g, rng)) st) l (g, rng)
  = (do g' <- addEdges (l ≫= (fun i => seqZ (i + 1) (n - (i + 1)) ≫= (fun j => [(i, j)]))) g;
     Ok (g', RNG.advance (candidates n l) rng)).
Proof.
  induction l as [|i l IH]; intros g rng Hv Hdraws; [reflexivity|].
  change (candidates n (i :: l))
    with (Z.to_nat (n - (i + 1)) + candidates n l)%nat in *.
  cbn [foldM]. unfold for_range at 1.
  rewrite full_row; [|exact Hv|].
  - change ((i :: l) ≫= ?f) with (f i ++ (l ≫= f)).
    unfold addEdges. rewrite foldM_app.
    replace (seqZ (i + 1) (n - (i + 1)) ≫= (fun j => [(i, j)]))
      with ((fun j => (i, j)) <$> seqZ (i + 1) (n - (i + 1))).
    + fold (addEdges ((fun j => (i, j)) <$> seqZ (i + 1) (n - (i + 1))) g).
      destruct (addEdges _ g) as [g1|e]; [|reflexivity]. cbn [rbind].
      rewrite length_seqZ, advance_add.
      apply IH.
      * apply advance_valid. exact Hv.
      * intros k Hk. rewrite output_advance. apply Hdraws. lia.
    + generalize (seqZ (i + 1) (n - (i + 1))). intros l'.
      induction l' as [|j l' IH']; [reflexivity|].
      change ((j :: l') ≫= ?f) with (f j ++ (l' ≫= f)).
      rewrite fmap_cons, IH'. reflexivity.
  - intros k Hk. apply Hdraws. rewrite length_seqZ in Hk. lia.
Qed.

End Loops.

Lemma elem_of_candidatePairs n a b :
  (a, b) ∈ candidatePairs n <-> 0 <= a /\ a < b < n.
Proof.
  unfold candidatePairs. rewrite list_elem_of_bind. split.
  - intros (i & Hab & Hi). apply elem_of_seqZ in Hi.
    apply list_elem_of_bind in Hab as (j & Hab & Hj). apply elem_of_seqZ in Hj.
    apply list_elem_of_singleton in Hab. injection Hab as -> ->. lia.
  - intros (Ha & Hb). exists a. split; [|apply elem_of_seqZ; lia].
    apply list_elem_of_bind. exists b. split; [constructor|apply elem_of_seqZ; lia].
Qed.

Lemma elem_of_others n i j : 0 <= i < n -> j ∈ others n i <-> 0 <= j < n /\ j <> i.
Proof. intros Hi. unfold others. rewrite elem_of_app, !elem_of_seqZ. lia. Qed.

Lemma others_NoDup n i : NoDup (others n i).
Proof.
  unfold others. apply NoDup_app. split; [apply NoDup_seqZ|]. split; [|apply NoDup_seqZ].
  intros j. rewrite !elem_of_seqZ. lia.
Qed.

Lemma others_length n i : 0 <= i < n -> Z.of_nat (length (others n i)) = n - 1.
Proof. intros Hi. unfold others. rewrite length_app, !length_seqZ. lia. Qed.

End Complete.

(** With [p = 1], and no draw of the edge loop equal to [0xFFFFFFFF],
    [makeErdosRenyi] returns the complete graph: every node has degree
    [N - 1] and the edge count is [N(N-1)/2]. *)
Theorem erdos_p1_complete (n : Z) (rng : Z) :
  0 <= n -> RNG.valid rng ->
  (forall k, (k < Z.to_nat (n * (n - 1) / 2))%nat -> RNG.output rng k <> 4294967295) ->
  exists g rng' q,
    makeErdosRenyi n (Fin 1) rng = Ok (g, rng') /\
    (forall i, 0 <= i < n -> Graph.degree g i = Ok (n - 1)) /\
    Graph.edgeCount g = Ok q /\ (q == inject_Z (n * (n - 1)) / 2)%Q.
Proof.
  intros Hn Hv Hdraws.
  assert (Hcount : candidates n (seqZ 0 (n - 0)) = Z.to_nat (n * (n - 1) / 2)).
  { apply Nat2Z.inj. rewrite (Erdos.candidates_rows n (Z.to_nat n) 0) by lia.
    rewrite Z2Nat.id; [f_equal; lia|]. apply Z.div_pos; nia. }
  destruct (Built.addEdges_holds n (candidatePairs n) [] (Graph.constructor n))
    as (g & Hg & Hholds).
  { apply Built.holds_edges_empty. }
  { intros u v Huv. apply Complete.elem_of_candidatePairs in Huv. lia. }
  rewrite app_nil_l in Hholds.
  assert (Hdeg : forall i, 0 <= i < n -> Graph.degree g i = Ok (n - 1)).
  { intros i Hi. rewrite <- (Complete.others_length n i Hi).
    apply (Built.holds_edges_degree n (candidatePairs n)); auto using Complete.others_NoDup.
    intros j. rewrite Complete.elem_of_others, !Complete.elem_of_candidatePairs by exact Hi.
    lia. }
  destruct (Built.edgeCount_regular n g (n - 1) Hn (proj1 Hholds) Hdeg) as (q & Hq & Heq).
  exists g. eexists. exists q. split; [|split; [exact Hdeg|split; [exact Hq|exact Heq]]].
  unfold makeErdosRenyi, erdosRenyiEdges, for_range at 1.
  rewrite Complete.full_rows; [|exact Hv|rewrite Hcount; exact Hdraws].
  fold (candidatePairs n). rewrite Hg. reflexivity.
Qed.

Lemma erdos_p1_complete_witness :
  exists g rng' q,
    makeErdosRenyi 4 (Fin 1) 1 = Ok (g, rng') /\
    (forall i, 0 <= i < 4 -> Graph.degree g i = Ok (4 - 1)) /\
    Graph.edgeCount g = Ok q /\ (q == inject_Z (4 * (4 - 1)) / 2)%Q.
Proof.
  apply (erdos_p1_complete 4 1); [lia|unfold RNG.valid; lia|].
  intros k Hk. change (Z.to_nat (4 * (4 - 1) / 2)) with 6%nat in Hk.
  do 6 (destruct k as [|k]; [vm_compute; discriminate|]). lia.
Defined.

(** ** The fixation experiment *)

(** When the experiment returns, its three counters add up to the number
    of trials. *)
Theorem runFixation_counts Math_exp g M which intensity trials maxSteps baseSeed
    fixC fixD timeout :
  runFixation Math_exp g M which intensity trials maxSteps baseSeed
    = Ok (fixC, fixD, timeout) ->
  fixC + fixD + timeout = Z.max 0 trials.
Proof.
  unfold runFixation, for_range. rewrite Z.sub_0_r.
  assert (Hloop : forall l c d t c' d' t',
            foldM (fun tr '(fixC, fixD, timeout) =>
                     do o <- runTrial Math_exp g M which intensity baseSeed maxSteps tr;
                     Ok (match o with
                         | AllCooperate => (fixC + 1, fixD, timeout)
                         | AllDefect => (fixC, fixD + 1, timeout)
                         | Timeout => (fixC, fixD, timeout + 1)
                         end)) l (c, d, t) = Ok (c', d', t') ->
            c' + d' + t' = c + d + t + Z.of_nat (length l)).
  { induction l as [|tr l IH]; intros c d t c' d' t'; cbn [foldM].
    - intros [= <- <- <-]. simpl. lia.
    - destruct (runTrial _ _ _ _ _ _ _ tr) as [o|e]; [|discriminate].
      cbn [rbind]. destruct o; intros H; apply IH in H; simpl length; lia. }
  intros H. apply Hloop in H. rewrite length_seqZ in H. lia.
Qed.

Lemma runFixation_counts_witness :
  exists fixC fixD timeout,
    runFixation (fun _ => Fin 1) pairGraph (donationToMatrix (Fin 3) (Fin 1)) DB
                (Fin (1 # 10)) 4 50 1 = Ok (fixC, fixD, timeout) /\
    fixC + fixD + timeout = Z.max 0 4.
Proof.
  eexists; eexists; eexists. split; [vm_compute; reflexivity|].
  refine (runFixation_counts (fun _ => Fin 1) pairGraph
            (donationToMatrix (Fin 3) (Fin 1)) DB (Fin (1 # 10)) 4 50 1 _ _ _ _).
  vm_compute; reflexivity.
Defined.

(** ** Graph.addEdge, edgeCount and avgDegree *)

Module Edges.
Import Graph GraphFacts Built.

Lemma foldM_total {A S} (I : S -> Prop) (body : A -> S -> result S) l : forall s,
  (forall a t, a ∈ l -> I t -> exists t', body a t = Ok t' /\ I t') ->
  I s -> exists s', foldM body l s = Ok s' /\ I s'.
Proof.
  induction l as [|a l IH]; intros s Hbody Hs; cbn [foldM].
  - eauto.
  - destruct (Hbody a s) as (t & -> & Ht); [left | assumption |].
    cbn [rbind]. apply IH; [|assumption].
    intros b t' Hb. apply Hbody. now right.
Qed.

Lemma insert_add_new (a : list (list Z)) u l x :
  a !! Z.to_nat u = Some l ->
  (if includes l x then a else push a u l x) = <[Z.to_nat u := add_new l x]> a.
Proof.
  intros H. unfold add_new, push.
  destruct (includes l x); [symmetry; now apply list_insert_id | reflexivity].
Qed.

Lemma js_get_lookup {A} (a : list A) i x :
  js_get a i = Some x -> a !! Z.to_nat i = Some x.
Proof. unfold js_get. destruct (i <? 0); [discriminate | auto]. Qed.

Lemma addEdge_adj g u v g' :
  addEdge g u v = Ok g' -> u <> v ->
  exists au av,
    js_get (adj g) u = Some au /\ js_get (adj g) v = Some av /\
    N g' = N g /\
    adj g' = <[Z.to_nat v := add_new av u]> (<[Z.to_nat u := add_new au v]> (adj g)).
Proof.
  intros H Huv. unfold addEdge in H.
  destruct (Z.eqb_spec u v) as [|_]; [contradiction|].
  destruct (js_get (adj g) u) as [au|] eqn:Hu; [|discriminate].
  pose proof (js_get_Some _ _ _ Hu) as Hur.
  rewrite (insert_add_new _ _ _ _ (js_get_lookup _ _ _ Hu)) in H.
  destruct (js_get (<[Z.to_nat u := add_new au v]> (adj g)) v) as [av|] eqn:Hv;
    [|discriminate].
  rewrite (insert_add_new _ _ _ _ (js_get_lookup _ _ _ Hv)) in H.
  rewrite js_get_insert_ne in Hv by lia.
  injection H as <-. exists au, av. auto.
Qed.

Lemma addEdge_again g u v g' :
  addEdge g u v = Ok g' -> addEdge g' u v = Ok g' /\ addEdge g' v u = Ok g'.
Proof.
  intros H. destruct (addEdge_Ok _ _ _ _ H) as [[-> ->] | (Huv & au & av & Hu & Hv & HN & Hlen & Hget)].
  - unfold addEdge. rewrite Z.eqb_refl. auto.
  - assert (Hu' : js_get (adj g') u = Some (add_new au v)).
    { rewrite Hget. destruct (decide (u = u)); [reflexivity | contradiction]. }
    assert (Hv' : js_get (adj g') v = Some (add_new av u)).
    { rewrite Hget. destruct (decide (v = u)); [congruence|].
      destruct (decide (v = v)); [reflexivity | contradiction]. }
    assert (Hiu : includes (add_new au v) v = true).
    { apply includes_true, elem_of_add_new. now right. }
    assert (Hiv : includes (add_new av u) u = true).
    { apply includes_true, elem_of_add_new. now right. }
    unfold addEdge.
    destruct (Z.eqb_spec u v) as [|_]; [contradiction|].
    destruct (Z.eqb_spec v u) as [|_]; [congruence|].
    rewrite Hu', Hv', Hiu, Hiv, Hu', Hv', Hiu, Hiv.
    destruct g'; auto.
Qed.

Lemma addEdge_TypeError g u v :
  u <> v ->
  addEdge g u v = Err TypeError <->
  ~ (0 <= u < Z.of_nat (length (adj g)) /\ 0 <= v < Z.of_nat (length (adj g))).
Proof.
  intros Huv. split.
  - intros H [Hu Hv]. destruct (addEdge_returns g u v Hu Hv) as [g' Hg']. congruence.
  - intros Hn. destruct (addEdge g u v) as [g'|e] eqn:H.
    + exfalso. apply Hn.
      destruct (addEdge_Ok _ _ _ _ H) as [[? _] | (_ & au & av & Hu & Hv & _)];
        [contradiction|].
      split; eapply js_get_Some; eassumption.
    + f_equal. eapply addEdge_error; eassumption.
Qed.

(** *** Sums over the rows of the adjacency array *)

Lemma sum_imap_insert (f : nat -> list Z -> nat) a : forall f' u x au,
  (forall i y, f' i y = f i y) ->
  a !! u = Some au ->
  (sum_list (imap f' (<[u := x]> a)) + f u au = sum_list (imap f' a) + f u x)%nat.
Proof.
  revert f. induction a as [|y a IH]; intros f f' u x au Hf Hu; [discriminate|].
  destruct u as [|u]; cbn in Hu |- *.
  - injection Hu as ->. rewrite !Hf. lia.
  - rewrite Hf.
    pose proof (IH (fun i => f (S i)) (f' ∘ S) u x au (fun i y => Hf (S i) y) Hu) as E.
    cbv beta in E. rewrite <- !Nat.add_assoc. f_equal. exact E.
Qed.

Lemma sum_imap_replicate (f : nat -> list Z -> nat) n :
  (forall i, f i [] = 0%nat) -> sum_list (imap f (replicate n [])) = 0%nat.
Proof.
  revert f. induction n as [|n IH]; intros f Hf; [reflexivity|].
  cbn. rewrite Hf, IH; [reflexivity|]. intros i. apply Hf.
Qed.

Lemma degreeSum_imap a : degreeSum a = sum_list (imap (fun _ ai => length ai) a).
Proof. unfold degreeSum. symmetry. f_equal. apply (imap_const length). Qed.

Lemma length_filter_snoc (P : Z -> Prop) `{!forall x, Decision (P x)} l x :
  length (filter P (l ++ [x])) = (length (filter P l) + if decide (P x) then 1 else 0)%nat.
Proof.
  rewrite filter_app, length_app. f_equal.
  rewrite filter_cons, filter_nil. destruct (decide (P x)); reflexivity.
Qed.

Lemma addEdge_counted g u v g' :
  addEdge g u v = Ok g' -> counted g -> counted g'.
Proof.
  intros H [Hs Hc]. split; [eapply addEdge_simple; eassumption|].
  destruct (decide (u = v)) as [->|Huv].
  { unfold addEdge in H. rewrite Z.eqb_refl in H. injection H as <-. exact Hc. }
  destruct (addEdge_adj _ _ _ _ H Huv) as (au & av & Hu & Hv & _ & ->).
  pose proof (js_get_Some _ _ _ Hu) as Hur. pose proof (js_get_Some _ _ _ Hv) as Hvr.
  assert (Hlu : adj g !! Z.to_nat u = Some au).
  { unfold js_get in Hu. destruct (u <? 0); [discriminate | exact Hu]. }
  assert (Hlv : adj g !! Z.to_nat v = Some av).
  { unfold js_get in Hv. destruct (v <? 0); [discriminate | exact Hv]. }
  destruct Hs as (Hsym & _ & _).
  assert (Hiff : v ∈ au <-> u ∈ av).
  { split; intros Hin.
    - destruct (proj1 (Hsym u v)) as (av' & Hv' & Hin'); [exists au; auto|].
      congruence.
    - destruct (proj2 (Hsym u v)) as (au' & Hu' & Hin'); [exists av; auto|].
      congruence. }
  unfold add_new. destruct (includes au v) eqn:Hi.
  - apply includes_true in Hi. apply Hiff in Hi as Hi'. apply includes_true in Hi'.
    rewrite Hi'. rewrite (list_insert_id (adj g) _ _ Hlu), (list_insert_id (adj g) _ _ Hlv).
    exact Hc.
  - assert (Hi' : includes av u = false).
    { destruct (includes av u) eqn:E; [|reflexivity].
      apply includes_true, Hiff, includes_true in E. congruence. }
    rewrite Hi'.
    assert (Hlv1 : <[Z.to_nat u := au ++ [v]]> (adj g) !! Z.to_nat v = Some av).
    { rewrite list_lookup_insert_ne by lia. exact Hlv. }
    rewrite !degreeSum_imap in *. unfold upperSum in *.
    pose proof (sum_imap_insert (fun _ ai => length ai) _ (fun _ ai => length ai)
                  _ (av ++ [u]) av (fun _ _ => eq_refl) Hlv1) as D2.
    pose proof (sum_imap_insert (fun _ ai => length ai) _ (fun _ ai => length ai)
                  _ (au ++ [v]) au (fun _ _ => eq_refl) Hlu) as D1.
    pose proof (sum_imap_insert
                  (fun i ai => length (filter (fun j => Z.of_nat i < j) ai)) _
                  (fun i ai => length (filter (fun j => Z.of_nat i < j) ai))
                  _ (av ++ [u]) av (fun _ _ => eq_refl) Hlv1) as U2.
    pose proof (sum_imap_insert
                  (fun i ai => length (filter (fun j => Z.of_nat i < j) ai)) _
                  (fun i ai => length (filter (fun j => Z.of_nat i < j) ai))
                  _ (au ++ [v]) au (fun _ _ => eq_refl) Hlu) as U1.
    cbv beta in D1, D2, U1, U2.
    rewrite !length_app in D1, D2. cbn [length] in D1, D2.
    rewrite length_filter_snoc in U1, U2.
    rewrite !Z2Nat.id in U1, U2 by lia.
    destruct (decide (u < v)), (decide (v < u)); lia.
Qed.

Lemma constructor_counted n : counted (constructor n).
Proof.
  split; [apply constructor_simple|].
  unfold constructor, upperSum. cbn [adj]. rewrite degreeSum_imap.
  rewrite !sum_imap_replicate; auto.
Qed.

(** *** The loop of [edgeCount] and [avgDegree] *)

Lemma degree_loop g a : forall pre sum,
  adj g = pre ++ a ->
  foldM (fun i sum => do d <- degree g i; Ok (sum + d))
        (seqZ (Z.of_nat (length pre)) (Z.of_nat (length a))) sum
  = Ok (sum + Z.of_nat (degreeSum a)).
Proof.
  induction a as [|x a IH]; intros pre sum Hadj.
  - cbn. f_equal. unfold degreeSum. cbn. lia.
  - replace (Z.of_nat (length (x :: a))) with (Z.succ (Z.of_nat (length a)))
      by (cbn [length]; lia).
    rewrite seqZ_cons by lia. rewrite Z.pred_succ. cbn [foldM].
    assert (Hd : degree g (Z.of_nat (length pre)) = Ok (Z.of_nat (length x))).
    { unfold degree, js_get. destruct (Z.ltb_spec (Z.of_nat (length pre)) 0); [lia|].
      rewrite Nat2Z.id, Hadj, lookup_app_r by lia.
      now rewrite Nat.sub_diag. }
    rewrite Hd. cbn [rbind].
    replace (Z.succ (Z.of_nat (length pre))) with (Z.of_nat (length (pre ++ [x])))
      by (rewrite length_app; cbn [length]; lia).
    rewrite IH by (rewrite <- app_assoc; exact Hadj).
    f_equal. unfold degreeSum. cbn. lia.
Qed.

Lemma degree_loop_shaped n g :
  shaped n g ->
  for_range 0 (N g) (fun i sum => do d <- degree g i; Ok (sum + d)) 0
  = Ok (Z.of_nat (degreeSum (adj g))).
Proof.
  intros [HN Hlen]. unfold for_range.
  replace (seqZ 0 (N g - 0)) with (seqZ (Z.of_nat (length (@nil (list Z)))) (Z.of_nat (length (adj g)))).
  - rewrite (degree_loop g (adj g) [] 0) by reflexivity. f_equal.
  - cbn [length]. unfold seqZ. rewrite Hlen, HN, Nat2Z.id. f_equal. f_equal. lia.
Qed.

(** *** The list of edges *)

Lemma length_mjoin_imap {A B} (f : nat -> A -> list B) a :
  length (mjoin (imap f a)) = sum_list (imap (fun i x => length (f i x)) a).
Proof.
  revert f. induction a as [|x a IH]; intros f; [reflexivity|].
  cbn. rewrite length_app, IH. reflexivity.
Qed.

Lemma length_edges g : length (edges g) = upperSum (adj g).
Proof.
  unfold edges, upperSum. rewrite length_mjoin_imap.
  f_equal. apply imap_ext. intros i x _. cbv beta. now rewrite length_fmap.
Qed.

Lemma elem_of_edges g i j : (i, j) ∈ edges g <-> i < j /\ neighbor g i j.
Proof.
  unfold edges, neighbor. rewrite list_elem_of_join. split.
  - intros (l & Hin & Hl). apply elem_of_lookup_imap in Hl as (k & ai & -> & Hk).
    apply list_elem_of_fmap in Hin as (j' & [= -> ->] & Hj).
    apply list_elem_of_filter in Hj as [Hlt Hj]. split; [exact Hlt|].
    exists ai. split; [|exact Hj].
    unfold js_get. destruct (Z.ltb_spec (Z.of_nat k) 0); [lia|]. now rewrite Nat2Z.id.
  - intros (Hlt & ai & Hi & Hj).
    pose proof (js_get_Some _ _ _ Hi) as Hr.
    unfold js_get in Hi. destruct (Z.ltb_spec i 0); [lia|].
    exists ((fun j => (Z.of_nat (Z.to_nat i), j))
              <$> filter (fun j => Z.of_nat (Z.to_nat i) < j) ai).
    split.
    + apply list_elem_of_fmap. exists j. rewrite Z2Nat.id by lia. split; [reflexivity|].
      apply list_elem_of_filter. auto.
    + apply elem_of_lookup_imap. eauto.
Qed.

Lemma NoDup_rows (l : list (list Z)) : forall off : nat,
  (forall i ai, l !! i = Some ai -> NoDup ai) ->
  NoDup (mjoin (imap (fun i ai => (fun j => (Z.of_nat (off + i), j))
                  <$> filter (fun j => Z.of_nat (off + i) < j) ai) l)) /\
  forall p, p ∈ mjoin (imap (fun i ai => (fun j => (Z.of_nat (off + i), j))
                  <$> filter (fun j => Z.of_nat (off + i) < j) ai) l) ->
            Z.of_nat off <= fst p.
Proof.
  induction l as [|ai l IH]; intros off Hl.
  - cbn. split; [constructor | intros p Hp; inversion Hp].
  - cbn [imap mjoin list_join].
    destruct (IH (S off) (fun i ai' H => Hl (S i) ai' H)) as [IH1 IH2].
    assert (E : imap ((fun i ai0 => (fun j => (Z.of_nat (off + i), j))
                         <$> filter (fun j => Z.of_nat (off + i) < j) ai0) ∘ S) l
                = imap (fun i ai0 => (fun j => (Z.of_nat (S off + i), j))
                         <$> filter (fun j => Z.of_nat (S off + i) < j) ai0) l).
    { apply imap_ext. intros i x _. cbn [compose].
      replace (off + S i)%nat with (S off + i)%nat by lia. reflexivity. }
    rewrite E. split.
    + apply NoDup_app. split; [|split].
      * apply NoDup_fmap_2; [intros ? ? [= ->]; reflexivity|].
        apply NoDup_filter. apply (Hl 0%nat). reflexivity.
      * intros p Hp Hq. apply IH2 in Hq.
        apply list_elem_of_fmap in Hp as (j & -> & _). cbn [fst] in Hq. lia.
      * exact IH1.
    + intros p Hp. apply elem_of_app in Hp as [Hp|Hp].
      * apply list_elem_of_fmap in Hp as (j & -> & _). cbn [fst]. lia.
      * apply IH2 in Hp. lia.
Qed.

Lemma NoDup_edges g : no_duplicates g -> NoDup (edges g).
Proof.
  intros Hnd. unfold edges.
  apply (NoDup_rows (adj g) 0%nat). intros i ai Hi.
  apply (Hnd (Z.of_nat i)). unfold js_get.
  destruct (Z.ltb_spec (Z.of_nat i) 0); [lia|]. now rewrite Nat2Z.id.
Qed.

End Edges.

(** [Graph.addEdge]: a call with [u = v] changes nothing, whatever [u] is;
    a call with [u <> v] throws a [TypeError] exactly when one of the two
    is not a node, and otherwise makes each the other's neighbor, adds no
    other neighbor, leaves every other adjacency list as it was, and is
    idempotent in both argument orders. *)
Theorem addEdge_contract (g : Graph) (u v : Z) :
  Graph.addEdge g u u = Ok g /\
  (u <> v ->
   (Graph.addEdge g u v = Err TypeError <->
    ~ (0 <= u < Z.of_nat (length (adj g)) /\ 0 <= v < Z.of_nat (length (adj g)))) /\
   (Graph.addEdge g u v <> Err InvalidParameter) /\
   forall g', Graph.addEdge g u v = Ok g' ->
     (forall i j, neighbor g' i j <->
                  neighbor g i j \/ (i = u /\ j = v) \/ (i = v /\ j = u)) /\
     (forall i, i <> u -> i <> v -> js_get (adj g') i = js_get (adj g) i) /\
     Graph.addEdge g' u v = Ok g' /\ Graph.addEdge g' v u = Ok g').
Proof.
  split.
  - unfold Graph.addEdge. now rewrite Z.eqb_refl.
  - intros Huv. split; [apply Edges.addEdge_TypeError; exact Huv|]. split.
    + intros H. pose proof (Built.addEdge_error _ _ _ _ H). discriminate.
    + intros g' H. split; [|split].
      * intros i j. rewrite (GraphFacts.addEdge_neighbor _ _ _ _ H). tauto.
      * intros i Hiu Hiv.
        destruct (GraphFacts.addEdge_Ok _ _ _ _ H)
          as [[? _] | (_ & au & av & _ & _ & _ & _ & Hget)]; [contradiction|].
        rewrite Hget. destruct (decide (i = u)); [contradiction|].
        destruct (decide (i = v)); [contradiction | reflexivity].
      * exact (Edges.addEdge_again _ _ _ _ H).
Qed.

(** For every graph a generator returns, [edgeCount()] is a whole number:
    the number of pairs [i < j] with [j] listed in [adj[i]], each pair
    occurring once; [avgDegree()] is twice that number divided by [N]
    ([NaN] when [N = 0]). *)
Theorem edgeCount_counts_edges fuel type n rng g rng' :
  generate fuel type n rng = Some (Ok (g, rng')) ->
  (forall i j, (i, j) ∈ edges g <-> i < j /\ neighbor g i j) /\
  NoDup (edges g) /\
  (exists q, Graph.edgeCount g = Ok q /\ (q == inject_Z (Z.of_nat (length (edges g))))%Q) /\
  (exists a, avgDegree g = Ok a /\
             (n = 0 -> a = NaN) /\
             (n <> 0 -> num_eq a (Fin (inject_Z (2 * Z.of_nat (length (edges g)))
                                       / inject_Z n)))).
Proof.
  intros H.
  pose proof (Generators.generate_inv counted Edges.addEdge_counted n
                (Edges.constructor_counted n) _ _ _ _ _ H) as [Hs Hc].
  pose proof (Generators.generate_inv (shaped n)
                (fun g u v g' E => GraphFacts.addEdge_shaped n g u v g' E) n
                (GraphFacts.constructor_shaped n) _ _ _ _ _ H) as Hsh.
  assert (HN : N g = n) by apply Hsh.
  assert (Hloop := Edges.degree_loop_shaped n g Hsh).
  rewrite Hc, <- Edges.length_edges in Hloop.
  split; [intros; apply Edges.elem_of_edges|].
  split; [apply Edges.NoDup_edges, Hs|].
  split.
  - unfold Graph.edgeCount. rewrite Hloop. cbn [rbind]. eexists. split; [reflexivity|].
    rewrite Nat2Z.inj_mul, inject_Z_mult. change (inject_Z (Z.of_nat 2)) with 2%Q. field.
  - unfold avgDegree. rewrite Hloop. cbn [rbind]. eexists. split; [reflexivity|].
    rewrite HN. split.
    + intros ->. reflexivity.
    + intros Hn. destruct (Z.eqb_spec n 0); [contradiction|].
      cbn [num_eq]. now rewrite Nat2Z.inj_mul.
Qed.

Lemma edgeCount_counts_edges_witness :
  exists g rng',
    generate 100 (ba 3 2) 8 1 = Some (Ok (g, rng')) /\
    NoDup (edges g) /\
    (exists q, Graph.edgeCount g = Ok q /\ (q == inject_Z (Z.of_nat (length (edges g))))%Q) /\
    length (edges g) = 13%nat.
Proof.
  destruct (generate 100 (ba 3 2) 8 1) as [[[g rng']|e]|] eqn:H;
    [| vm_compute in H; discriminate | vm_compute in H; discriminate].
  exists g, rng'.
  destruct (edgeCount_counts_edges _ _ _ _ _ _ H) as (_ & Hnd & Hq & _).
  split; [reflexivity|]. split; [exact Hnd|]. split; [exact Hq|].
  vm_compute in H. injection H as <- _. vm_compute. reflexivity.
Defined.

(** ** The outcomes of makeRing and makeLattice *)

Module Outcome.
Import Graph GraphFacts Built.

Lemma ring_step_returns n g i d :
  shaped n g -> 0 <= i < n -> 0 <= i + d -> 0 <= i - d + n ->
  exists g', (do g1 <- addEdge g i (js_rem (i + d) n);
              addEdge g1 i (js_rem (i - d + n) n)) = Ok g' /\ shaped n g'.
Proof.
  intros Hs Hi Hj Hh. unfold js_rem.
  pose proof (Z.rem_bound_pos (i + d) n ltac:(lia) ltac:(lia)) as Bj.
  pose proof (Z.rem_bound_pos (i - d + n) n ltac:(lia) ltac:(lia)) as Bh.
  destruct (addEdge_returns g i (Z.rem (i + d) n)) as [g1 H1];
    [eapply shaped_range; eauto; lia | eapply shaped_range; eauto; lia |].
  pose proof (addEdge_shaped _ _ _ _ _ H1 Hs) as Hs1.
  destruct (addEdge_returns g1 i (Z.rem (i - d + n) n)) as [g2 H2];
    [eapply shaped_range; eauto; lia | eapply shaped_range; eauto; lia |].
  exists g2. rewrite H1. cbn [rbind]. split; [exact H2|].
  eapply addEdge_shaped; eassumption.
Qed.

Lemma makeRing_TypeError n k :
  Z.even k = true -> 2 <= n < k / 2 -> makeRing n k = Err TypeError.
Proof.
  intros Hev Hn. unfold makeRing.
  rewrite Ring.js_rem_odd, <- Z.negb_even, Hev. cbn [negb].
  unfold for_range at 1. rewrite seqZ_cons by lia. cbn [foldM].
  set (inner := fun d g =>
                  do g0 <- addEdge g 0 (js_rem (0 + d) n);
                  addEdge g0 0 (js_rem (0 - d + n) n)).
  assert (E : for_range 1 (k / 2 + 1) inner (constructor n) = Err TypeError);
    [|now rewrite E].
  unfold for_range.
  replace (k / 2 + 1 - 1) with (n + Z.succ (k / 2 - n - 1)) by lia.
  rewrite seqZ_app by lia. rewrite foldM_app.
  destruct (Edges.foldM_total (shaped n) inner (seqZ 1 n) (constructor n))
    as (g1 & -> & Hs1).
  { intros d t Hd Ht. apply elem_of_seqZ in Hd.
    apply ring_step_returns; [exact Ht | lia | lia | lia]. }
  { apply constructor_shaped. }
  cbn [rbind]. rewrite seqZ_cons by lia. cbn [foldM].
  assert (E : inner (1 + n) g1 = Err TypeError); [|now rewrite E].
  unfold inner.
  destruct (addEdge_returns g1 0 (js_rem (0 + (1 + n)) n)) as [g2 H2].
  { eapply shaped_range; eauto; lia. }
  { unfold js_rem.
    pose proof (Z.rem_bound_pos (0 + (1 + n)) n ltac:(lia) ltac:(lia)).
    eapply shaped_range; eauto; lia. }
  rewrite H2. cbn [rbind].
  assert (Hh : js_rem (0 - (1 + n) + n) n = -1).
  { unfold js_rem. replace (0 - (1 + n) + n) with (- (1)) by lia.
    rewrite Z.rem_opp_l by lia. rewrite Z.rem_small by lia. reflexivity. }
  rewrite Hh. apply Edges.addEdge_TypeError; lia.
Qed.

Lemma makeRing_returns n k :
  Z.even k = true -> ~ (2 <= n < k / 2) -> exists g, makeRing n k = Ok g.
Proof.
  intros Hev Hn.
  rewrite Ring.makeRing_eq by (rewrite <- Z.negb_even, Hev; reflexivity).
  destruct (addEdges_holds n (ringEdges n k) [] (constructor n)) as (g & Hg & _).
  - apply holds_edges_empty.
  - intros u v Huv. apply Ring.elem_of_ringEdges in Huv as [Hu Hv].
    split; [exact Hu|]. unfold ringNeighbors in Hv.
    apply list_elem_of_bind in Hv as (d & Hv & Hd). apply elem_of_seqZ in Hd.
    unfold js_rem in Hv.
    destruct (decide (n = 1)) as [->|Hn1].
    + rewrite !Z.rem_1_r in Hv.
      apply elem_of_cons in Hv as [->|Hv]; [lia|].
      apply list_elem_of_singleton in Hv as ->. lia.
    + pose proof (Z.rem_bound_pos (u + d) n ltac:(lia) ltac:(lia)).
      pose proof (Z.rem_bound_pos (u - d + n) n ltac:(lia) ltac:(lia)).
      apply elem_of_cons in Hv as [->|Hv]; [lia|].
      apply list_elem_of_singleton in Hv as ->. lia.
  - exists g. exact Hg.
Qed.

Lemma makeLattice_square L : 0 <= L -> exists g, makeLattice (L * L) = Ok g.
Proof.
  intros HL. rewrite Lattice.makeLattice_eq by exact HL.
  destruct (addEdges_holds (L * L) (latticeEdges L) [] (constructor (L * L)))
    as (g & Hg & _).
  - apply holds_edges_empty.
  - intros u v Huv.
    destruct (decide (L = 0)) as [->|HL0]; [inversion Huv|].
    apply Lattice.elem_of_latticeEdges in Huv as [Hu Hv]; [|lia].
    split; [exact Hu|].
    destruct (Lattice.encode L u ltac:(lia) Hu) as (_ & Hx & Hy).
    unfold latticeNeighbors in Hv.
    rewrite !Lattice.idx_wrap in Hv by lia.
    pose proof (Lattice.wrap_range L (u mod L + 1) ltac:(lia) ltac:(lia)).
    pose proof (Lattice.wrap_range L (u mod L - 1) ltac:(lia) ltac:(lia)).
    pose proof (Lattice.wrap_range L (u mod L) ltac:(lia) ltac:(lia)).
    pose proof (Lattice.wrap_range L (u / L + 1) ltac:(lia) ltac:(lia)).
    pose proof (Lattice.wrap_range L (u / L - 1) ltac:(lia) ltac:(lia)).
    pose proof (Lattice.wrap_range L (u / L) ltac:(lia) ltac:(lia)).
    repeat (apply elem_of_cons in Hv as [->|Hv]; [apply Lattice.node_range; assumption|]).
    inversion Hv.
  - exists g. exact Hg.
Qed.

End Outcome.

(** [makeRing(N, k)] ends in one of three ways, decided by [N] and [k]
    alone: the parameter error for odd [k]; a [TypeError] (a read of
    [adj[-1]]) for even [k] with [2 <= N < k/2]; a graph in every other
    case, including [N <= 1] and [k <= 0]. *)
Theorem makeRing_outcome (n k : Z) :
  (Z.odd k = true -> makeRing n k = Err InvalidParameter) /\
  (Z.even k = true -> 2 <= n < k / 2 -> makeRing n k = Err TypeError) /\
  (Z.even k = true -> ~ (2 <= n < k / 2) -> exists g, makeRing n k = Ok g).
Proof.
  split; [apply Ring.makeRing_InvalidParameter|].
  split; [apply Outcome.makeRing_TypeError | apply Outcome.makeRing_returns].
Qed.

(** [makeLattice(N)] never throws a [TypeError]: it returns a graph for
    every perfect square [N], the sides 0, 1 and 2 included, and throws the
    parameter error for every other [N]. *)
Theorem makeLattice_outcome (n : Z) :
  (perfect_square n -> exists g, makeLattice n = Ok g) /\
  (~ perfect_square n -> makeLattice n = Err InvalidParameter).
Proof.
  split.
  - intros (L & HL & ->). apply Outcome.makeLattice_square, HL.
  - apply Lattice.makeLattice_InvalidParameter.
Qed.

(** ** C3: the ring, for every even degree *)

Module RingDegrees.
Import Graph GraphFacts Built.



End RingDegrees.




(** ** makeBA *)

Module BA.
Import Graph GraphFacts Built.

Lemma foldM_error {A S} (P : error -> Prop) (body : A -> S -> result S) l : forall s e,
  (forall a t e, body a t = Err e -> P e) ->
  foldM body l s = Err e -> P e.
Proof.
  induction l as [|a l IH]; intros s e Hbody H; [discriminate|].
  cbn [foldM] in H. destruct (body a s) as [t|e'] eqn:E; cbn [rbind] in H.
  - eapply IH; eassumption.
  - injection H as <-. eapply Hbody; eassumption.
Qed.

Lemma seedClique_eq n m0 :
  seedClique n m0 = addEdges (candidatePairs m0) (constructor n).
Proof.
  unfold seedClique, addEdges, candidatePairs, for_range.
  rewrite foldM_bind. apply foldM_ext. intros i g _.
  rewrite foldM_bind. apply foldM_ext. intros j g' _.
  cbn [foldM]. unfold addE. cbn [fst snd]. now rewrite rbind_Ok_r.
Qed.

Lemma degree_Ok g i d :
  degree g i = Ok d <-> exists ai, js_get (adj g) i = Some ai /\ d = Z.of_nat (length ai).
Proof.
  unfold degree. destruct (js_get (adj g) i) as [ai|].
  - split; [intros [= <-]; eauto | intros (? & [= <-] & ->); reflexivity].
  - split; [discriminate | intros (? & ? & _); discriminate].
Qed.

Lemma degreeSum_app a b : degreeSum (a ++ b) = (degreeSum a + degreeSum b)%nat.
Proof.
  unfold degreeSum. induction a as [|x a IH]; [reflexivity|].
  cbn in *. rewrite IH. lia.
Qed.

Lemma degreeSum_const (l : list (list Z)) c :
  (forall x, x ∈ l -> length x = c) -> degreeSum l = (length l * c)%nat.
Proof.
  induction l as [|x l IH]; intros H; [reflexivity|].
  unfold degreeSum in *. cbn. rewrite (H x) by left.
  rewrite IH; [reflexivity|]. intros y Hy. apply H. now right.
Qed.

Lemma js_get_nat {A} (a : list A) (i : nat) : js_get a (Z.of_nat i) = a !! i.
Proof.
  unfold js_get. destruct (Z.ltb_spec (Z.of_nat i) 0); [lia|]. now rewrite Nat2Z.id.
Qed.

(** The graph after the clique loop. *)
Lemma seedClique_state n m0 :
  2 <= m0 <= n ->
  exists g0, seedClique n m0 = Ok g0 /\ shaped n g0 /\ simple_graph g0 /\
    (forall i, 0 <= i < m0 ->
       exists ai, js_get (adj g0) i = Some ai /\ Z.of_nat (length ai) = m0 - 1 /\
                  forall j, j ∈ ai -> 0 <= j < m0) /\
    (forall i, m0 <= i < n -> js_get (adj g0) i = Some []) /\
    Z.of_nat (degreeSum (adj g0)) = m0 * (m0 - 1).
Proof.
  intros Hm0. rewrite seedClique_eq.
  destruct (addEdges_holds n (candidatePairs m0) [] (constructor n)) as (g & Hg & Hholds).
  { apply holds_edges_empty. }
  { intros u v Huv. apply Complete.elem_of_candidatePairs in Huv. lia. }
  rewrite app_nil_l in Hholds.
  exists g. split; [exact Hg|].
  pose proof Hholds as (Hs & Hnd & Hnb).
  assert (Hsimple : simple_graph g).
  { eapply (foldM_preserves simple_graph addE); [| apply constructor_simple | exact Hg].
    intros a t t' Ht E. eapply addEdge_simple; eassumption. }
  assert (Hlow : forall i, 0 <= i < m0 ->
    exists ai, js_get (adj g) i = Some ai /\ Z.of_nat (length ai) = m0 - 1 /\
               forall j, j ∈ ai -> 0 <= j < m0).
  { intros i Hi.
    assert (Hd : degree g i = Ok (Z.of_nat (length (others m0 i)))).
    { apply (holds_edges_degree n (candidatePairs m0)); auto using Complete.others_NoDup; [lia|].
      intros j. rewrite Complete.elem_of_others, !Complete.elem_of_candidatePairs by exact Hi.
      lia. }
    apply degree_Ok in Hd as (ai & Hai & Hlen). exists ai. split; [exact Hai|].
    rewrite Complete.others_length in Hlen by exact Hi. split; [lia|].
    intros j Hj. assert (Hn : neighbor g i j) by (exists ai; auto).
    apply Hnb in Hn as [_ Hn]. rewrite !Complete.elem_of_candidatePairs in Hn. lia. }
  assert (Hhigh : forall i, m0 <= i < n -> js_get (adj g) i = Some []).
  { intros i Hi.
    assert (Hd : degree g i = Ok (Z.of_nat (length (@nil Z)))).
    { apply (holds_edges_degree n (candidatePairs m0)); auto; [lia | constructor |].
      intros j. rewrite !Complete.elem_of_candidatePairs. split; [intros Hj; inversion Hj | lia]. }
    apply degree_Ok in Hd as (ai & Hai & Hlen). rewrite Hai. f_equal.
    destruct ai; [reflexivity | cbn in Hlen; lia]. }
  split; [exact Hs|]. split; [exact Hsimple|]. split; [exact Hlow|]. split; [exact Hhigh|].
  destruct Hs as [_ Hlen].
  rewrite <- (take_drop (Z.to_nat m0) (adj g)), degreeSum_app.
  rewrite (degreeSum_const (take _ _) (Z.to_nat (m0 - 1))).
  - rewrite (degreeSum_const (drop _ _) 0%nat).
    + rewrite length_take. rewrite Hlen. nia.
    + intros x Hx. apply list_elem_of_lookup in Hx as (i & Hx). rewrite lookup_drop in Hx.
      pose proof (lookup_lt_Some _ _ _ Hx) as Hlt.
      rewrite <- js_get_nat, Hhigh in Hx by lia. now injection Hx as <-.
  - intros x Hx. apply elem_of_take in Hx as (i & Hx & Hlt).
    rewrite <- js_get_nat in Hx.
    destruct (Hlow (Z.of_nat i) ltac:(lia)) as (ai & Hai & Hl & _).
    rewrite Hai in Hx. injection Hx as <-. lia.
Qed.

(** *** The pool *)

Lemma occurrences_app i a b :
  occurrences i (a ++ b) = (occurrences i a + occurrences i b)%nat.
Proof. unfold occurrences. now rewrite filter_app, length_app. Qed.

Lemma occurrences_replicate i k x :
  occurrences i (replicate k x) = if decide (x = i) then k else 0%nat.
Proof.
  unfold occurrences. induction k as [|k IH]; cbn [replicate].
  - destruct (decide (x = i)); reflexivity.
  - rewrite filter_cons. destruct (decide (x = i)); cbn [length]; now rewrite IH.
Qed.

Lemma occurrences_absent i l : i ∉ l -> occurrences i l = 0%nat.
Proof.
  unfold occurrences. induction l as [|x l IH]; intros H; [reflexivity|].
  rewrite filter_cons. rewrite not_elem_of_cons in H. destruct H as [Hx Hl].
  destruct (decide (x = i)); [congruence | auto].
Qed.

Lemma occurrences_NoDup i l : NoDup l -> i ∈ l -> occurrences i l = 1%nat.
Proof.
  unfold occurrences. induction l as [|x l IH]; intros Hnd Hin; [inversion Hin|].
  apply NoDup_cons in Hnd as [Hx Hnd]. rewrite filter_cons.
  destruct (decide (x = i)) as [->|Hne].
  - cbn [length]. f_equal. now apply occurrences_absent.
  - apply elem_of_cons in Hin as [->|Hin]; [contradiction | auto].
Qed.

Lemma seedPool_loop g l : forall acc,
  NoDup l -> (forall i, i ∈ l -> exists ai, js_get (adj g) i = Some ai) ->
  exists pool,
    foldM (fun i pool => do d <- degree g i; Ok (pool ++ replicate (Z.to_nat d) i)) l acc
    = Ok pool /\
    (forall t, t ∈ pool -> t ∈ acc \/ t ∈ l) /\
    forall i, occurrences i pool =
              (occurrences i acc +
               if decide (i ∈ l) then length (default [] (js_get (adj g) i)) else 0)%nat.
Proof.
  induction l as [|x l IH]; intros acc Hnd Hl; cbn [foldM].
  - exists acc. split; [reflexivity|]. split; [auto|].
    intros i. destruct (decide (i ∈ [])) as [H|_]; [inversion H | lia].
  - apply NoDup_cons in Hnd as [Hx Hnd].
    destruct (Hl x) as [ax Hax]; [left|].
    unfold degree at 1. rewrite Hax. cbn [rbind]. rewrite Nat2Z.id.
    destruct (IH (acc ++ replicate (length ax) x) Hnd) as (pool & -> & Hin & Hocc).
    { intros i Hi. apply Hl. now right. }
    exists pool. split; [reflexivity|]. split.
    + intros t Ht. apply Hin in Ht as [Ht|Ht].
      * apply elem_of_app in Ht as [Ht|Ht]; [now left|].
        apply elem_of_replicate in Ht as [-> _]. right. left.
      * right. now right.
    + intros i. rewrite Hocc, occurrences_app, occurrences_replicate.
      destruct (decide (x = i)) as [->|Hne].
      * rewrite Hax. change (default [] (Some ax)) with ax.
        destruct (decide (i ∈ l)); [contradiction|].
        destruct (decide (i ∈ i :: l)) as [_|H]; [lia | exfalso; apply H; left].
      * destruct (decide (i ∈ l)) as [Hi|Hi].
        -- destruct (decide (i ∈ x :: l)) as [_|H]; [lia | exfalso; apply H; now right].
        -- destruct (decide (i ∈ x :: l)) as [H|_]; [|lia].
           apply elem_of_cons in H as [->|H]; contradiction.
Qed.

End BA.

Module BARounds.
Import Graph GraphFacts Built BA.

Lemma NoDup_set_add t ts : NoDup ts -> NoDup (set_add t ts).
Proof.
  intros H. unfold set_add. destruct (bool_decide_reflect (t ∈ ts)) as [|Hn]; [exact H|].
  apply NoDup_app. split; [exact H|]. split.
  - intros x Hx Hx'. apply list_elem_of_singleton in Hx' as ->. contradiction.
  - apply NoDup_singleton.
Qed.

Lemma length_set_add t ts : (length (set_add t ts) <= S (length ts))%nat.
Proof.
  unfold set_add. destruct (bool_decide (t ∈ ts)); [lia|].
  rewrite length_app. cbn. lia.
Qed.

Lemma elem_of_set_add t ts x : x ∈ set_add t ts -> x ∈ ts \/ x = t.
Proof.
  unfold set_add. destruct (bool_decide (t ∈ ts)); [auto|].
  rewrite elem_of_app, list_elem_of_singleton. auto.
Qed.

Lemma sampleTargets_spec m pool fuel : forall ts rng targets rng',
  sampleTargets fuel m pool ts rng = Some (targets, rng') ->
  NoDup ts -> Z.of_nat (length ts) <= m -> (forall t, t ∈ ts -> from_pool pool t) ->
  NoDup targets /\ Z.of_nat (length targets) = m /\
  forall t, t ∈ targets -> from_pool pool t.
Proof.
  induction fuel as [|fuel IH]; intros ts rng targets rng' H Hnd Hlen Hin;
    cbn [sampleTargets] in H;
    destruct (Z.ltb_spec (Z.of_nat (length ts)) m) as [Hlt|Hge]; try discriminate.
  - injection H as <- <-. split; [exact Hnd|]. split; [lia | exact Hin].
  - destruct (RNG.int (Z.of_nat (length pool)) rng) as [k rng1].
    apply IH in H; [exact H | now apply NoDup_set_add | |].
    + pose proof (length_set_add (js_get pool k) ts). lia.
    + intros t Ht. apply elem_of_set_add in Ht as [Ht| ->]; [auto|].
      unfold from_pool. destruct (js_get pool k) as [x|] eqn:E; [|now left].
      right. exists x. split; [reflexivity|]. eapply Payoff.js_get_elem; eassumption.
  - injection H as <- <-. split; [exact Hnd|]. split; [lia | exact Hin].
Qed.

Lemma addEdgeTo_numbers v ts : forall g g1,
  foldM (addEdgeTo v) ts g = Ok g1 ->
  ts = Some <$> numbers ts /\
  foldM (fun x g => addEdge g v x) (numbers ts) g = Ok g1.
Proof.
  induction ts as [|[x|] ts IH]; intros g g1 H; cbn [foldM] in H.
  - auto.
  - cbn [addEdgeTo] in H. destruct (addEdge g v x) as [g2|] eqn:E; [|discriminate].
    cbn [rbind] in H. destruct (IH _ _ H) as [Hts Hfold].
    change (numbers (Some x :: ts)) with (x :: numbers ts). rewrite fmap_cons.
    split; [f_equal; exact Hts|].
    cbn [foldM]. rewrite E. exact Hfold.
  - discriminate.
Qed.

Lemma addEdge_new g u v g' au :
  addEdge g u v = Ok g' -> u <> v -> symmetric g ->
  js_get (adj g) u = Some au -> (v ∉ au) ->
  exists av, js_get (adj g) v = Some av /\ (u ∉ av) /\
    degreeSum (adj g') = S (S (degreeSum (adj g))) /\
    forall i, js_get (adj g') i =
              if decide (i = u) then Some (au ++ [v])
              else if decide (i = v) then Some (av ++ [u])
              else js_get (adj g) i.
Proof.
  intros H Huv Hsym Hu Hnin.
  destruct (Edges.addEdge_adj _ _ _ _ H Huv) as (au' & av & Hu' & Hv & _ & Hadj).
  assert (au' = au) as -> by congruence.
  exists av. split; [exact Hv|].
  assert (Hnin' : u ∉ av).
  { intros Hin. destruct (proj2 (Hsym u v)) as (a & Ha & Hin'); [exists av; auto|].
    congruence. }
  split; [exact Hnin'|].
  assert (Ea : add_new au v = au ++ [v]).
  { unfold add_new. destruct (includes au v) eqn:E; [|reflexivity].
    apply includes_true in E. contradiction. }
  assert (Eb : add_new av u = av ++ [u]).
  { unfold add_new. destruct (includes av u) eqn:E; [|reflexivity].
    apply includes_true in E. contradiction. }
  split.
  - pose proof (js_get_Some _ _ _ Hu) as Hur. pose proof (js_get_Some _ _ _ Hv) as Hvr.
    pose proof (Edges.js_get_lookup _ _ _ Hu) as Hlu.
    pose proof (Edges.js_get_lookup _ _ _ Hv) as Hlv.
    assert (Hlv1 : <[Z.to_nat u := au ++ [v]]> (adj g) !! Z.to_nat v = Some av).
    { rewrite list_lookup_insert_ne by lia. exact Hlv. }
    rewrite Hadj, Ea, Eb, !Edges.degreeSum_imap.
    pose proof (Edges.sum_imap_insert (fun _ ai => length ai) _ (fun _ ai => length ai)
                  _ (av ++ [u]) av (fun _ _ => eq_refl) Hlv1) as D2.
    pose proof (Edges.sum_imap_insert (fun _ ai => length ai) _ (fun _ ai => length ai)
                  _ (au ++ [v]) au (fun _ _ => eq_refl) Hlu) as D1.
    cbv beta in D1, D2. rewrite !length_app in D1, D2. cbn [length] in D1, D2. lia.
  - intros i.
    destruct (addEdge_Ok _ _ _ _ H) as [[? _] | (_ & au' & av' & Hu'' & Hv'' & _ & _ & Hget)];
      [contradiction|].
    assert (au' = au) as -> by congruence. assert (av' = av) as -> by congruence.
    rewrite Hget, Ea, Eb. reflexivity.
Qed.

Lemma add_targets n v xs : forall g av g1,
  shaped n g -> simple_graph g -> js_get (adj g) v = Some av ->
  NoDup xs -> (forall x, x ∈ xs -> x <> v /\ x ∉ av) ->
  foldM (fun x g => addEdge g v x) xs g = Ok g1 ->
  shaped n g1 /\ simple_graph g1 /\ js_get (adj g1) v = Some (av ++ xs) /\
  degreeSum (adj g1) = (degreeSum (adj g) + 2 * length xs)%nat /\
  forall i, i <> v ->
    js_get (adj g1) i
    = (fun ai => ai ++ if decide (i ∈ xs) then [v] else []) <$> js_get (adj g) i.
Proof.
  induction xs as [|x xs IH]; intros g av g1 Hs Hsim Hv Hnd Hxs H; cbn [foldM] in H.
  - injection H as <-. rewrite app_nil_r.
    split; [exact Hs|]. split; [exact Hsim|]. split; [exact Hv|]. split; [cbn; lia|].
    intros i _. destruct (js_get (adj g) i); cbn; [now rewrite app_nil_r | reflexivity].
  - apply NoDup_cons in Hnd as [Hx Hnd].
    destruct (addEdge g v x) as [g2|] eqn:E; [|discriminate]. cbn [rbind] in H.
    destruct (Hxs x) as [Hxv Hxav]; [left|].
    destruct (addEdge_new _ _ _ _ _ E ltac:(congruence) (proj1 Hsim) Hv Hxav)
      as (ax & Hax & _ & Hsum & Hget).
    assert (Hv2 : js_get (adj g2) v = Some (av ++ [x])).
    { rewrite Hget. destruct (decide (v = v)); [reflexivity | contradiction]. }
    destruct (IH g2 (av ++ [x]) g1) as (Hs1 & Hsim1 & Hv1 & Hsum1 & Hget1); auto.
    { eapply addEdge_shaped; eassumption. }
    { eapply addEdge_simple; eassumption. }
    { intros y Hy. destruct (Hxs y) as [Hyv Hyav]; [now right|].
      split; [exact Hyv|]. rewrite elem_of_app, list_elem_of_singleton.
      intros [?| ->]; contradiction. }
    split; [exact Hs1|]. split; [exact Hsim1|]. split.
    { rewrite Hv1, <- app_assoc. reflexivity. }
    split; [rewrite Hsum1, Hsum; cbn [length]; lia|].
    intros i Hiv. rewrite (Hget1 i Hiv), Hget.
    destruct (decide (i = v)); [contradiction|].
    destruct (decide (i = x)) as [->|Hix].
    + rewrite Hax. cbn [fmap option_fmap option_map].
      destruct (decide (x ∈ xs)); [contradiction|].
      destruct (decide (x ∈ x :: xs)) as [_|Hn]; [|exfalso; apply Hn; left].
      now rewrite app_nil_r.
    + destruct (js_get (adj g) i) as [ai|]; [|reflexivity].
      cbn [fmap option_fmap option_map]. f_equal. f_equal.
      destruct (decide (i ∈ xs)) as [Hi|Hi].
      * destruct (decide (i ∈ x :: xs)) as [_|Hn]; [reflexivity | exfalso; apply Hn; now right].
      * destruct (decide (i ∈ x :: xs)) as [Hn|_]; [|reflexivity].
        apply elem_of_cons in Hn as [?|?]; contradiction.
Qed.

End BARounds.

Module BAState.
Import Graph GraphFacts Built BA BARounds.

Lemma attach_state fuel n m0 m v g pool rng g' pool' rng' :
  ba_state n m0 m v g pool -> m0 <= v < n -> 0 <= m0 -> 1 <= m ->
  attach fuel m v (g, pool, rng) = Some (Ok (g', pool', rng')) ->
  ba_state n m0 m (v + 1) g' pool'.
Proof.
  intros (Hs & Hsim & Hnew & Hold & Hocc & Hpool & Hsum) Hv Hm0 Hm H.
  unfold attach in H.
  destruct (sampleTargets fuel m pool [] rng) as [[targets rng1]|] eqn:Hsample;
    [|discriminate].
  injection H as H.
  apply rbind_inv in H as (g1 & Hfold & H).
  apply rbind_inv in H as (dv & Hdv & H). injection H as <- <- <-.
  destruct (sampleTargets_spec _ _ _ _ _ _ _ Hsample) as (Hnd & Hlen & Hfrom).
  { constructor. } { cbn. lia. } { intros t Ht. inversion Ht. }
  apply addEdgeTo_numbers in Hfold as [Hts Hfold].
  set (xs := numbers targets) in *.
  assert (Hndx : NoDup xs).
  { rewrite Hts in Hnd. eapply NoDup_fmap_1; exact Hnd. }
  assert (Hlenx : Z.of_nat (length xs) = m).
  { rewrite Hts, length_fmap in Hlen. exact Hlen. }
  assert (Hxs : forall x, x ∈ xs -> 0 <= x < v).
  { intros x Hx. apply Hpool.
    destruct (Hfrom (Some x)) as [?|(y & [= <-] & Hy)]; [|discriminate|exact Hy].
    rewrite Hts. apply list_elem_of_fmap. eauto. }
  destruct (add_targets n v xs g [] g1 Hs Hsim (Hnew v ltac:(lia)) Hndx)
    as (Hs1 & Hsim1 & Hv1 & Hsum1 & Hget1).
  { intros x Hx. apply Hxs in Hx. split; [lia | intros Hin; inversion Hin]. }
  { exact Hfold. }
  rewrite app_nil_l in Hv1.
  apply degree_Ok in Hdv as (av & Hav & ->). assert (av = xs) as -> by congruence.
  rewrite Nat2Z.id.
  split; [exact Hs1|]. split; [exact Hsim1|]. split; [|split; [|split; [|split]]].
  - intros i Hi. rewrite Hget1 by lia. rewrite Hnew by lia.
    cbn [fmap option_fmap option_map]. f_equal.
    destruct (decide (i ∈ xs)) as [Hin|_]; [|reflexivity].
    apply Hxs in Hin. lia.
  - intros i Hi. destruct (decide (i = v)) as [->|Hiv].
    + exists xs. split; [exact Hv1 | lia].
    + destruct (Hold i ltac:(lia)) as (ai & Hai & Hge).
      rewrite Hget1, Hai by exact Hiv. cbn [fmap option_fmap option_map].
      eexists. split; [reflexivity|]. rewrite length_app. lia.
  - intros i. rewrite !occurrences_app, occurrences_replicate, Hocc.
    destruct (decide (v = i)) as [<-|Hiv].
    + rewrite Hv1, (Hnew v) by lia. change (default [] (Some xs)) with xs.
      rewrite (occurrences_absent v xs); [cbn; lia|].
      intros Hin. apply Hxs in Hin. lia.
    + rewrite Hget1 by congruence.
      destruct (js_get (adj g) i) as [ai|] eqn:Hgi; cbn [fmap option_fmap option_map].
      * change (default [] (Some ?l)) with l. rewrite length_app.
        destruct (decide (i ∈ xs)) as [Hin|Hin].
        -- rewrite occurrences_NoDup by assumption. cbn. lia.
        -- rewrite occurrences_absent by assumption. cbn. lia.
      * cbn. rewrite occurrences_absent; [lia|].
        intros Hin. apply Hxs in Hin.
        destruct (Hold i ltac:(lia)) as (ai & Hai & _). congruence.
  - intros t Ht. rewrite !elem_of_app in Ht. destruct Ht as [[Ht|Ht]|Ht].
    + apply Hpool in Ht. lia.
    + apply elem_of_replicate in Ht as [-> _]. lia.
    + apply Hxs in Ht. lia.
  - rewrite Hsum1, Nat2Z.inj_add, Hsum, Nat2Z.inj_mul, Hlenx. lia.
Qed.


Lemma attachAll_state fuel n m0 m : forall (k : nat) v g pool rng g' pool' rng',
  ba_state n m0 m v g pool -> m0 <= v -> v + Z.of_nat k <= n -> 0 <= m0 -> 1 <= m ->
  attachAll fuel m (seqZ v (Z.of_nat k)) (g, pool, rng) = Some (Ok (g', pool', rng')) ->
  ba_state n m0 m (v + Z.of_nat k) g' pool'.
Proof.
  induction k as [|k IH]; intros v g pool rng g' pool' rng' Hst Hv Hk Hm0 Hm H.
  - cbn in H. injection H as <- <- <-. now rewrite Z.add_0_r.
  - rewrite seqZ_cons in H by lia. cbn [attachAll] in H.
    destruct (attach fuel m v (g, pool, rng)) as [[[[g1 pool1] rng1]|e]|] eqn:E;
      try discriminate.
    replace (v + Z.of_nat (S k)) with (Z.succ v + Z.of_nat k) by lia.
    replace (Z.pred (Z.of_nat (S k))) with (Z.of_nat k) in H by lia.
    eapply IH; [| lia | lia | exact Hm0 | exact Hm | exact H].
    replace (Z.succ v) with (v + 1) by lia.
    eapply attach_state; [exact Hst | lia | exact Hm0 | exact Hm | exact E].
Qed.

Lemma seed_state n m0 m :
  2 <= m0 <= n -> m < m0 ->
  exists g0 pool0,
    seedClique n m0 = Ok g0 /\ seedPool g0 m0 = Ok pool0 /\
    ba_state n m0 m m0 g0 pool0.
Proof.
  intros Hm0 Hm.
  destruct (seedClique_state n m0 Hm0) as (g0 & Hg0 & Hs & Hsim & Hlow & Hhigh & Hsum).
  destruct (seedPool_loop g0 (seqZ 0 m0) []) as (pool0 & Hp & Hin & Hocc).
  { apply NoDup_seqZ. }
  { intros i Hi. apply elem_of_seqZ in Hi.
    destruct (Hlow i ltac:(lia)) as (ai & Hai & _). eauto. }
  exists g0, pool0. split; [exact Hg0|]. split; [exact Hp|].
  split; [exact Hs|]. split; [exact Hsim|]. split; [exact Hhigh|].
  split; [|split; [|split]].
  - intros i Hi. destruct (Hlow i Hi) as (ai & Hai & Hlen & _).
    exists ai. split; [exact Hai | lia].
  - intros i. rewrite Hocc. cbn [occurrences filter list_filter length Nat.add].
    destruct (decide (i ∈ seqZ 0 m0)) as [_|Hi]; [reflexivity|].
    rewrite elem_of_seqZ in Hi.
    destruct (js_get (adj g0) i) as [ai|] eqn:Hgi; [|reflexivity].
    pose proof (js_get_Some _ _ _ Hgi) as Hr.
    rewrite (proj2 Hs), Z2Nat.id in Hr by lia.
    rewrite Hhigh in Hgi by lia. now injection Hgi as <-.
  - intros t Ht. apply Hin in Ht as [Ht|Ht]; [inversion Ht|].
    apply elem_of_seqZ in Ht. lia.
  - rewrite Hsum. lia.
Qed.

Lemma makeBA_rounds fuel n m0 m rng :
  2 <= m0 -> 1 <= m < m0 ->
  makeBA fuel n m0 m rng =
  match seedClique n m0 with
  | Err e => Some (Err e)
  | Ok g =>
      match seedPool g m0 with
      | Err e => Some (Err e)
      | Ok pool =>
          match attachAll fuel m (seqZ m0 (n - m0)) (g, pool, rng) with
          | None => None
          | Some (Err e) => Some (Err e)
          | Some (Ok (g, _, rng)) => Some (Ok (g, randomPositions n rng))
          end
      end
  end.
Proof.
  intros Hm0 Hm. unfold makeBA.
  destruct (Z.ltb_spec m0 2); [lia|].
  destruct (Z.ltb_spec m 1); [lia|].
  destruct (Z.leb_spec m0 m); [lia|]. reflexivity.
Qed.

Lemma makeBA_guards fuel n m0 m rng :
  m0 < 2 \/ m < 1 \/ m0 <= m -> makeBA fuel n m0 m rng = Some (Err InvalidParameter).
Proof.
  intros H. unfold makeBA.
  destruct (Z.ltb_spec m0 2); [reflexivity|].
  destruct (Z.ltb_spec m 1); [reflexivity|].
  destruct (Z.leb_spec m0 m); [reflexivity | lia].
Qed.

Lemma attachAll_error fuel m vs : forall st e,
  attachAll fuel m vs st = Some (Err e) -> e = TypeError.
Proof.
  induction vs as [|v vs IH]; intros st e H; [discriminate|].
  cbn [attachAll] in H.
  destruct (attach fuel m v st) as [[st1|e1]|] eqn:E; try discriminate.
  - eapply IH; eassumption.
  - injection H as <-. destruct st as [[g pool] rng]. unfold attach in E.
    destruct (sampleTargets fuel m pool [] rng) as [[targets rng1]|]; [|discriminate].
    injection E as E.
    destruct (foldM (addEdgeTo v) targets g) as [g1|e2] eqn:F; cbn [rbind] in E.
    + unfold degree in E. destruct (js_get (adj g1) v); cbn [rbind] in E; congruence.
    + injection E as <-.
      eapply (foldM_error (fun e => e = TypeError)); [|exact F].
      intros [u|] t e3 Hu; cbn [addEdgeTo] in Hu; [|congruence].
      eapply addEdge_error; eassumption.
Qed.

Lemma seedPool_error g m0 e : seedPool g m0 = Err e -> e = TypeError.
Proof.
  unfold seedPool. apply (foldM_error (fun e => e = TypeError)).
  intros i pool e' H. unfold degree in H.
  destruct (js_get (adj g) i); cbn [rbind] in H; congruence.
Qed.

Lemma seedClique_TypeError n m0 : 2 <= m0 -> n < m0 -> seedClique n m0 = Err TypeError.
Proof.
  intros Hm0 Hn. unfold seedClique, for_range at 1.
  rewrite seqZ_cons by lia. cbn [foldM].
  set (inner := fun j g => addEdge g 0 j).
  assert (E : for_range (0 + 1) m0 inner (constructor n) = Err TypeError);
    [|now rewrite E].
  unfold for_range.
  replace (m0 - (0 + 1)) with ((Z.max n 1 - 1) + Z.succ (m0 - 1 - Z.max n 1)) by lia.
  rewrite seqZ_app by lia. rewrite foldM_app.
  destruct (Edges.foldM_total (shaped n) inner (seqZ (0 + 1) (Z.max n 1 - 1)) (constructor n))
    as (g1 & -> & Hs1).
  { intros j t Hj Ht. apply elem_of_seqZ in Hj. unfold inner.
    destruct (addEdge_returns t 0 j) as [t' Ht'];
      [eapply shaped_range; eauto; lia | eapply shaped_range; eauto; lia |].
    exists t'. split; [exact Ht'|]. eapply addEdge_shaped; eassumption. }
  { apply constructor_shaped. }
  cbn [rbind]. rewrite seqZ_cons by lia. cbn [foldM].
  assert (E : inner (0 + 1 + (Z.max n 1 - 1)) g1 = Err TypeError); [|now rewrite E].
  unfold inner. apply Edges.addEdge_TypeError; [lia|].
  destruct Hs1 as [_ Hlen]. rewrite Hlen. lia.
Qed.

End BAState.

(** [makeBA] throws the parameter error exactly when [m0 < 2], [m < 1] or
    [m >= m0]; with admissible [m0] and [m] but fewer than [m0] nodes it
    throws a [TypeError] from the clique loop, for every generator state. *)
Theorem makeBA_errors (fuel : nat) (n m0 m rng : Z) :
  (makeBA fuel n m0 m rng = Some (Err InvalidParameter) <-> m0 < 2 \/ m < 1 \/ m0 <= m) /\
  (2 <= m0 -> 1 <= m < m0 -> n < m0 -> makeBA fuel n m0 m rng = Some (Err TypeError)).
Proof.
  split; [split|].
  - intros H. destruct (Z.ltb_spec m0 2) as [|Hm0]; [auto|].
    destruct (Z.ltb_spec m 1) as [|Hm1]; [auto|].
    destruct (Z.leb_spec m0 m) as [|Hm]; [auto|]. exfalso.
    rewrite BAState.makeBA_rounds in H by lia.
    destruct (seedClique n m0) as [g0|e] eqn:Hc.
    + destruct (seedPool g0 m0) as [pool0|e] eqn:Hp.
      * destruct (attachAll fuel m (seqZ m0 (n - m0)) (g0, pool0, rng))
          as [[[[g1 pool1] rng1]|e]|] eqn:Ha; try discriminate.
        apply BAState.attachAll_error in Ha. congruence.
      * apply BAState.seedPool_error in Hp. congruence.
    + rewrite BA.seedClique_eq in Hc. apply Built.addEdges_error in Hc. congruence.
  - apply BAState.makeBA_guards.
  - intros Hm0 Hm Hn. rewrite BAState.makeBA_rounds by lia.
    now rewrite BAState.seedClique_TypeError by lia.
Qed.

(** Every graph [makeBA] returns has [N >= m0] nodes, each of degree [m]
    or more, and exactly [m0 (m0 - 1) / 2 + m (N - m0)] edges: the clique
    and [m] new edges for each node attached. *)
Theorem makeBA_structure (fuel : nat) (n m0 m rng : Z) (g : Graph) (rng' : Z) :
  makeBA fuel n m0 m rng = Some (Ok (g, rng')) ->
  (2 <= m0 /\ 1 <= m < m0 /\ m0 <= n) /\
  (forall i, 0 <= i < n -> exists d, Graph.degree g i = Ok d /\ m <= d) /\
  exists q, Graph.edgeCount g = Ok q /\
            (q == inject_Z (m0 * (m0 - 1)) / 2 + inject_Z (m * (n - m0)))%Q.
Proof.
  intros H.
  assert (Hg : 2 <= m0 /\ 1 <= m < m0).
  { destruct (Z.ltb_spec m0 2) as [|Hm0];
      [rewrite BAState.makeBA_guards in H by lia; discriminate|].
    destruct (Z.ltb_spec m 1) as [|Hm1];
      [rewrite BAState.makeBA_guards in H by lia; discriminate|].
    destruct (Z.leb_spec m0 m) as [|Hm];
      [rewrite BAState.makeBA_guards in H by lia; discriminate|]. lia. }
  assert (Hn : m0 <= n).
  { destruct (Z.leb_spec m0 n) as [|Hn]; [assumption|].
    rewrite BAState.makeBA_rounds, BAState.seedClique_TypeError in H by lia.
    discriminate. }
  split; [lia|].
  rewrite BAState.makeBA_rounds in H by lia.
  destruct (BAState.seed_state n m0 m) as (g0 & pool0 & Hc & Hp & Hst); [lia | lia |].
  rewrite Hc, Hp in H.
  destruct (attachAll fuel m (seqZ m0 (n - m0)) (g0, pool0, rng))
    as [[[[g1 pool1] rng1]|e]|] eqn:Ha; try discriminate.
  injection H as <- _.
  replace (n - m0) with (Z.of_nat (Z.to_nat (n - m0))) in Ha by lia.
  apply (BAState.attachAll_state fuel n m0 m) in Ha; [|exact Hst|lia..].
  replace (m0 + Z.of_nat (Z.to_nat (n - m0))) with n in Ha by lia.
  destruct Ha as (Hs & _ & _ & Hold & _ & _ & Hsum).
  split.
  - intros i Hi. destruct (Hold i Hi) as (ai & Hai & Hge).
    exists (Z.of_nat (length ai)). split; [|exact Hge].
    apply BA.degree_Ok. eauto.
  - unfold Graph.edgeCount.
    rewrite (Edges.degree_loop_shaped n g1 Hs). cbn [rbind].
    eexists. split; [reflexivity|].
    rewrite Hsum, inject_Z_plus, !inject_Z_mult.
    change (inject_Z 2) with 2%Q. field.
Qed.

(** The sampling pool of [makeBA] is degree-proportional: after the clique
    and pool loops and any number of attachment rounds, every node occurs
    in the pool exactly as often as it has neighbors, and only nodes
    already attached occur in it. *)
Theorem pool_proportional (fuel : nat) (n m0 m k rng : Z) g0 pool0 g pool rng' :
  2 <= m0 -> 1 <= m < m0 -> 0 <= k -> m0 + k <= n ->
  seedClique n m0 = Ok g0 -> seedPool g0 m0 = Ok pool0 ->
  attachAll fuel m (seqZ m0 k) (g0, pool0, rng) = Some (Ok (g, pool, rng')) ->
  (forall i, 0 <= i < n ->
     Graph.degree g i = Ok (Z.of_nat (occurrences i pool))) /\
  (forall t, t ∈ pool -> 0 <= t < m0 + k).
Proof.
  intros Hm0 Hm Hk Hn Hc Hp Ha.
  destruct (BAState.seed_state n m0 m) as (g0' & pool0' & Hc' & Hp' & Hst); [lia | lia |].
  assert (g0' = g0) as -> by congruence. assert (pool0' = pool0) as -> by congruence.
  replace k with (Z.of_nat (Z.to_nat k)) in Ha by lia.
  apply (BAState.attachAll_state fuel n m0 m) in Ha; [|exact Hst|lia..].
  replace (m0 + Z.of_nat (Z.to_nat k)) with (m0 + k) in Ha by lia.
  destruct Ha as (Hs & _ & Hnew & Hold & Hocc & Hpool & _).
  split; [|exact Hpool].
  intros i Hi. rewrite Hocc. apply BA.degree_Ok.
  destruct (Built.shaped_range n g i Hs Hi) as [? ?].
  destruct (js_get_in_range (adj g) i) as [ai Hai]; [lia|].
  exists ai. rewrite Hai. auto.
Qed.

Lemma makeBA_structure_witness :
  exists g rng' q,
    makeBA 100 8 3 2 1 = Some (Ok (g, rng')) /\
    (forall i, 0 <= i < 8 -> exists d, Graph.degree g i = Ok d /\ 2 <= d) /\
    Graph.edgeCount g = Ok q /\
    (q == inject_Z (3 * (3 - 1)) / 2 + inject_Z (2 * (8 - 3)))%Q.
Proof.
  destruct (makeBA 100 8 3 2 1) as [[[g rng']|e]|] eqn:H;
    [| vm_compute in H; discriminate | vm_compute in H; discriminate].
  destruct (makeBA_structure _ _ _ _ _ _ _ H) as (_ & Hdeg & q & Hq & Heq).
  exists g, rng', q. split; [reflexivity|]. split; [exact Hdeg|]. split; [exact Hq | exact Heq].
Defined.

Lemma pool_proportional_witness :
  exists g0 pool0 g pool rng',
    seedClique 8 3 = Ok g0 /\ seedPool g0 3 = Ok pool0 /\
    attachAll 100 2 (seqZ 3 5) (g0, pool0, 1) = Some (Ok (g, pool, rng')) /\
    (forall i, 0 <= i < 8 -> Graph.degree g i = Ok (Z.of_nat (occurrences i pool))) /\
    (forall t, t ∈ pool -> 0 <= t < 3 + 5).
Proof.
  destruct (seedClique 8 3) as [g0|e] eqn:Hc; [|vm_compute in Hc; discriminate].
  destruct (seedPool g0 3) as [pool0|e] eqn:Hp;
    [|vm_compute in Hc; injection Hc as <-; vm_compute in Hp; discriminate].
  destruct (attachAll 100 2 (seqZ 3 5) (g0, pool0, 1)) as [[[[g pool] rng']|e]|] eqn:Ha;
    [| vm_compute in Hc; injection Hc as <-; vm_compute in Hp; injection Hp as <-;
       vm_compute in Ha; discriminate
     | vm_compute in Hc; injection Hc as <-; vm_compute in Hp; injection Hp as <-;
       vm_compute in Ha; discriminate].
  exists g0, pool0, g, pool, rng'.
  split; [reflexivity|]. split; [exact Hp|]. split; [exact Ha|].
  apply (pool_proportional 100 8 3 2 5 1 g0 pool0 g pool rng'); (lia || assumption).
Defined.

(** ** Strategy arrays: countCooperators and what the rules keep *)

Module Count.

Lemma count_acc l : forall acc,
  fold_left (fun c s => c + (if s =? 1 then 1 else 0)) l acc
  = acc + countCooperators l.
Proof.
  unfold countCooperators. induction l as [|x l IH]; intros acc; cbn [fold_left]; [lia|].
  rewrite IH, (IH (0 + _)). lia.
Qed.

Lemma count_cons x l :
  countCooperators (x :: l) = (if x =? 1 then 1 else 0) + countCooperators l.
Proof. unfold countCooperators at 1. cbn [fold_left]. now rewrite count_acc. Qed.

Lemma count_filter l :
  countCooperators l = Z.of_nat (length (filter (fun s => s = 1) l)).
Proof.
  induction l as [|x l IH]; [reflexivity|].
  rewrite count_cons, filter_cons, IH.
  destruct (Z.eqb_spec x 1), (decide (x = 1)); try contradiction; cbn [length]; lia.
Qed.

Lemma count_bounds l : 0 <= countCooperators l <= Z.of_nat (length l).
Proof. rewrite count_filter. pose proof (length_filter (fun s => s = 1) l). lia. Qed.

Lemma count_all l :
  countCooperators l = Z.of_nat (length l) <-> forall s, s ∈ l -> s = 1.
Proof.
  induction l as [|x l IH].
  - split; [intros _ s Hs; inversion Hs | reflexivity].
  - rewrite count_cons. pose proof (count_bounds l) as Hbd. cbn [length]. split.
    + intros H s Hs. destruct (Z.eqb_spec x 1); [|lia].
      apply elem_of_cons in Hs as [->|Hs]; [assumption|]. apply IH; [lia | exact Hs].
    + intros H. rewrite (H x) by left. cbn.
      rewrite (proj2 IH); [lia|]. intros s Hs. apply H. now right.
Qed.

Lemma count_none l :
  countCooperators l = 0 <-> forall s, s ∈ l -> s <> 1.
Proof.
  induction l as [|x l IH].
  - split; [intros _ s Hs; inversion Hs | reflexivity].
  - rewrite count_cons. pose proof (count_bounds l) as Hbd. split.
    + intros H s Hs. destruct (Z.eqb_spec x 1); [lia|].
      apply elem_of_cons in Hs as [->|Hs]; [assumption|]. apply IH; [lia | exact Hs].
    + intros H. destruct (Z.eqb_spec x 1) as [E|_]; [exfalso; apply (H x); [left | exact E]|].
      rewrite (proj2 IH); [lia|]. intros s Hs. apply H. now right.
Qed.

Lemma count_insert l : forall (i : nat) x y,
  l !! i = Some x ->
  countCooperators (<[i := y]> l)
  = countCooperators l - (if x =? 1 then 1 else 0) + (if y =? 1 then 1 else 0).
Proof.
  induction l as [|a l IH]; intros i x y Hi; [discriminate|].
  destruct i as [|i]; cbn in Hi.
  - injection Hi as ->. change (<[0%nat := y]> (x :: l)) with (y :: l).
    rewrite !count_cons. lia.
  - change (<[S i := y]> (a :: l)) with (a :: <[i := y]> l).
    rewrite !count_cons, (IH i x y Hi). lia.
Qed.

Lemma count_strat_set strat key v :
  -1 <= countCooperators (strat_set strat key v) - countCooperators strat <= 1.
Proof.
  unfold strat_set. destruct key as [i|]; [|lia].
  destruct ((0 <=? i) && (i <? Z.of_nat (length strat))) eqn:E; [|lia].
  apply andb_true_iff in E as [E1 E2]. apply Z.leb_le in E1. apply Z.ltb_lt in E2.
  destruct (lookup_lt_is_Some_2 strat (Z.to_nat i) ltac:(lia)) as [x Hx].
  rewrite (count_insert _ _ _ _ Hx).
  destruct (x =? 1), (toUint8 v =? 1); lia.
Qed.

Lemma binary_strat_set strat key v :
  binary strat -> copied strat v -> binary (strat_set strat key v).
Proof.
  intros Hb Hv s Hs. unfold strat_set in Hs. destruct key as [i|]; [|auto].
  destruct ((0 <=? i) && (i <? Z.of_nat (length strat))); [|auto].
  apply list_elem_of_lookup in Hs as (k & Hk).
  destruct (decide (k = Z.to_nat i)) as [->|Hne].
  - rewrite list_lookup_insert_eq in Hk
      by (apply lookup_lt_Some in Hk; now rewrite length_insert in Hk).
    injection Hk as <-.
    destruct Hv as [->|(x & Hx & [->| ->])]; cbn [toUint8]; [auto| |];
      destruct (Hb x Hx) as [->| ->]; cbn; auto.
  - rewrite list_lookup_insert_ne in Hk by congruence.
    apply Hb. eapply list_elem_of_lookup_2; eassumption.
Qed.

Lemma copied_get strat p : copied strat (strat_get strat p).
Proof.
  unfold copied, strat_get. destruct p as [j|]; [|now left].
  destruct (js_get strat j) as [s|] eqn:E; [|now left].
  right. exists s. split; [eapply Payoff.js_get_elem; eassumption | now left].
Qed.

Lemma copied_mutate strat mu p rng : copied strat (fst (mutate mu (strat_get strat p) rng)).
Proof.
  unfold mutate. destruct (ngt mu (Fin 0)); [|apply copied_get].
  destruct (RNG.random rng) as [r rng1].
  destruct (nlt (Fin r) mu); cbn [fst]; [|apply copied_get].
  destruct (copied_get strat p) as [->|(s & Hs & [->|E])]; unfold copied, flip.
  - now left.
  - right. exists s. auto.
  - rewrite E. right. exists s. split; [exact Hs|]. left. f_equal. lia.
Qed.

Lemma one_flip_unchanged strat rng keys c :
  one_flip strat {| strat_after := strat; rng_after := rng; assigned := keys; how := c |}.
Proof. unfold one_flip. cbn [strat_after]. split; [reflexivity|]. split; [auto | lia]. Qed.

Lemma one_flip_set strat key v rng keys :
  copied strat v -> one_flip strat (returned (strat_set strat key v) rng keys).
Proof.
  intros Hv. unfold one_flip, returned. cbn [strat_after].
  split; [apply Rules.strat_set_length|].
  split; [intros Hb; now apply binary_strat_set | apply count_strat_set].
Qed.

Lemma stepDB_one_flip g strat M w mu rng : one_flip strat (stepDB g strat M w mu rng).
Proof.
  unfold stepDB. destruct (computePayoffs g strat M) as [pay|e]; [|apply one_flip_unchanged].
  destruct (RNG.int (N g) rng) as [dead rng1].
  destruct (js_get (adj g) dead) as [neigh|]; [|apply one_flip_unchanged].
  destruct (_ =? 0); [apply one_flip_unchanged|].
  destruct (pickWeightedIndex _ rng1) as [winnerIdx rng2].
  pose proof (copied_mutate strat mu (js_get neigh winnerIdx) rng2) as Hc.
  destruct (mutate mu _ rng2) as [childStrat rng3].
  now apply one_flip_set.
Qed.

Lemma stepBD_one_flip g strat M w mu rng : one_flip strat (stepBD g strat M w mu rng).
Proof.
  unfold stepBD. destruct (computePayoffs g strat M) as [pay|e]; [|apply one_flip_unchanged].
  destruct (pickWeightedIndex _ rng) as [parent rng1].
  destruct (js_get (adj g) parent) as [neigh|]; [|apply one_flip_unchanged].
  destruct (_ =? 0); [apply one_flip_unchanged|].
  destruct (RNG.int _ rng1) as [k rng2].
  pose proof (copied_mutate strat mu (Some parent) rng2) as Hc.
  destruct (mutate mu _ rng2) as [childStrat rng3].
  now apply one_flip_set.
Qed.

Lemma stepImitationFermi_one_flip Math_exp g strat M beta mu rng :
  one_flip strat (stepImitationFermi Math_exp g strat M beta mu rng).
Proof.
  unfold stepImitationFermi.
  destruct (computePayoffs g strat M) as [pay|e]; [|apply one_flip_unchanged].
  destruct (RNG.int (N g) rng) as [i rng1].
  destruct (js_get (adj g) i) as [neigh|]; [|apply one_flip_unchanged].
  destruct (_ =? 0); [apply one_flip_unchanged|].
  destruct (RNG.int _ rng1) as [k rng2].
  destruct (RNG.random rng2) as [r rng3].
  destruct (nlt _ _); [|apply one_flip_unchanged].
  pose proof (copied_mutate strat mu (js_get neigh k) rng3) as Hc.
  destruct (mutate mu _ rng3) as [s rng4].
  now apply one_flip_set.
Qed.

Lemma binary_fixated l :
  binary l ->
  isFixated l = true <->
  countCooperators l = 0 \/ countCooperators l = Z.of_nat (length l).
Proof.
  intros Hb. rewrite Fixation.isFixated_iff, count_none, count_all. split.
  - intros (v & Hv). destruct (decide (v = 1)) as [->|Hne]; [now right|].
    left. intros s Hs. now rewrite (Hv s Hs).
  - intros [H|H].
    + exists 0. intros s Hs. destruct (Hb s Hs) as [E|E]; [exact E|]. now apply H in E.
    + exists 1. exact H.
Qed.

End Count.

(** [countCooperators(strat)] is the number of entries equal to 1: it lies
    between 0 and the length, equals the length exactly when every entry is
    1 and is 0 exactly when no entry is 1; an array of zeros and ones is
    fixated exactly when the count is 0 or the length. *)
Theorem countCooperators_spec (strat : list Z) :
  countCooperators strat = Z.of_nat (length (filter (fun s => s = 1) strat)) /\
  0 <= countCooperators strat <= Z.of_nat (length strat) /\
  (countCooperators strat = Z.of_nat (length strat) <-> forall s, s ∈ strat -> s = 1) /\
  (countCooperators strat = 0 <-> forall s, s ∈ strat -> s <> 1) /\
  (binary strat ->
   (isFixated strat = true <->
    countCooperators strat = 0 \/ countCooperators strat = Z.of_nat (length strat))).
Proof.
  split; [apply Count.count_filter|]. split; [apply Count.count_bounds|].
  split; [apply Count.count_all|]. split; [apply Count.count_none|].
  apply Count.binary_fixated.
Qed.

(** Whatever the graph, the parameters and the generator state, a call of
    [stepDB], [stepBD] or [stepImitationFermi] keeps the length of the
    strategy array, keeps an array of zeros and ones an array of zeros and
    ones (mutation included), and moves the number of cooperators by one
    at most. *)
Theorem rules_one_flip Math_exp g strat M w mu rng :
  one_flip strat (stepDB g strat M w mu rng) /\
  one_flip strat (stepBD g strat M w mu rng) /\
  one_flip strat (stepImitationFermi Math_exp g strat M w mu rng).
Proof.
  split; [apply Count.stepDB_one_flip|].
  split; [apply Count.stepBD_one_flip | apply Count.stepImitationFermi_one_flip].
Qed.

(** ** pickWeightedIndex and the payoffs of a uniform population, in binary64 *)

Module Pick64.
Import Binary64.

Lemma scan_range weights : forall i r k,
  scanWeights weights i r = Some k -> i <= k < i + Z.of_nat (length weights).
Proof.
  induction weights as [|w ws IH]; intros i r k; cbn [scanWeights length]; [discriminate|].
  destruct (PrimFloat.leb _ _).
  - intros [= <-]. lia.
  - intros H. apply IH in H. lia.
Qed.

(** The terms of a node's payoff in a population of one strategy. *)
Lemma uniform_terms strat M v i nei :
  (forall j, j ∈ i :: nei -> js_get strat j = Some v) ->
  payoff_terms strat M i nei
  = replicate (length nei) (matrix_entry M (strategy_of v) (strategy_of v)).
Proof.
  intros H. unfold payoff_terms. rewrite (H i) by constructor. simpl default.
  assert (Hn : forall j, j ∈ nei -> js_get strat j = Some v)
    by (intros j Hj; apply H; constructor; exact Hj).
  clear H. induction nei as [|j l IH]; [reflexivity|].
  cbn [map length replicate]. rewrite (Hn j) by constructor. simpl default.
  f_equal. apply IH. intros j' Hj'. apply Hn. constructor. exact Hj'.
Qed.

End Pick64.

(** [pickWeightedIndex] in binary64.  When the accumulated total is [<= 0]
    the call is [rng.int(weights.length)]; when it is not (the total is
    positive or [NaN]) the call makes one draw and returns an index of the
    array.  (The index need not carry a positive weight: on the weights
    0.1, 0.2, 0.3, 0 the total is 0.6000000000000001, and the draw 1.0
    leaves a positive remainder after the three subtractions, so the index
    is 3.) *)
Theorem pickWeightedIndex_in_array (weights : list float) (rng : Z) :
  (PrimFloat.leb (fold_left PrimFloat.add weights 0%float) 0 = true ->
   Binary64.pickWeightedIndex weights rng
   = Binary64.int (Z.of_nat (length weights)) rng) /\
  (PrimFloat.leb (fold_left PrimFloat.add weights 0%float) 0 = false ->
   exists i, Binary64.pickWeightedIndex weights rng = (Some i, snd (RNG.nextU32 rng)) /\
             0 <= i < Z.of_nat (length weights)).
Proof.
  unfold Binary64.pickWeightedIndex. split; intros Ht; rewrite Ht; [reflexivity|].
  assert (Hne : 0 < Z.of_nat (length weights)).
  { destruct weights; [|simpl; lia]. cbn [fold_left] in Ht.
    replace (PrimFloat.leb 0 0) with true in Ht by (vm_compute; reflexivity).
    discriminate. }
  unfold Binary64.random. destruct (RNG.nextU32 rng) as [x rng1]. cbn [snd].
  destruct (Binary64.scanWeights weights 0 _) as [k|] eqn:Hk.
  - exists k. split; [reflexivity|]. apply Pick64.scan_range in Hk. lia.
  - exists (Z.of_nat (length weights) - 1). split; [reflexivity|]. lia.
Qed.

Lemma pickWeightedIndex_in_array_witness :
  Binary64.pickWeightedIndex
    [0x1.999999999999ap-4; 0x1.999999999999ap-3; 0x1.3333333333333p-2; 0]%float 1584200935
  = (Some 3, 4294967295) /\
  exists i, Binary64.pickWeightedIndex
              [0x1.999999999999ap-4; 0x1.999999999999ap-3; 0x1.3333333333333p-2; 0]%float
              1584200935
            = (Some i, snd (RNG.nextU32 1584200935)) /\
            0 <= i < Z.of_nat 4.
Proof.
  split; [vm_compute; reflexivity|].
  apply (proj2 (pickWeightedIndex_in_array
                  [0x1.999999999999ap-4; 0x1.999999999999ap-3; 0x1.3333333333333p-2; 0]%float
                  1584200935)).
  vm_compute. reflexivity.
Defined.

(** In a population where every node plays the same strategy, the payoff
    [computePayoffs] gives a node is [R] (all cooperate) or [P] (all
    defect) added to 0 once per neighbor, each addition rounded; an isolated
    node earns 0. *)
Theorem uniform_payoffs_accumulate (g : Graph) (strat : list Z) (M : Binary64.Matrix.t)
    (v : Z) :
  well_formed g -> strategies_for g strat -> (forall s, s ∈ strat -> s = v) ->
  exists pay, Binary64.computePayoffs g strat M = Ok pay /\
    forall i nei, js_get (adj g) i = Some nei ->
      js_get pay i
      = Some (fold_left PrimFloat.add
                (replicate (length nei)
                   (if v =? 1 then Binary64.Matrix.R M else Binary64.Matrix.P M))
                0%float).
Proof.
  intros Hwf Hst Hall. pose proof Hwf as [Hs Hnb]. pose proof Hst as [Hlen Hbin].
  rewrite (Payoff64.computePayoffs_returns g strat M Hs ltac:(lia)).
  eexists. split; [reflexivity|].
  intros i nei Hi.
  assert (Hget : forall j, 0 <= j < N g -> js_get strat j = Some v).
  { intros j Hj. destruct (js_get_in_range strat j ltac:(lia)) as [s Hsj].
    rewrite Hsj. f_equal. apply Hall. eapply Payoff.js_get_elem; eassumption. }
  assert (Hir : 0 <= i < N g).
  { pose proof (js_get_Some _ _ _ Hi) as Hr. destruct Hs as [_ Hl]. lia. }
  rewrite Payoff.js_get_fmap_seqZ by exact Hir.
  rewrite Hi, (Hget i Hir). change (default [] (Some nei)) with nei.
  f_equal.
  rewrite (Payoff64.payoffOf_sum g strat M i nei v Hwf Hst Hi (Hget i Hir)).
  unfold Binary64.payoff_sum.
  rewrite (Pick64.uniform_terms strat M v i nei).
  - f_equal. f_equal. unfold Binary64.strategy_of, Binary64.matrix_entry.
    destruct (v =? 1); reflexivity.
  - intros j Hj. apply Hget. apply elem_of_cons in Hj as [->|Hj]; [exact Hir|].
    eapply Hnb; eassumption.
Qed.

Lemma uniform_payoffs_accumulate_witness :
  exists pay,
    Binary64.computePayoffs pairGraph [1; 1] (Binary64.donationToMatrix 3 1) = Ok pay /\
    forall i nei, js_get (adj pairGraph) i = Some nei ->
      js_get pay i
      = Some (fold_left PrimFloat.add
                (replicate (length nei)
                   (if 1 =? 1 then Binary64.Matrix.R (Binary64.donationToMatrix 3 1)
                    else Binary64.Matrix.P (Binary64.donationToMatrix 3 1)))
                0%float).
Proof.
  apply (uniform_payoffs_accumulate pairGraph [1; 1] (Binary64.donationToMatrix 3 1) 1).
  - exact pairGraph_well_formed.
  - split; [reflexivity|]. intros s Hs.
    repeat (apply elem_of_cons in Hs as [->|Hs]; [auto|]). inversion Hs.
  - intros s Hs. repeat (apply elem_of_cons in Hs as [->|Hs]; [reflexivity|]). inversion Hs.
Defined.

(** ** The page script: resetPopulation, stepMany and the trials *)

Module Page.

Lemma ratio_range x :
  0 <= x < 2 ^ 32 -> (0 <= inject_Z x / inject_Z 4294967295 <= 1)%Q.
Proof.
  intros Hx. unfold Qle, Qdiv, Qmult, Qinv, inject_Z. cbn.
  rewrite ?Pos.mul_1_l, ?Z.mul_1_r. lia.
Qed.

Lemma output_range rng k : 0 <= RNG.output rng k < 2 ^ 32.
Proof. rewrite RNGFacts.output_eq. apply RNGFacts.nextU32_range. Qed.

Lemma random_advance rng k :
  RNG.random (RNG.advance k rng)
  = ((inject_Z (RNG.output rng k) / inject_Z 4294967295)%Q, RNG.advance (S k) rng).
Proof.
  rewrite RNGFacts.random_eq, RNGFacts.advance_S, RNGFacts.nextU32_state,
    RNGFacts.output_eq. reflexivity.
Qed.

Lemma reset_loop initC rng n : forall k : nat,
  (k <= n)%nat ->
  exists strat,
    fold_left (fun '(strat, rng) i =>
                 let '(r, rng) := RNG.random rng in
                 (strat_set strat (Some i)
                    (Some (if nlt (Fin r) initC then 1 else 0)), rng))
              (seqZ 0 (Z.of_nat k)) (replicate n 0, rng)
    = (strat, RNG.advance k rng) /\
    length strat = n /\
    (forall i, (i < k)%nat -> strat !! i = Some (initialStrategy initC rng i)) /\
    (forall i, (k <= i < n)%nat -> strat !! i = Some 0).
Proof.
  induction k as [|k IH]; intros Hk.
  - exists (replicate n 0). split; [reflexivity|]. split; [apply length_replicate|].
    split; [lia|]. intros i Hi. apply lookup_replicate_2. lia.
  - destruct IH as (strat & Hfold & Hlen & Hlow & Hhigh); [lia|].
    rewrite seqZ_S, fold_left_app, Hfold. cbn [fold_left].
    rewrite random_advance. rewrite Z.add_0_l.
    eexists. split; [reflexivity|].
    unfold strat_set.
    destruct (Z.leb_spec 0 (Z.of_nat k)); [|lia].
    destruct (Z.ltb_spec (Z.of_nat k) (Z.of_nat (length strat))); [|lia].
    cbn [andb]. rewrite Nat2Z.id.
    split; [now rewrite length_insert|]. split.
    + intros i Hi. destruct (decide (i = k)) as [->|Hne].
      * rewrite list_lookup_insert_eq by lia. f_equal. unfold initialStrategy.
        destruct (nlt _ initC); reflexivity.
      * rewrite list_lookup_insert_ne by congruence. apply Hlow. lia.
    + intros i Hi. rewrite list_lookup_insert_ne by lia. apply Hhigh. lia.
Qed.

Lemma initialStrategy_bit initC rng k :
  initialStrategy initC rng k = 0 \/ initialStrategy initC rng k = 1.
Proof. unfold initialStrategy. destruct (nlt _ _); auto. Qed.

Lemma initialStrategy_none initC rng k :
  nlt (Fin 0) initC = false -> initialStrategy initC rng k = 0.
Proof.
  intros H. unfold initialStrategy.
  pose proof (ratio_range _ (output_range rng k)) as [Hr _].
  destruct initC as [c|]; [|reflexivity]. cbn [nlt] in *. unfold Qltb in *.
  apply negb_false_iff, Qle_bool_iff in H.
  destruct (Qle_bool c _) eqn:E; [reflexivity|]. cbn [negb].
  exfalso. apply not_true_iff_false in E. apply E, Qle_bool_iff. lra.
Qed.

Lemma initialStrategy_all initC rng k :
  nlt (Fin 1) initC = true -> initialStrategy initC rng k = 1.
Proof.
  intros H. unfold initialStrategy.
  pose proof (ratio_range _ (output_range rng k)) as [_ Hr].
  destruct initC as [c|]; [|discriminate]. cbn [nlt] in *. unfold Qltb in *.
  apply negb_true_iff, not_true_iff_false in H.
  destruct (Qle_bool c (inject_Z (RNG.output rng k) / inject_Z 4294967295)) eqn:E;
    [|reflexivity].
  apply Qle_bool_iff in E. exfalso. apply H. apply Qle_bool_iff. lra.
Qed.

Lemma ratio_lt_one x :
  0 <= x < 2 ^ 32 ->
  Qltb (inject_Z x / inject_Z 4294967295) 1 = if decide (x = 4294967295) then false else true.
Proof.
  intros Hr. destruct (decide (x = 4294967295)) as [->|Hne]; [reflexivity|].
  unfold Qltb. apply negb_true_iff, not_true_iff_false. intros E.
  apply Qle_bool_iff in E.
  unfold Qle, Qdiv, Qmult, Qinv, inject_Z in E. cbn in E.
  rewrite ?Pos.mul_1_l, ?Z.mul_1_r in E. lia.
Qed.

Lemma initialStrategy_one rng k :
  initialStrategy (Fin 1) rng k = if decide (RNG.output rng k = 4294967295) then 0 else 1.
Proof.
  unfold initialStrategy. cbn [nlt]. rewrite ratio_lt_one by apply output_range.
  destruct (decide (RNG.output rng k = 4294967295)); reflexivity.
Qed.

Lemma reset_returns (g : Graph) (initC : num) (rng : Z) :
  0 <= N g ->
  exists strat,
    resetPopulation g initC rng = Some (strat, RNG.advance (Z.to_nat (N g)) rng) /\
    strategies_for g strat /\
    (forall k, (k < Z.to_nat (N g))%nat ->
               strat !! k = Some (initialStrategy initC rng k)) /\
    (forall s, s ∈ strat -> exists k, s = initialStrategy initC rng k).
Proof.
  intros H. unfold resetPopulation. destruct (Z.ltb_spec (N g) 0); [lia|].
  destruct (reset_loop initC rng (Z.to_nat (N g)) (Z.to_nat (N g)) ltac:(lia))
    as (strat & Hfold & Hlen & Hlow & _).
  rewrite Z2Nat.id in Hfold by lia. rewrite Hfold.
  exists strat. split; [reflexivity|].
  assert (Hall : forall s, s ∈ strat -> exists k, s = initialStrategy initC rng k).
  { intros s Hs. apply list_elem_of_lookup in Hs as (i & Hi).
    pose proof (lookup_lt_Some _ _ _ Hi) as Hlt.
    rewrite Hlow in Hi by lia. injection Hi as <-. eauto. }
  split; [|split; [exact Hlow | exact Hall]].
  split; [lia|]. intros s Hs. destruct (Hall s Hs) as (k & ->).
  apply initialStrategy_bit.
Qed.

End Page.


(** [resetPopulation()] throws for a negative node count; otherwise it
    consumes exactly [N] draws and returns an array of [N] zeros and ones:
    all defectors when [initC] is not positive, all cooperators when
    [initC > 1], and with [initC = 1] a defector exactly at the draws that
    equal [0xFFFFFFFF]. *)
Theorem resetPopulation_spec (g : Graph) (initC : num) (rng : Z) :
  (N g < 0 -> resetPopulation g initC rng = None) /\
  (0 <= N g ->
   exists strat,
     resetPopulation g initC rng = Some (strat, RNG.advance (Z.to_nat (N g)) rng) /\
     strategies_for g strat /\
     (nlt (Fin 0) initC = false -> countCooperators strat = 0) /\
     (nlt (Fin 1) initC = true -> countCooperators strat = N g) /\
     (initC = Fin 1 ->
      forall k, (k < Z.to_nat (N g))%nat ->
                strat !! k = Some (if decide (RNG.output rng k = 4294967295) then 0 else 1))).
Proof.
  split.
  - intros H. unfold resetPopulation. destruct (Z.ltb_spec (N g) 0); [reflexivity | lia].
  - intros H. destruct (Page.reset_returns g initC rng H) as (strat & Hr & Hs & Hlow & Hall).
    exists strat. split; [exact Hr|]. split; [exact Hs|].
    split; [|split].
    + intros Hzero. apply Count.count_none. intros s Hin.
      destruct (Hall s Hin) as (k & ->).
      rewrite Page.initialStrategy_none by exact Hzero. lia.
    + intros Hone. rewrite <- (proj1 Hs).
      apply Count.count_all. intros s Hin.
      destruct (Hall s Hin) as (k & ->). now apply Page.initialStrategy_all.
    + intros -> k Hk. rewrite Hlow by exact Hk. f_equal. apply Page.initialStrategy_one.
Qed.

Module Ticks.

Section Loop.
Variable Math_exp : num -> num.
Variables (g : Graph) (M : Matrix) (which : rule) (intensity mu : num).

Lemma update_one_flip s rng :
  one_flip s (update Math_exp g M which intensity mu s rng).
Proof.
  unfold update. destruct which;
    [apply Count.stepDB_one_flip | apply Count.stepBD_one_flip
    | apply Count.stepImitationFermi_one_flip].
Qed.

Lemma stepLoop_keeps (steps : nat) : forall s rng t s' rng' t',
  stepLoop Math_exp g M which intensity mu steps s rng t = Ok (s', rng', t') ->
  length s' = length s /\ (binary s -> binary s') /\
  - Z.of_nat steps <= countCooperators s' - countCooperators s <= Z.of_nat steps /\
  t' = t + Z.of_nat steps.
Proof.
  induction steps as [|steps IH]; intros s rng t s' rng' t' H; cbn [stepLoop] in H.
  - injection H as <- <- <-. split; [reflexivity|]. split; [auto|]. lia.
  - destruct (update_one_flip s rng) as (Hlen & Hbin & Hcount).
    destruct (how (update Math_exp g M which intensity mu s rng)); [|discriminate].
    apply IH in H as (Hlen' & Hbin' & Hcount' & ->).
    split; [congruence|]. split; [auto|]. lia.
Qed.

End Loop.

Section Trial.
Variable Math_exp : num -> num.
Variables (g : Graph) (M : Matrix) (which : rule) (intensity : num).

Lemma tick_one_flip s rng : one_flip s (tick Math_exp g M which intensity s rng).
Proof.
  unfold tick. destruct which;
    [apply Count.stepDB_one_flip | apply Count.stepBD_one_flip
    | apply Count.stepImitationFermi_one_flip].
Qed.

Lemma runSteps_keeps (left : nat) : forall s rng s',
  runSteps Math_exp g M which intensity left s rng = Ok s' ->
  length s' = length s /\ (binary s -> binary s').
Proof.
  induction left as [|left IH]; intros s rng s' H; cbn [runSteps] in H.
  - injection H as <-. auto.
  - destruct (isFixated s); [injection H as <-; auto|].
    destruct (tick_one_flip s rng) as (Hlen & Hbin & _).
    destruct (how (tick Math_exp g M which intensity s rng)); [|discriminate].
    apply IH in H as (Hlen' & Hbin'). split; [congruence | auto].
Qed.

Lemma runTrial_eq baseSeed maxSteps tr :
  runTrial Math_exp g M which intensity baseSeed maxSteps tr =
  do s <- runSteps Math_exp g M which intensity (Z.to_nat maxSteps)
            (fst (trialStart g baseSeed tr)) (snd (trialStart g baseSeed tr));
  Ok (if negb (isFixated s) then Timeout
      else if is1 (js_get s 0) then AllCooperate else AllDefect).
Proof.
  unfold runTrial, trialStart.
  destruct (RNG.int (N g) (trialRng baseSeed tr)) as [i r]. reflexivity.
Qed.

End Trial.

Lemma binary_replicate n v : v = 0 \/ v = 1 -> binary (replicate n v).
Proof. intros Hv s Hs. apply elem_of_replicate in Hs as [-> _]. exact Hv. Qed.

Lemma binary_set_bit strat key v :
  binary strat -> v = 0 \/ v = 1 -> binary (strat_set strat key (Some v)).
Proof.
  intros Hb Hv s Hs. unfold strat_set in Hs. destruct key as [i|]; [|auto].
  destruct ((0 <=? i) && (i <? Z.of_nat (length strat))); [|auto].
  apply list_elem_of_lookup in Hs as (k & Hk).
  destruct (decide (k = Z.to_nat i)) as [->|Hne].
  - rewrite list_lookup_insert_eq in Hk
      by (apply lookup_lt_Some in Hk; now rewrite length_insert in Hk).
    injection Hk as <-. destruct Hv as [-> | ->]; cbn; auto.
  - rewrite list_lookup_insert_ne in Hk by congruence.
    apply Hb. eapply list_elem_of_lookup_2; eassumption.
Qed.

Lemma trialStart_binary g baseSeed tr :
  length (fst (trialStart g baseSeed tr)) = Z.to_nat (N g) /\
  binary (fst (trialStart g baseSeed tr)).
Proof.
  unfold trialStart.
  destruct (RNG.int (N g) (trialRng baseSeed tr)) as [i r]. cbn [fst].
  split; [now rewrite Rules.strat_set_length, length_replicate|].
  apply binary_set_bit.
  - apply binary_replicate. destruct (js_rem tr 2 =? 0); auto.
  - destruct (js_rem tr 2 =? 0); auto.
Qed.

Lemma count_replicate n v :
  countCooperators (replicate n v) = if v =? 1 then Z.of_nat n else 0.
Proof.
  induction n as [|n IH]; [destruct (v =? 1); reflexivity|].
  cbn [replicate]. rewrite Count.count_cons, IH. destruct (v =? 1); lia.
Qed.

End Ticks.

(** [stepMany(steps)], whenever it returns: the strategy array is still an
    array of zeros and ones with one entry per node, the tick counter has
    advanced by [steps] (by nothing for [steps <= 0]), the number of
    cooperators has moved by [steps] at most, and the fraction reported is
    the count over the length ([NaN] for the empty array), between 0 and 1. *)
Theorem stepMany_keeps Math_exp g M which intensity mu steps s rng t s' rng' t' frac :
  strategies_for g s ->
  stepMany Math_exp g M which intensity mu steps s rng t = Ok (s', rng', t', frac) ->
  strategies_for g s' /\
  t' = t + Z.max 0 steps /\
  - Z.max 0 steps <= countCooperators s' - countCooperators s <= Z.max 0 steps /\
  (N g = 0 -> frac = NaN) /\
  (N g <> 0 ->
   exists q, frac = Fin q /\
             (q == inject_Z (countCooperators s') / inject_Z (N g))%Q /\ (0 <= q <= 1)%Q).
Proof.
  intros [Hlen Hbin] H. unfold stepMany in H.
  apply rbind_inv in H as ([[s1 rng1] t1] & Hloop & H). injection H as <- <- <- <-.
  apply Ticks.stepLoop_keeps in Hloop as (Hlen1 & Hbin1 & Hcount & ->).
  replace (Z.of_nat (Z.to_nat steps)) with (Z.max 0 steps) in * by lia.
  assert (Hl1 : Z.of_nat (length s1) = N g) by (rewrite Hlen1; exact Hlen).
  split; [split; [exact Hl1 | exact (Hbin1 Hbin)]|].
  split; [reflexivity|]. split; [lia|]. rewrite Hl1. split.
  - intros ->. reflexivity.
  - intros Hn. destruct (Z.eqb_spec (N g) 0); [contradiction|].
    eexists. split; [reflexivity|]. split; [reflexivity|].
    pose proof (Count.count_bounds s1) as Hb. rewrite Hl1 in Hb.
    set (c := countCooperators s1) in *. clearbody c.
    unfold Qle, Qdiv, Qmult, Qinv, inject_Z.
    destruct (N g) as [|p|p]; [contradiction | | lia].
    cbn. rewrite ?Pos.mul_1_l, ?Z.mul_1_r. lia.
Qed.

Lemma stepMany_keeps_witness :
  exists s' rng' t' frac,
    stepMany (fun _ => Fin 1) pairGraph (donationToMatrix (Fin 3) (Fin 1)) DB
             (Fin (1 # 10)) (Fin (1 # 100)) 5 [1; 0] 1 0 = Ok (s', rng', t', frac) /\
    strategies_for pairGraph s' /\ t' = 0 + Z.max 0 5.
Proof.
  destruct (stepMany (fun _ => Fin 1) pairGraph (donationToMatrix (Fin 3) (Fin 1)) DB
              (Fin (1 # 10)) (Fin (1 # 100)) 5 [1; 0] 1 0)
    as [[[[s' rng'] t'] frac]|e] eqn:H; [|vm_compute in H; discriminate].
  exists s', rng', t', frac. split; [reflexivity|].
  assert (Hs : strategies_for pairGraph [1; 0]).
  { split; [reflexivity|]. intros s Hs.
    repeat (apply elem_of_cons in Hs as [->|Hs]; [auto|]). inversion Hs. }
  destruct (stepMany_keeps _ _ _ _ _ _ _ _ _ _ _ _ _ _ Hs H) as (H1 & H2 & _).
  split; [exact H1 | exact H2].
Defined.

(** A trial of [runFixation] that ends (no rule throws) ends with an array
    of zeros and ones, one per node, and reports it truthfully: all
    cooperate only if every entry is 1, all defect only if every entry is
    0, and a time-out only if both strategies are still present. *)
Theorem runTrial_outcome Math_exp g M which intensity baseSeed maxSteps tr o :
  runTrial Math_exp g M which intensity baseSeed maxSteps tr = Ok o ->
  exists s',
    runSteps Math_exp g M which intensity (Z.to_nat maxSteps)
      (fst (trialStart g baseSeed tr)) (snd (trialStart g baseSeed tr)) = Ok s' /\
    length s' = Z.to_nat (N g) /\ binary s' /\
    match o with
    | AllCooperate => 0 < N g /\ forall x, x ∈ s' -> x = 1
    | AllDefect => forall x, x ∈ s' -> x = 0
    | Timeout => 0 ∈ s' /\ 1 ∈ s'
    end.
Proof.
  intros H. rewrite Ticks.runTrial_eq in H.
  apply rbind_inv in H as (s' & Hrun & H). injection H as <-.
  exists s'. split; [exact Hrun|].
  destruct (Ticks.trialStart_binary g baseSeed tr) as [Hlen0 Hbin0].
  apply Ticks.runSteps_keeps in Hrun as [Hlen Hbin]. specialize (Hbin Hbin0).
  split; [congruence|]. split; [exact Hbin|].
  destruct (isFixated s') eqn:Hfix; cbn [negb].
  - apply Fixation.isFixated_iff in Hfix as (v & Hv).
    destruct (js_get s' 0) as [x|] eqn:H0.
    + pose proof (Payoff.js_get_elem _ _ _ H0) as Hx.
      pose proof (js_get_Some _ _ _ H0) as Hr.
      assert (x = v) as -> by auto.
      destruct (Hbin v Hx) as [-> | ->]; cbn [is1].
      * exact Hv.
      * split; [lia | exact Hv].
    + cbn [is1]. intros x Hx. apply list_elem_of_lookup in Hx as (i & Hi).
      apply lookup_lt_Some in Hi.
      apply js_get_None in H0. lia.
  - assert (Hc : ~ (countCooperators s' = 0 \/ countCooperators s' = Z.of_nat (length s'))).
    { intros Hc. apply (Count.binary_fixated s' Hbin) in Hc. congruence. }
    split.
    + destruct (decide (0 ∈ s')) as [|Hn]; [assumption|].
      exfalso. apply Hc. right. apply Count.count_all. intros s Hs.
      destruct (Hbin s Hs) as [->|]; [contradiction | assumption].
    + destruct (decide (1 ∈ s')) as [|Hn]; [assumption|].
      exfalso. apply Hc. left. apply Count.count_none. intros s Hs ->. contradiction.
Qed.

Lemma runTrial_outcome_witness :
  exists o s',
    runTrial (fun _ => Fin 1) pairGraph (donationToMatrix (Fin 3) (Fin 1)) DB
             (Fin (1 # 10)) 1 50 0 = Ok o /\
    runSteps (fun _ => Fin 1) pairGraph (donationToMatrix (Fin 3) (Fin 1)) DB
             (Fin (1 # 10)) (Z.to_nat 50)
             (fst (trialStart pairGraph 1 0)) (snd (trialStart pairGraph 1 0)) = Ok s' /\
    binary s'.
Proof.
  destruct (runTrial (fun _ => Fin 1) pairGraph (donationToMatrix (Fin 3) (Fin 1)) DB
              (Fin (1 # 10)) 1 50 0) as [o|e] eqn:H; [|vm_compute in H; discriminate].
  destruct (runTrial_outcome _ _ _ _ _ _ _ _ _ H) as (s' & Hrun & _ & Hbin & _).
  exists o, s'. split; [reflexivity|]. split; [exact Hrun | exact Hbin].
Defined.

(** A trial of [runFixation] on [N >= 1] nodes starts from exactly one
    mutant (one cooperator in even trials, one defector in odd trials)
    whenever its first draw is not [0xFFFFFFFF]; at that draw the write
    falls outside the array and the trial starts without a mutant. *)
Theorem trialStart_one_mutant (g : Graph) (baseSeed tr : Z) :
  1 <= N g ->
  (RNG.output (trialRng baseSeed tr) 0 <> 4294967295 ->
   countCooperators (fst (trialStart g baseSeed tr))
   = if js_rem tr 2 =? 0 then 1 else N g - 1) /\
  (RNG.output (trialRng baseSeed tr) 0 = 4294967295 ->
   fst (trialStart g baseSeed tr)
   = replicate (Z.to_nat (N g)) (if js_rem tr 2 =? 0 then 0 else 1)).
Proof.
  intros HN.
  pose proof (constructor64_valid (trialSeed baseSeed tr)) as Hv.
  fold (trialRng baseSeed tr) in Hv.
  rewrite Bounds.output_0. unfold trialStart.
  set (rng := trialRng baseSeed tr) in *. clearbody rng.
  pose proof (RNGFacts.int_range (N g) rng Hv ltac:(lia)) as Hr.
  pose proof (RNGFacts.int_lt_iff (N g) rng Hv ltac:(lia)) as Hlt.
  destruct (RNG.int (N g) rng) as [i r]. cbn [fst] in *.
  set (fill := if js_rem tr 2 =? 0 then 0 else 1).
  unfold strat_set. rewrite length_replicate.
  destruct (Z.leb_spec 0 i); [|lia]. cbn [andb]. split.
  - intros Hdraw. apply Hlt in Hdraw.
    destruct (Z.ltb_spec i (Z.of_nat (Z.to_nat (N g)))); [|lia].
    rewrite (Count.count_insert _ _ fill) by (apply lookup_replicate_2; lia).
    rewrite Ticks.count_replicate. unfold fill, toUint8.
    destruct (js_rem tr 2 =? 0).
    + change ((1 - 0) mod 256 =? 1) with true. change (0 =? 1) with false. cbv iota. lia.
    + change ((1 - 1) mod 256 =? 1) with false. change (1 =? 1) with true. cbv iota. lia.
  - intros Hdraw. assert (i = N g) as -> by (destruct Hlt as [Hlt _]; lia).
    destruct (Z.ltb_spec (N g) (Z.of_nat (Z.to_nat (N g)))); [lia | reflexivity].
Qed.

Lemma trialStart_one_mutant_witness :
  countCooperators (fst (trialStart pairGraph 1 0)) = 1 /\
  countCooperators (fst (trialStart pairGraph 1 1)) = 2 - 1.
Proof.
  split.
  - apply (trialStart_one_mutant pairGraph 1 0); [cbn; lia | vm_compute; discriminate].
  - apply (trialStart_one_mutant pairGraph 1 1); [cbn; lia | vm_compute; discriminate].
Defined.

(** [RNG.choice(arr)] consumes one draw; on the empty array it returns
    [undefined]; on a non-empty array it returns an element of the array,
    except at the draw [0xFFFFFFFF], where it reads one past the end and
    returns [undefined]. *)
Theorem choice_spec {A} (arr : list A) (rng : Z) :
  RNG.valid rng ->
  snd (choice arr rng) = fst (RNG.nextU32 rng) /\
  (arr = [] -> fst (choice arr rng) = None) /\
  (arr <> [] ->
   (fst (RNG.nextU32 rng) <> 4294967295 ->
    exists x, fst (choice arr rng) = Some x /\ x ∈ arr) /\
   (fst (RNG.nextU32 rng) = 4294967295 -> fst (choice arr rng) = None)).
Proof.
  intros Hv. unfold choice.
  pose proof (RNGFacts.int_state (Z.of_nat (length arr)) rng) as Hst.
  pose proof (RNGFacts.int_range (Z.of_nat (length arr)) rng Hv ltac:(lia)) as Hr.
  destruct (decide (arr = [])) as [->|Hne].
  - destruct (RNG.int (Z.of_nat (length (@nil A))) rng) as [k r]. cbn [fst snd] in *.
    split; [exact Hst|]. split; [|congruence].
    intros _. unfold js_get. destruct (k <? 0); [reflexivity|]. apply lookup_nil.
  - assert (Hlen : 0 < Z.of_nat (length arr)) by (destruct arr; [congruence | cbn; lia]).
    pose proof (RNGFacts.int_lt_iff (Z.of_nat (length arr)) rng Hv Hlen) as Hlt.
    destruct (RNG.int (Z.of_nat (length arr)) rng) as [k r]. cbn [fst snd] in *.
    split; [exact Hst|]. split; [congruence|]. intros _. split.
    + intros Hdraw. apply Hlt in Hdraw.
      destruct (js_get_in_range arr k ltac:(lia)) as [x Hx].
      exists x. split; [exact Hx|]. eapply Payoff.js_get_elem; eassumption.
    + intros Hdraw. apply js_get_None. destruct Hlt as [Hlt _].
      intros Hin. apply Hlt; [lia | exact Hdraw].
Qed.

Lemma choice_spec_witness :
  snd (choice [10; 20; 30] 1) = fst (RNG.nextU32 1) /\
  exists x, fst (choice [10; 20; 30] 1) = Some x /\ x ∈ [10; 20; 30].
Proof.
  destruct (choice_spec [10; 20; 30] 1) as (Hs & _ & Hne); [unfold RNG.valid; lia|].
  split; [exact Hs|]. apply Hne; [discriminate | vm_compute; discriminate].
Defined.

(** ** From the generators to the rules *)

Module Pipeline.

Lemma simple_well_formed n g : shaped n g -> symmetric g -> well_formed g.
Proof.
  intros [HN Hlen] Hsym. split; [split; [reflexivity | now rewrite HN]|].
  intros i ai j Hi Hj.
  destruct (proj1 (Hsym i j)) as (aj & Haj & _); [exists ai; auto|].
  apply js_get_Some in Haj. lia.
Qed.

Lemma generate_well_formed fuel type n rng g rng' :
  generate fuel type n rng = Some (Ok (g, rng')) -> well_formed g.
Proof.
  intros H.
  pose proof (Generators.generate_inv simple_graph GraphFacts.addEdge_simple n
                (GraphFacts.constructor_simple n) _ _ _ _ _ H) as [Hsym _].
  pose proof (Generators.generate_inv (shaped n)
                (fun g u v g' E => GraphFacts.addEdge_shaped n g u v g' E) n
                (GraphFacts.constructor_shaped n) _ _ _ _ _ H) as Hsh.
  eapply simple_well_formed; eassumption.
Qed.

(** *** The draws a rule consumes *)

Lemma advance_next rng rng' k :
  rng' = RNG.advance k rng -> fst (RNG.nextU32 rng') = RNG.advance (S k) rng.
Proof. intros ->. now rewrite RNGFacts.advance_S, RNGFacts.nextU32_state. Qed.

Lemma advanced_at rng k most : (k <= most)%nat -> advanced rng (RNG.advance k rng) most.
Proof. intros H. exists k. auto. Qed.

Lemma mutate_state mu c rng :
  snd (mutate mu c rng) = rng \/ snd (mutate mu c rng) = fst (RNG.nextU32 rng).
Proof.
  unfold mutate. destruct (ngt mu (Fin 0)); [|now left].
  pose proof (RNGFacts.random_state rng) as Hs.
  destruct (RNG.random rng) as [r rng1]. cbn [snd] in Hs.
  destruct (nlt (Fin r) mu); cbn [snd]; now right.
Qed.

Lemma mutate_advanced mu c rng0 rng k most :
  rng = RNG.advance k rng0 -> (S k <= most)%nat ->
  advanced rng0 (snd (mutate mu c rng)) most.
Proof.
  intros Hk Hm. destruct (mutate_state mu c rng) as [-> | ->].
  - exists k. split; [lia | exact Hk].
  - exists (S k). split; [lia | now apply advance_next].
Qed.

Lemma stepDB_advanced g strat M w mu rng :
  advanced rng (rng_after (stepDB g strat M w mu rng)) 3.
Proof.
  unfold stepDB.
  destruct (computePayoffs g strat M) as [pay|e]; [|apply (advanced_at rng 0); lia].
  pose proof (RNGFacts.int_state (N g) rng) as S1.
  destruct (RNG.int (N g) rng) as [dead rng1]. cbn [snd] in S1.
  assert (H1 : rng1 = RNG.advance 1 rng) by (rewrite S1; now apply (advance_next rng rng 0)).
  destruct (js_get (adj g) dead) as [neigh|];
    [|cbn [threw rng_after]; rewrite H1; apply advanced_at; lia].
  destruct (_ =? 0); [cbn [returned rng_after]; rewrite H1; apply advanced_at; lia|].
  match goal with |- context [pickWeightedIndex ?f rng1] =>
    pose proof (Bounds.pickWeightedIndex_state f rng1) as S2;
    destruct (pickWeightedIndex f rng1) as [winnerIdx rng2] end.
  cbn [snd] in S2.
  assert (H2 : rng2 = RNG.advance 2 rng) by (rewrite S2; now apply advance_next).
  match goal with |- context [mutate mu ?c rng2] =>
    pose proof (mutate_advanced mu c rng rng2 2 3 H2 ltac:(lia)) as S3;
    destruct (mutate mu c rng2) as [childStrat rng3] end.
  exact S3.
Qed.

Lemma stepBD_advanced g strat M w mu rng :
  advanced rng (rng_after (stepBD g strat M w mu rng)) 3.
Proof.
  unfold stepBD.
  destruct (computePayoffs g strat M) as [pay|e]; [|apply (advanced_at rng 0); lia].
  match goal with |- context [pickWeightedIndex ?f rng] =>
    pose proof (Bounds.pickWeightedIndex_state f rng) as S1;
    destruct (pickWeightedIndex f rng) as [parent rng1] end.
  cbn [snd] in S1.
  assert (H1 : rng1 = RNG.advance 1 rng) by (rewrite S1; now apply (advance_next rng rng 0)).
  destruct (js_get (adj g) parent) as [neigh|];
    [|cbn [threw rng_after]; rewrite H1; apply advanced_at; lia].
  destruct (_ =? 0); [cbn [returned rng_after]; rewrite H1; apply advanced_at; lia|].
  pose proof (RNGFacts.int_state (Z.of_nat (length neigh)) rng1) as S2.
  destruct (RNG.int (Z.of_nat (length neigh)) rng1) as [k rng2]. cbn [snd] in S2.
  assert (H2 : rng2 = RNG.advance 2 rng) by (rewrite S2; now apply advance_next).
  match goal with |- context [mutate mu ?c rng2] =>
    pose proof (mutate_advanced mu c rng rng2 2 3 H2 ltac:(lia)) as S3;
    destruct (mutate mu c rng2) as [childStrat rng3] end.
  exact S3.
Qed.

Lemma stepImitationFermi_advanced Math_exp g strat M beta mu rng :
  advanced rng (rng_after (stepImitationFermi Math_exp g strat M beta mu rng)) 4.
Proof.
  unfold stepImitationFermi.
  destruct (computePayoffs g strat M) as [pay|e]; [|apply (advanced_at rng 0); lia].
  pose proof (RNGFacts.int_state (N g) rng) as S1.
  destruct (RNG.int (N g) rng) as [i rng1]. cbn [snd] in S1.
  assert (H1 : rng1 = RNG.advance 1 rng) by (rewrite S1; now apply (advance_next rng rng 0)).
  destruct (js_get (adj g) i) as [neigh|];
    [|cbn [threw rng_after]; rewrite H1; apply advanced_at; lia].
  destruct (_ =? 0); [cbn [returned rng_after]; rewrite H1; apply advanced_at; lia|].
  pose proof (RNGFacts.int_state (Z.of_nat (length neigh)) rng1) as S2.
  destruct (RNG.int (Z.of_nat (length neigh)) rng1) as [k rng2]. cbn [snd] in S2.
  assert (H2 : rng2 = RNG.advance 2 rng) by (rewrite S2; now apply advance_next).
  pose proof (RNGFacts.random_state rng2) as S3.
  destruct (RNG.random rng2) as [r rng3]. cbn [snd] in S3.
  assert (H3 : rng3 = RNG.advance 3 rng) by (rewrite S3; now apply advance_next).
  destruct (nlt _ _); [|cbn [returned rng_after]; rewrite H3; apply advanced_at; lia].
  match goal with |- context [mutate mu ?c rng3] =>
    pose proof (mutate_advanced mu c rng rng3 3 4 H3 ltac:(lia)) as S4;
    destruct (mutate mu c rng3) as [s rng4] end.
  exact S4.
Qed.

Lemma advanced_valid rng rng' most : RNG.valid rng -> advanced rng rng' most -> RNG.valid rng'.
Proof. intros Hv (k & _ & ->). now apply RNGFacts.advance_valid. Qed.

End Pipeline.

(** The pieces fit: every graph a generator returns is well formed (one
    adjacency list per node, every listed neighbor a node); on it
    [resetPopulation], from any generator state, yields a strategy array of
    zeros and ones, one per node, and [computePayoffs] then returns one
    payoff per node. *)
Theorem built_population_ready fuel type n rng0 g rng1 :
  generate fuel type n rng0 = Some (Ok (g, rng1)) -> 0 <= n ->
  well_formed g /\
  forall initC rng M,
  exists strat,
    resetPopulation g initC rng = Some (strat, RNG.advance (Z.to_nat n) rng) /\
    strategies_for g strat /\
    exists pay, computePayoffs g strat M = Ok pay /\ Z.of_nat (length pay) = n.
Proof.
  intros H Hn.
  pose proof (Pipeline.generate_well_formed _ _ _ _ _ _ H) as Hwf.
  pose proof (Generators.generate_inv (shaped n)
                (fun g u v g' E => GraphFacts.addEdge_shaped n g u v g' E) n
                (GraphFacts.constructor_shaped n) _ _ _ _ _ H) as [HN _].
  split; [exact Hwf|]. intros initC rng M.
  destruct (Page.reset_returns g initC rng) as (strat & Hr & Hs & _); [lia|].
  exists strat. rewrite <- HN. split; [exact Hr|]. split; [exact Hs|].
  rewrite (Payoff.computePayoffs_shaped g strat M (proj1 Hwf)).
  eexists. split; [reflexivity|].
  rewrite length_fmap, length_seqZ. lia.
Qed.

Lemma built_population_ready_witness :
  exists g rng strat pay,
    buildGraph 100 (ba 3 2) 8 1 = Some (Ok (g, rng)) /\
    well_formed g /\
    resetPopulation g (Fin (1 # 2)) rng = Some (strat, RNG.advance (Z.to_nat 8) rng) /\
    strategies_for g strat /\
    computePayoffs g strat (donationToMatrix (Fin 3) (Fin 1)) = Ok pay /\
    Z.of_nat (length pay) = 8.
Proof.
  destruct (buildGraph 100 (ba 3 2) 8 1) as [[[g rng]|e]|] eqn:H;
    [| vm_compute in H; discriminate | vm_compute in H; discriminate].
  destruct (built_population_ready 100 (ba 3 2) 8 (RNG.constructor 1) g rng H ltac:(lia))
    as (Hwf & Hrest).
  destruct (Hrest (Fin (1 # 2)) rng (donationToMatrix (Fin 3) (Fin 1)))
    as (strat & Hr & Hs & pay & Hp & Hl).
  exists g, rng, strat, pay. auto 10.
Defined.

(** A call of an update rule takes its randomness from the generator it
    is given and nowhere else, and little of it: [stepDB] and [stepBD]
    leave the generator at most 3 draws further, [stepImitationFermi] at
    most 4, also when they throw; a generator in a valid state stays in
    one. *)
Theorem rules_draws Math_exp g strat M w mu rng :
  advanced rng (rng_after (stepDB g strat M w mu rng)) 3 /\
  advanced rng (rng_after (stepBD g strat M w mu rng)) 3 /\
  advanced rng (rng_after (stepImitationFermi Math_exp g strat M w mu rng)) 4 /\
  (RNG.valid rng ->
   RNG.valid (rng_after (stepDB g strat M w mu rng)) /\
   RNG.valid (rng_after (stepBD g strat M w mu rng)) /\
   RNG.valid (rng_after (stepImitationFermi Math_exp g strat M w mu rng))).
Proof.
  pose proof (Pipeline.stepDB_advanced g strat M w mu rng) as H1.
  pose proof (Pipeline.stepBD_advanced g strat M w mu rng) as H2.
  pose proof (Pipeline.stepImitationFermi_advanced Math_exp g strat M w mu rng) as H3.
  split; [exact H1|]. split; [exact H2|]. split; [exact H3|].
  intros Hv.
  split; [exact (Pipeline.advanced_valid _ _ _ Hv H1)|].
  split; [exact (Pipeline.advanced_valid _ _ _ Hv H2)|].
  exact (Pipeline.advanced_valid _ _ _ Hv H3).
Qed.

(** ** The draws the generators consume *)

Module Stream.

Lemma advance_2 rng :
  snd (RNG.random (snd (RNG.random rng))) = RNG.advance 2 rng.
Proof.
  rewrite !RNGFacts.random_state.
  rewrite (Pipeline.advance_next rng _ 1); [reflexivity|].
  exact (Pipeline.advance_next rng rng 0 eq_refl).
Qed.

Lemma positions_step (k : nat) rng :
  RNG.advance k (snd (RNG.random (snd (RNG.random rng)))) = RNG.advance (2 + k) rng.
Proof. rewrite advance_2. symmetry. apply Erdos.advance_add. Qed.

Lemma fold_left_step {A B} (f : A -> B -> A) b l x :
  fold_left f (b :: l) x = fold_left f l (f x b).
Proof. reflexivity. Qed.

Lemma positions_loop {A} (l : list A) : forall rng,
  fold_left (fun rng (_ : A) => snd (RNG.random (snd (RNG.random rng)))) l rng
  = RNG.advance (2 * length l) rng.
Proof.
  induction l as [|a l IH]; intros rng.
  - cbn [fold_left length Nat.mul RNG.advance]. reflexivity.
  - rewrite fold_left_step, IH, positions_step.
    replace (2 * length (a :: l))%nat with (2 + 2 * length l)%nat by (cbn [length]; lia).
    reflexivity.
Qed.

Lemma randomPositions_advance n rng :
  randomPositions n rng = RNG.advance (2 * Z.to_nat n) rng.
Proof.
  unfold randomPositions. rewrite positions_loop. f_equal.
  unfold seqZ. rewrite length_fmap, length_seq. reflexivity.
Qed.

Lemma sampleTargets_draws m pool fuel : forall ts rng targets rng',
  sampleTargets fuel m pool ts rng = Some (targets, rng') ->
  exists k : nat, rng' = RNG.advance k rng /\ m - Z.of_nat (length ts) <= Z.of_nat k.
Proof.
  induction fuel as [|fuel IH]; intros ts rng targets rng' H; cbn [sampleTargets] in H;
    destruct (Z.ltb_spec (Z.of_nat (length ts)) m) as [Hlt|Hge]; try discriminate.
  - injection H as <- <-. exists 0%nat. split; [reflexivity | lia].
  - pose proof (RNGFacts.int_state (Z.of_nat (length pool)) rng) as S1.
    destruct (RNG.int (Z.of_nat (length pool)) rng) as [i rng1]. cbn [snd] in S1.
    apply IH in H as (k & -> & Hk).
    exists (1 + k)%nat. split.
    + rewrite Erdos.advance_add. f_equal. rewrite S1.
      now apply (Pipeline.advance_next rng rng 0).
    + pose proof (BARounds.length_set_add (js_get pool i) ts). lia.
  - injection H as <- <-. exists 0%nat. split; [reflexivity | lia].
Qed.

Lemma attachAll_draws fuel m vs : forall g pool rng g' pool' rng',
  attachAll fuel m vs (g, pool, rng) = Some (Ok (g', pool', rng')) ->
  exists k : nat, rng' = RNG.advance k rng /\ m * Z.of_nat (length vs) <= Z.of_nat k.
Proof.
  induction vs as [|v vs IH]; intros g pool rng g' pool' rng' H; cbn [attachAll] in H.
  - injection H as <- <- <-. exists 0%nat. split; [reflexivity | cbn; lia].
  - destruct (attach fuel m v (g, pool, rng)) as [[[[g1 pool1] rng1]|e]|] eqn:E;
      try discriminate.
    unfold attach in E.
    destruct (sampleTargets fuel m pool [] rng) as [[targets rng2]|] eqn:Hs;
      [|discriminate].
    injection E as E. apply rbind_inv in E as (g2 & _ & E).
    apply rbind_inv in E as (dv & _ & E). injection E as _ _ <-.
    apply sampleTargets_draws in Hs as (k1 & -> & Hk1).
    apply IH in H as (k2 & -> & Hk2).
    exists (k1 + k2)%nat. split; [now rewrite Erdos.advance_add|].
    cbn [length] in *. lia.
Qed.

Lemma generate_draws fuel type n rng g rng' :
  generate fuel type n rng = Some (Ok (g, rng')) ->
  exists k : nat, rng' = RNG.advance k rng /\
    match type with
    | ring _ | lattice => k = 0%nat
    | erdos _ => Z.of_nat k = Z.max 0 n * (Z.max 0 n - 1) / 2 + 2 * Z.max 0 n
    | ba m0 m => m * (n - m0) + 2 * n <= Z.of_nat k
    end.
Proof.
  intros H. destruct type as [k| |p|m0 m]; cbn [generate] in H.
  - injection H as H. apply rbind_inv in H as (g1 & _ & H). injection H as _ <-.
    exists 0%nat. auto.
  - injection H as H. apply rbind_inv in H as (g1 & _ & H). injection H as _ <-.
    exists 0%nat. auto.
  - injection H as H. unfold makeErdosRenyi in H.
    apply rbind_inv in H as ([g1 rng1] & He & H). injection H as _ <-. cbn [snd].
    unfold erdosRenyiEdges, for_range at 1 in He.
    destruct (Erdos.rows n p (seqZ 0 (n - 0)) (Graph.constructor n) rng)
      as (g2 & Hrows & _).
    { apply GraphFacts.constructor_shaped. }
    { intros i Hi. apply elem_of_seqZ in Hi. lia. }
    rewrite Hrows in He. injection He as _ <-.
    rewrite randomPositions_advance, <- Erdos.advance_add.
    eexists. split; [reflexivity|].
    rewrite Nat2Z.inj_add, Nat2Z.inj_mul.
    destruct (Z.le_gt_cases 0 n) as [Hn|Hn].
    + rewrite (Erdos.candidates_rows n (Z.to_nat n) 0) by lia.
      rewrite Z.max_r by lia. rewrite Z2Nat.id by lia.
      replace (n - 0) with n by lia. lia.
    + rewrite Z.max_l by lia.
      replace (seqZ 0 (n - 0)) with (@nil Z)
        by (unfold seqZ; replace (Z.to_nat (n - 0)) with 0%nat by lia; reflexivity).
      cbn [candidates foldr]. rewrite Z2Nat.nonpos by lia. reflexivity.
  - assert (Hg : 2 <= m0 /\ 1 <= m < m0).
    { destruct (Z.ltb_spec m0 2) as [|Hm0];
        [rewrite BAState.makeBA_guards in H by lia; discriminate|].
      destruct (Z.ltb_spec m 1) as [|Hm1];
        [rewrite BAState.makeBA_guards in H by lia; discriminate|].
      destruct (Z.leb_spec m0 m) as [|Hm];
        [rewrite BAState.makeBA_guards in H by lia; discriminate|]. lia. }
    assert (Hn : m0 <= n).
    { destruct (Z.leb_spec m0 n) as [|Hn]; [assumption|].
      rewrite BAState.makeBA_rounds, BAState.seedClique_TypeError in H by lia.
      discriminate. }
    rewrite BAState.makeBA_rounds in H by lia.
    destruct (seedClique n m0) as [g0|]; [|discriminate].
    destruct (seedPool g0 m0) as [pool0|]; [|discriminate].
    destruct (attachAll fuel m (seqZ m0 (n - m0)) (g0, pool0, rng))
      as [[[[g1 pool1] rng1]|e]|] eqn:Ha; try discriminate.
    injection H as _ <-.
    apply attachAll_draws in Ha as (k & -> & Hk).
    rewrite randomPositions_advance, <- Erdos.advance_add.
    eexists. split; [reflexivity|].
    rewrite length_seqZ, Z2Nat.id in Hk by lia.
    rewrite Nat2Z.inj_add, Nat2Z.inj_mul, Z2Nat.id by lia. lia.
Qed.

End Stream.

(** What a generator does to the shared random generator: [makeRing] and
    [makeLattice] leave it untouched; [makeErdosRenyi] consumes exactly
    [N (N - 1) / 2 + 2 N] draws, whatever [p] is; [makeBA] consumes at
    least [m (N - m0) + 2 N]; a generator in a valid state is left in a
    valid state. *)
Theorem generate_stream fuel type n rng g rng' :
  generate fuel type n rng = Some (Ok (g, rng')) ->
  (RNG.valid rng -> RNG.valid rng') /\
  exists k : nat, rng' = RNG.advance k rng /\
    match type with
    | ring _ | lattice => k = 0%nat
    | erdos _ => Z.of_nat k = Z.max 0 n * (Z.max 0 n - 1) / 2 + 2 * Z.max 0 n
    | ba m0 m => m * (n - m0) + 2 * n <= Z.of_nat k
    end.
Proof.
  intros H. destruct (Stream.generate_draws _ _ _ _ _ _ H) as (k & Hk & Hcount).
  split.
  - intros Hv. rewrite Hk. now apply RNGFacts.advance_valid.
  - exists k. auto.
Qed.

Lemma generate_stream_witness :
  exists g rng' k,
    generate 0 (erdos (Fin (1 # 2))) 6 1 = Some (Ok (g, rng')) /\
    RNG.valid rng' /\ rng' = RNG.advance k 1 /\
    Z.of_nat k = Z.max 0 6 * (Z.max 0 6 - 1) / 2 + 2 * Z.max 0 6.
Proof.
  destruct (generate 0 (erdos (Fin (1 # 2))) 6 1) as [[[g rng']|e]|] eqn:H;
    [| vm_compute in H; discriminate | vm_compute in H; discriminate].
  destruct (generate_stream _ _ _ _ _ _ H) as (Hv & k & Hk & Hc).
  exists g, rng', k. split; [reflexivity|].
  split; [apply Hv; unfold RNG.valid; lia|]. split; [exact Hk | exact Hc].
Defined.

(** ** Instances *)

Lemma addEdge_contract_witness :
  exists g', Graph.addEdge (Graph.constructor 3) 0 1 = Ok g' /\
             neighbor g' 0 1 /\ neighbor g' 1 0 /\
             Graph.addEdge g' 0 1 = Ok g' /\ Graph.addEdge g' 1 0 = Ok g' /\
             Graph.addEdge (Graph.constructor 3) 0 3 = Err TypeError.
Proof.
  destruct (addEdge_contract (Graph.constructor 3) 0 1) as [_ H01].
  destruct (H01 ltac:(lia)) as (_ & _ & Hok).
  destruct (addEdge_contract (Graph.constructor 3) 0 3) as [_ H03].
  destruct (H03 ltac:(lia)) as (Herr & _).
  destruct (Graph.addEdge (Graph.constructor 3) 0 1) as [g'|e] eqn:E;
    [|vm_compute in E; discriminate].
  destruct (Hok g' eq_refl) as (Hn & _ & Ha & Hb).
  exists g'. split; [reflexivity|].
  split; [apply Hn; auto|]. split; [apply Hn; auto|].
  split; [exact Ha|]. split; [exact Hb|].
  apply Herr. intros [_ [_ H]]. vm_compute in H. discriminate.
Defined.

Lemma makeRing_outcome_witness :
  makeRing 10 3 = Err InvalidParameter /\
  makeRing 2 6 = Err TypeError /\
  (exists g, makeRing 1 10 = Ok g) /\ (exists g, makeRing 10 4 = Ok g).
Proof.
  destruct (makeRing_outcome 10 3) as (H1 & _).
  destruct (makeRing_outcome 2 6) as (_ & H2 & _).
  destruct (makeRing_outcome 1 10) as (_ & _ & H3).
  destruct (makeRing_outcome 10 4) as (_ & _ & H4).
  split; [apply H1; reflexivity|].
  split; [apply H2; [reflexivity | change (6 / 2) with 3; lia]|].
  split; [apply H3; [reflexivity | change (10 / 2) with 5; lia]
         | apply H4; [reflexivity | change (4 / 2) with 2; lia]].
Defined.

Lemma makeLattice_outcome_witness :
  (exists g, makeLattice 0 = Ok g) /\ (exists g, makeLattice 4 = Ok g) /\
  makeLattice 5 = Err InvalidParameter.
Proof.
  destruct (makeLattice_outcome 0) as (H0 & _).
  destruct (makeLattice_outcome 4) as (H4 & _).
  destruct (makeLattice_outcome 5) as (_ & H5).
  split; [apply H0; exists 0; lia|].
  split; [apply H4; exists 2; lia|].
  apply H5. intros (L & HL & E). assert (L <= 2) by nia.
  assert (L = 0 \/ L = 1 \/ L = 2) as [-> | [-> | ->]] by lia; lia.
Defined.

Lemma makeBA_errors_witness :
  makeBA 100 50 1 2 1 = Some (Err InvalidParameter) /\
  makeBA 100 50 6 6 1 = Some (Err InvalidParameter) /\
  makeBA 100 3 6 2 1 = Some (Err TypeError).
Proof.
  destruct (makeBA_errors 100 50 1 2 1) as ((_ & H1) & _).
  destruct (makeBA_errors 100 50 6 6 1) as ((_ & H2) & _).
  destruct (makeBA_errors 100 3 6 2 1) as (_ & H3).
  split; [apply H1; lia|]. split; [apply H2; lia | apply H3; lia].
Defined.

Lemma countCooperators_spec_witness :
  countCooperators [1; 0; 1; 1] = 3 /\
  (isFixated [1; 1; 1] = true <->
   countCooperators [1; 1; 1] = 0 \/ countCooperators [1; 1; 1] = 3).
Proof.
  destruct (countCooperators_spec [1; 0; 1; 1]) as (H1 & _).
  destruct (countCooperators_spec [1; 1; 1]) as (_ & _ & _ & _ & H2).
  split; [rewrite H1; reflexivity|].
  apply H2. intros s Hs.
  repeat (apply elem_of_cons in Hs as [->|Hs]; [auto|]). inversion Hs.
Defined.

Lemma rules_one_flip_witness :
  binary (strat_after (stepDB pairGraph [1; 0] (donationToMatrix (Fin 3) (Fin 1))
                         (Fin (1 # 2)) (Fin (1 # 2)) 1)) /\
  -1 <= countCooperators
          (strat_after (stepBD pairGraph [1; 0] (donationToMatrix (Fin 3) (Fin 1))
                          (Fin (1 # 2)) (Fin (1 # 2)) 1))
        - countCooperators [1; 0] <= 1.
Proof.
  destruct (rules_one_flip (fun _ => Fin 1) pairGraph [1; 0]
              (donationToMatrix (Fin 3) (Fin 1)) (Fin (1 # 2)) (Fin (1 # 2)) 1)
    as ((_ & Hb & _) & (_ & _ & Hc) & _).
  split; [|exact Hc].
  apply Hb. intros s Hs.
  repeat (apply elem_of_cons in Hs as [->|Hs]; [auto|]). inversion Hs.
Defined.

Lemma resetPopulation_spec_witness :
  exists strat,
    resetPopulation pairGraph (Fin (1 # 2)) 1 = Some (strat, RNG.advance (Z.to_nat 2) 1) /\
    strategies_for pairGraph strat.
Proof.
  destruct (resetPopulation_spec pairGraph (Fin (1 # 2)) 1) as (_ & H).
  destruct (H ltac:(cbn; lia)) as (strat & Hr & Hs & _).
  exists strat. split; [exact Hr | exact Hs].
Defined.

Lemma rules_draws_witness :
  RNG.valid (rng_after (stepDB pairGraph [1; 0] (donationToMatrix (Fin 3) (Fin 1))
                          (Fin (1 # 2)) (Fin (1 # 2)) 1)) /\
  advanced 1 (rng_after (stepImitationFermi (fun _ => Fin 1) pairGraph [1; 0]
                           (donationToMatrix (Fin 3) (Fin 1)) (Fin (1 # 2)) (Fin (1 # 2)) 1)) 4.
Proof.
  destruct (rules_draws (fun _ => Fin 1) pairGraph [1; 0]
              (donationToMatrix (Fin 3) (Fin 1)) (Fin (1 # 2)) (Fin (1 # 2)) 1)
    as (_ & _ & H3 & Hv).
  split; [|exact H3].
  apply Hv. unfold RNG.valid. lia.
Defined.

(** ** makeErdosRenyi, draw by draw *)

Module Sel.
Import Graph GraphFacts Built.

Section Loops.
Variables (n : Z) (p : num).

Lemma sel_row i l : forall g rng,
  foldM (fun j '(g, rng) =>
           let '(r, rng) := RNG.random rng in
           if nlt (Fin r) p
           then do g <- addEdge g i j; Ok (g, rng)
           else Ok (g, rng)) l (g, rng)
  = (do g' <- addEdges (rowSel p i l rng) g;
     Ok (g', RNG.advance (length l) rng)).
Proof.
  induction l as [|j l IH]; intros g rng; [reflexivity|].
  cbn [foldM length rowSel]. rewrite Erdos.advance_front.
  rewrite RNGFacts.random_eq. cbv beta iota.
  unfold accepted. rewrite Bounds.output_0.
  rewrite RNGFacts.nextU32_state.
  destruct (nlt (Fin (inject_Z (fst (RNG.nextU32 rng)) / inject_Z 4294967295)) p).
  - unfold addEdges. cbn [app foldM]. unfold addE at 1. cbn [fst snd].
    destruct (addEdge g i j) as [g1|e]; [|reflexivity]. cbn [rbind].
    apply IH.
  - cbn [app rbind]. apply IH.
Qed.

Lemma sel_rows l : forall g rng,
  foldM (fun i st =>
           for_range (i + 1) n (fun j '(g, rng) =>
             let '(r, rng) := RNG.random rng in
             if nlt (Fin r) p
             then do g <- addEdge g i j; Ok (g, rng)
             else Ok (g, rng)) st) l (g, rng)
  = (do g' <- addEdges (allSel p n l rng) g;
     Ok (g', RNG.advance (candidates n l) rng)).
Proof.
  induction l as [|i l IH]; intros g rng; [reflexivity|].
  change (candidates n (i :: l))
    with (Z.to_nat (n - (i + 1)) + candidates n l)%nat.
  cbn [foldM allSel]. unfold for_range at 1. rewrite sel_row.
  unfold addEdges. rewrite foldM_app.
  fold (addEdges (rowSel p i (seqZ (i + 1) (n - (i + 1))) rng) g).
  destruct (addEdges _ g) as [g1|e]; [|reflexivity]. cbn [rbind].
  rewrite length_seqZ, Erdos.advance_add. apply IH.
Qed.

Lemma elem_of_rowSel i l : forall rng a b,
  (a, b) ∈ rowSel p i l rng <->
  a = i /\ exists k, l !! k = Some b /\ accepted p rng k = true.
Proof.
  induction l as [|j l IH]; intros rng a b; cbn [rowSel].
  - split; [intros H; inversion H | intros (_ & k & Hk & _); discriminate].
  - rewrite elem_of_app, IH. split.
    + intros [H|(-> & k & Hk & Hacc)].
      * destruct (accepted p rng 0) eqn:E; [|inversion H].
        apply list_elem_of_singleton in H. injection H as -> ->.
        split; [reflexivity|]. exists 0%nat. auto.
      * split; [reflexivity|]. exists (S k). split; [exact Hk|].
        unfold accepted in *. now rewrite Complete.output_front.
    + intros (-> & [|k] & Hk & Hacc).
      * injection Hk as ->. left. rewrite Hacc. left.
      * right. split; [reflexivity|]. exists k. split; [exact Hk|].
        unfold accepted in *. now rewrite <- Complete.output_front.
Qed.

Lemma elem_of_allSel (cnt : nat) : forall a rng x y,
  0 <= a ->
  (x, y) ∈ allSel p n (seqZ a (Z.of_nat cnt)) rng <->
  a <= x < a + Z.of_nat cnt /\ x < y < n /\
  accepted p rng (candidates n (seqZ a (x - a)) + Z.to_nat (y - x - 1)) = true.
Proof.
  induction cnt as [|cnt IH]; intros a rng x y Ha.
  - cbn. split; [intros H; inversion H | lia].
  - rewrite seqZ_cons by lia. cbn [allSel].
    replace (Z.pred (Z.of_nat (S cnt))) with (Z.of_nat cnt) by lia.
    rewrite elem_of_app, elem_of_rowSel, (IH (Z.succ a)) by lia. split.
    + intros [(-> & k & Hk & Hacc) | (Hx & Hy & Hacc)].
      * apply lookup_seqZ in Hk as [-> Hk].
        split; [lia|]. split; [lia|].
        rewrite Z.sub_diag. cbn [seqZ candidates foldr Nat.add].
        replace (Z.to_nat (a + 1 + Z.of_nat k - a - 1)) with k by lia.
        change (candidates n (seqZ a 0)) with 0%nat. exact Hacc.
      * split; [lia|]. split; [exact Hy|].
        unfold accepted in *. rewrite Complete.output_advance in Hacc.
        replace (x - a) with (Z.succ (x - Z.succ a)) by lia.
        rewrite seqZ_cons by lia. rewrite Z.pred_succ.
        change (candidates n (a :: ?l))
          with (Z.to_nat (n - (a + 1)) + candidates n l)%nat.
        rewrite <- Nat.add_assoc. exact Hacc.
    + intros (Hx & Hy & Hacc). destruct (decide (x = a)) as [->|Hne].
      * left. split; [reflexivity|]. exists (Z.to_nat (y - a - 1)). split.
        -- apply lookup_seqZ. lia.
        -- rewrite Z.sub_diag in Hacc.
           change (candidates n (seqZ a 0)) with 0%nat in Hacc. exact Hacc.
      * right. split; [lia|]. split; [exact Hy|].
        unfold accepted in *. rewrite Complete.output_advance.
        replace (x - a) with (Z.succ (x - Z.succ a)) in Hacc by lia.
        rewrite seqZ_cons in Hacc by lia. rewrite Z.pred_succ in Hacc.
        change (candidates n (a :: ?l))
          with (Z.to_nat (n - (a + 1)) + candidates n l)%nat in Hacc.
        rewrite <- Nat.add_assoc in Hacc. exact Hacc.
Qed.

End Loops.

Lemma erdos_spec n p rng :
  0 <= n ->
  exists g,
    makeErdosRenyi n p rng
    = Ok (g, RNG.advance (Z.to_nat (n * (n - 1) / 2 + 2 * n)) rng) /\
    holds_edges n (allSel p n (seqZ 0 n) rng) g /\
    forall i j,
      neighbor g i j <->
      (0 <= i /\ i < j < n /\ accepted p rng (pairIndex n i j) = true) \/
      (0 <= j /\ j < i < n /\ accepted p rng (pairIndex n j i) = true).
Proof.
  intros Hn.
  assert (Hsel : forall x y, (x, y) ∈ allSel p n (seqZ 0 n) rng <->
            0 <= x /\ x < y < n /\ accepted p rng (pairIndex n x y) = true).
  { intros x y. replace n with (Z.of_nat (Z.to_nat n)) at 2 by lia.
    rewrite (elem_of_allSel n p (Z.to_nat n) 0 rng x y) by lia.
    unfold pairIndex. rewrite Z.sub_0_r. split; intros (H1 & H2 & H3); (split; [lia|auto]). }
  destruct (addEdges_holds n (allSel p n (seqZ 0 n) rng) [] (constructor n))
    as (g & Hg & Hholds).
  { apply holds_edges_empty. }
  { intros u v Huv. apply Hsel in Huv. lia. }
  rewrite app_nil_l in Hholds.
  exists g. split; [|split; [exact Hholds|]].
  - unfold makeErdosRenyi, erdosRenyiEdges, for_range at 1.
    rewrite sel_rows. rewrite Z.sub_0_r, Hg. cbn [rbind fst snd].
    rewrite Stream.randomPositions_advance, <- Erdos.advance_add.
    assert (E : (candidates n (seqZ 0 n) + 2 * Z.to_nat n)%nat
                = Z.to_nat (n * (n - 1) / 2 + 2 * n)).
    { pose proof (Erdos.candidates_rows n (Z.to_nat n) 0 ltac:(lia) ltac:(lia)) as C.
      rewrite !Z.sub_0_r in C.
      assert (0 <= n * (n - 1) / 2) by (apply Z.div_pos; nia). lia. }
    rewrite E. reflexivity.
  - intros i j. destruct Hholds as (_ & _ & Hnb). rewrite Hnb, !Hsel.
    split; [intros (Hne & [H|H]); auto | intros [H|H]; (split; [lia | auto])].
Qed.

End Sel.

(** The generator couples the graphs for different [p]: from the same
    generator state, the graph for [p] is a subgraph of the graph for any
    larger [p'], and both runs leave the generator in the same state. *)
Theorem erdos_monotone (n : Z) (p p' : Q) (rng : Z) :
  0 <= n -> (p <= p')%Q ->
  exists g g' rng1,
    makeErdosRenyi n (Fin p) rng = Ok (g, rng1) /\
    makeErdosRenyi n (Fin p') rng = Ok (g', rng1) /\
    forall i j, neighbor g i j -> neighbor g' i j.
Proof.
  intros Hn Hp.
  destruct (Sel.erdos_spec n (Fin p) rng Hn) as (g & Hg & _ & Hnb).
  destruct (Sel.erdos_spec n (Fin p') rng Hn) as (g' & Hg' & _ & Hnb').
  exists g, g'. eexists. split; [exact Hg|]. split; [exact Hg'|].
  assert (Hacc : forall k, accepted (Fin p) rng k = true -> accepted (Fin p') rng k = true).
  { intros k. unfold accepted. cbn [nlt]. unfold Qltb. rewrite !negb_true_iff.
    intros H. apply not_true_iff_false in H. apply not_true_iff_false. intros H'.
    apply H. apply Qle_bool_iff in H'. apply Qle_bool_iff. lra. }
  intros i j. rewrite Hnb, Hnb'.
  intros [(H1 & H2 & H3)|(H1 & H2 & H3)]; [left | right]; auto.
Qed.

Lemma erdos_monotone_witness :
  exists g g' rng1,
    makeErdosRenyi 5 (Fin (1 # 4)) 1 = Ok (g, rng1) /\
    makeErdosRenyi 5 (Fin (3 # 4)) 1 = Ok (g', rng1) /\
    forall i j, neighbor g i j -> neighbor g' i j.
Proof.
  apply (erdos_monotone 5 (1 # 4) (3 # 4) 1); [lia | lra].
Defined.

(** ** The seeds of the trials, where the sum is exact *)

(** Two trials of [runFixation], fewer than 2^32 apart and with
    [|baseSeed| + 1000 + |t|] below 2^53, draw streams that differ at every
    position, unless their seeds [baseSeed + 1000 + t] are 0 and 1 modulo
    2^32. *)
Theorem trial_streams_distinct (baseSeed t1 t2 : Z) :
  Z.abs baseSeed + 1000 + Z.abs t1 < 2 ^ 53 ->
  Z.abs baseSeed + 1000 + Z.abs t2 < 2 ^ 53 ->
  t1 <> t2 -> Z.abs (t1 - t2) < 2 ^ 32 ->
  ~ ((baseSeed + 1000 + t1) mod 2 ^ 32 <= 1 /\ (baseSeed + 1000 + t2) mod 2 ^ 32 <= 1) ->
  forall n, RNG.output (trialRng baseSeed t1) n <> RNG.output (trialRng baseSeed t2) n.
Proof.
  intros H1 H2 Hne Hd Hnot n Heq. unfold trialRng in Heq.
  rewrite !constructor64_eq, !trialSeed_exact in Heq by assumption.
  apply RNGFacts.output_inj in Heq; try apply RNGFacts.constructor_range.
  apply RNGFacts.constructor_eq_iff in Heq.
  rewrite !Z.mod_mod in Heq by lia.
  destruct Heq as [Heq|Heq]; [|tauto].
  pose proof (Z.div_mod (baseSeed + 1000 + t1) (2 ^ 32) ltac:(lia)) as E1.
  pose proof (Z.div_mod (baseSeed + 1000 + t2) (2 ^ 32) ltac:(lia)) as E2.
  rewrite Heq in E1.
  set (q1 := (baseSeed + 1000 + t1) / 2 ^ 32) in *.
  set (q2 := (baseSeed + 1000 + t2) / 2 ^ 32) in *.
  set (r := (baseSeed + 1000 + t2) mod 2 ^ 32) in *.
  change (2 ^ 32) with 4294967296 in *. clearbody q1 q2 r. lia.
Qed.

Lemma trial_streams_distinct_witness :
  RNG.output (trialRng 42 0) 5 <> RNG.output (trialRng 42 1) 5.
Proof.
  apply (trial_streams_distinct 42 0 1).
  - vm_compute. reflexivity.
  - vm_compute. reflexivity.
  - lia.
  - vm_compute. reflexivity.
  - vm_compute. intros [H _]. apply H. reflexivity.
Defined.
